(** * Room session synchronisation of the Firebase chat room component

    Shallow embedding of the [App] component of the repository, in its three
    variants:
      - [src/src/App.jsx]       (module [App]),
      - [src/unnamed/part_000]  (module [Part000], the variant with
        [cleanupRef], [pushCleanup] and [runCleanup]),
      - [src/unnamed/part_001]  (module [Part001], the variant that stashes
        a [_cleanup] closure on [roomRef.current]; its notification
        handlers and its [sendMessage] are textually those of App.jsx, and
        its [joinRoom] and [leaveRoom] differ from App.jsx's only by that
        closure).

    JavaScript strings are sequences of UTF-16 code units, the React state
    is a record, the Firebase client is a record holding the listener table
    and the log of the write calls issued, and the [async] functions are
    computations in a state monad whose result is a settled promise.  A
    function runs to its settlement as one step; what the environment
    decides (how an awaited call settles, the clock, the generated key) is
    an argument of the function.  What the path decides is computed: [ref]
    throws on the paths it refuses, wherever the functions call it with a
    room id or a user id that comes from outside. *)

From Stdlib Require Import Ascii String Sorted.
From stdpp Require Import base numbers list option gmap sorting.

Open Scope list_scope.

(** ** JavaScript strings *)

(** A string is its sequence of UTF-16 code units. *)
Abbreviation jsstring := (list N).

(** A string literal of the source (all literals of the component are ASCII). *)
Definition lit (s : String.string) : jsstring :=
  (fun a : ascii => N_of_ascii a) <$> String.list_ascii_of_string s.

(** [!s] for a string [s]: only the empty string is falsy. *)
Definition is_empty (s : jsstring) : bool :=
  match s with [] => true | _ :: _ => false end.

(** [a === b] on strings. *)
Definition str_eqb (a b : jsstring) : bool := bool_decide (a = b).

(** The code units of ECMAScript's WhiteSpace and LineTerminator, the ones
    [String.prototype.trim] strips. *)
Definition is_white_space (c : N) : bool :=
  ((9 <=? c) && (c <=? 13) || (c =? 32) || (c =? 160) || (c =? 5760)
   || (8192 <=? c) && (c <=? 8202) || (c =? 8232) || (c =? 8233)
   || (c =? 8239) || (c =? 8287) || (c =? 12288) || (c =? 65279))%N.

Fixpoint trimStart (s : jsstring) : jsstring :=
  match s with
  | [] => []
  | c :: s' => if is_white_space c then trimStart s' else s
  end.

Definition trimEnd (s : jsstring) : jsstring := rev (trimStart (rev s)).

(** [s.trim()] *)
Definition trim (s : jsstring) : jsstring := trimEnd (trimStart s).

(** Order of the keys the feed generates: [push] keys sort lexicographically
    by code unit, in creation order. *)
Fixpoint key_ltb (a b : jsstring) : bool :=
  match a, b with
  | _, [] => false
  | [], _ :: _ => true
  | x :: a', y :: b' =>
      if (x <? y)%N then true
      else if (y <? x)%N then false
      else key_ltb a' b'
  end.

Definition key_lt (a b : jsstring) : Prop := key_ltb a b = true.

(** ** Records held in the feed *)

(** [{ createdAt }] at [rooms/<id>]. *)
Record room := { createdAt : Z }.

(** [{ id, name, joinedAt }] at [rooms/<id>/participants/<userId>]. *)
Record participant := {
  p_id : jsstring;
  p_name : jsstring;
  p_joinedAt : Z
}.

(** [{ fromId, fromName, text, at }] at [rooms/<id>/messages/<key>]. *)
Record message_value := {
  v_fromId : jsstring;
  v_fromName : jsstring;
  v_text : jsstring;
  v_at : Z
}.

(** An entry of the [messages] state: the value plus the child's key as [id]. *)
Record message := {
  msg_id : jsstring;
  msg_fromId : jsstring;
  msg_fromName : jsstring;
  msg_text : jsstring;
  msg_at : Z
}.

(** A [DataSnapshot]: [snap.key] and [snap.val()], the latter [null] when
    nothing is stored at the location. *)
Record snapshot (V : Type) := Snapshot {
  key : jsstring;
  val : option V
}.
Arguments Snapshot {V} _ _.
Arguments key {V} _.
Arguments val {V} _.

(** [snap.exists()] *)
Definition snap_exists {V} (snap : snapshot V) : bool :=
  match val snap with Some _ => true | None => false end.

(** ** The notification handlers (identical in the three variants) *)

(** The [onChildAdded] callback, as the function it passes to [setMessages]
    (App.jsx 85-101, part_000 108-122, part_001 87-103):
<<
      const val = snap.val();
      if (!val) return;
      const msg = { id: snap.key, fromId: val.fromId, ... };
      setMessages((prev) => {
        if (prev.some((m) => m.id === msg.id)) return prev;
        return [...prev, msg];
      });
>> *)
Definition message_of (k : jsstring) (v : message_value) : message :=
  {| msg_id := k;
     msg_fromId := v_fromId v;
     msg_fromName := v_fromName v;
     msg_text := v_text v;
     msg_at := v_at v |}.

Definition messageAdded (snap : snapshot message_value) (prev : list message)
  : list message :=
  match val snap with
  | None => prev
  | Some v =>
      let msg := message_of (key snap) v in
      if existsb (fun m => str_eqb (msg_id m) (msg_id msg)) prev
      then prev
      else prev ++ [msg]
  end.

(** A run of item-added notifications, applied in delivery order. *)
Definition messagesAdded (snaps : list (snapshot message_value))
  (prev : list message) : list message :=
  fold_left (fun acc snap => messageAdded snap acc) snaps prev.

(** The participants [onValue] callback (App.jsx 78-81, part_000 100-103,
    part_001 80-83), as the value it passes to [setParticipants]:
<<
      const val = snap.val() || {};
      setParticipants(val);
>> *)
Definition participantsValue (snap : snapshot (gmap jsstring participant))
  : gmap jsstring participant :=
  match val snap with
  | Some v => v
  | None => ∅
  end.

(** ** The Firebase client, as far as the component uses it *)

(** What a rejected SDK promise, or an SDK call that throws, carries. *)
Definition error : Type := jsstring.

(** How a call to the feed ends; the environment decides. *)
Inductive outcome :=
  | Succeeds
  | Fails (e : error).

Inductive payload :=
  | RoomValue (r : room)
  | ParticipantValue (p : participant)
  | MessageValue (v : message_value).

(** The write calls of the SDK the component issues. *)
Inductive feed_call :=
  | CallSet (path : jsstring) (v : payload)
  | CallRemove (path : jsstring)
  | CallOnDisconnectRemove (path : jsstring)
  | CallPush (path : jsstring) (generated : jsstring).

Inductive event := ValueEvent | ChildAddedEvent.

#[global] Instance event_eq_dec : EqDecision event.
Proof. solve_decision. Defined.

(** The three callbacks [joinRoom] registers. *)
Inductive callback :=
  | ParticipantsCallback
  | MessagesCallback
  | EnsureRoomCallback.

#[global] Instance callback_eq_dec : EqDecision callback.
Proof. solve_decision. Defined.

(** A registered listener; [l_handle] identifies the unsubscribe function
    the registration returned. *)
Record listener := {
  l_handle : nat;
  l_path : jsstring;
  l_event : event;
  l_limitToLast : option nat;
  l_onlyOnce : bool;
  l_callback : callback
}.

(** The client: the write calls issued so far (oldest first), the active
    listeners (oldest first), the next handle, and the handles whose
    unsubscribe function throws when called (none in a healthy SDK; this is
    the failure [runCleanup]'s [try]/[catch] guards against). *)
Record feed := {
  calls : list feed_call;
  listeners : list listener;
  next_handle : nat;
  faulty : list nat
}.

(** What [onValue] / [onChildAdded] returned, as the cleanup closures test it
    ([unsub && typeof unsub === "function" && unsub()]). *)
Inductive unsub_value :=
  | UnsubFn (h : nat)
  | UnsubUndefined.

#[global] Instance unsub_value_eq_dec : EqDecision unsub_value.
Proof. solve_decision. Defined.

(** An element of [cleanupRef.current] ([typeof fn === "function"]). *)
Inductive cleanup_entry :=
  | Closure (u : unsub_value)
  | NotAFunction.

#[global] Instance cleanup_entry_eq_dec : EqDecision cleanup_entry.
Proof. solve_decision. Defined.

(** [ref(db, path)] validates the path it is given: it throws on a path
    that is empty or holds a dot, a hash, a dollar sign, a square bracket or
    a control character (U+0000 to U+001F, U+007F); the slash separates the
    segments.  The paths of the component all start with the segment
    [rooms], so what decides is the room id, typed by the user or
    generated, and the user id, read from the storage. *)
Definition is_invalid_path_unit (c : N) : bool :=
  ((c <=? 31) || (c =? 35) || (c =? 36) || (c =? 46) || (c =? 91)
   || (c =? 93) || (c =? 127))%N.

Definition isValidPathString (path : jsstring) : bool :=
  negb (is_empty path)
  && forallb (fun c => negb (is_invalid_path_unit c)) path.

(** The error [ref] throws; its message quotes the path. *)
Definition invalid_path (path : jsstring) : error :=
  lit "invalid path: " ++ path.

(** Effects on the UI collaborator. *)
Inductive ui_effect :=
  | Alert (text : jsstring)
  | ConsoleError (label : jsstring) (e : error).

(** ** The component's state

    The [useState] cells, the [useRef] cells (a [ref(db, path)] is its path,
    [null] is [None]), the UI effects so far, the Firebase client, and in
    [extra] what only one variant has ([cleanupRef] in part_000). *)
Record state (X : Type) := State {
  roomId : jsstring;
  inRoom : bool;
  messages : list message;
  participants : gmap jsstring participant;
  localText : jsstring;
  name : jsstring;
  userIdRef : jsstring;
  roomRef : option jsstring;
  messagesRef : option jsstring;
  participantsRef : option jsstring;
  effects : list ui_effect;
  db : feed;
  extra : X
}.
Arguments State {X}.
Arguments roomId {X} _.
Arguments inRoom {X} _.
Arguments messages {X} _.
Arguments participants {X} _.
Arguments localText {X} _.
Arguments name {X} _.
Arguments userIdRef {X} _.
Arguments roomRef {X} _.
Arguments messagesRef {X} _.
Arguments participantsRef {X} _.
Arguments effects {X} _.
Arguments db {X} _.
Arguments extra {X} _.

(** The state variables a handler closes over: those of the render it was
    created in. *)
Record render := Render {
  r_roomId : jsstring;
  r_inRoom : bool;
  r_localText : jsstring;
  r_name : jsstring
}.

(** The render of the current state: what the handlers wired to the buttons
    of the page close over. *)
Definition current {X} (st : state X) : render :=
  Render (roomId st) (inRoom st) (localText st) (name st).

(** The state at mount: the [useState] and [useRef] initial values.  The
    stored or generated user id and the random default name are given. *)
Definition mount {X} (uid nm : jsstring) (x : X) : state X :=
  State [] false [] ∅ [] nm uid None None None []
        {| calls := []; listeners := []; next_handle := 0; faulty := [] |} x.

Section Updates.
Context {X : Type}.
Implicit Type st : state X.

Definition with_roomId (v : jsstring) st : state X :=
  State v (inRoom st) (messages st) (participants st) (localText st)
    (name st) (userIdRef st) (roomRef st) (messagesRef st)
    (participantsRef st) (effects st) (db st) (extra st).

Definition with_inRoom (v : bool) st : state X :=
  State (roomId st) v (messages st) (participants st) (localText st)
    (name st) (userIdRef st) (roomRef st) (messagesRef st)
    (participantsRef st) (effects st) (db st) (extra st).

Definition with_messages (v : list message) st : state X :=
  State (roomId st) (inRoom st) v (participants st) (localText st)
    (name st) (userIdRef st) (roomRef st) (messagesRef st)
    (participantsRef st) (effects st) (db st) (extra st).

Definition with_participants (v : gmap jsstring participant) st : state X :=
  State (roomId st) (inRoom st) (messages st) v (localText st)
    (name st) (userIdRef st) (roomRef st) (messagesRef st)
    (participantsRef st) (effects st) (db st) (extra st).

Definition with_localText (v : jsstring) st : state X :=
  State (roomId st) (inRoom st) (messages st) (participants st) v
    (name st) (userIdRef st) (roomRef st) (messagesRef st)
    (participantsRef st) (effects st) (db st) (extra st).

Definition with_name (v : jsstring) st : state X :=
  State (roomId st) (inRoom st) (messages st) (participants st) (localText st)
    v (userIdRef st) (roomRef st) (messagesRef st)
    (participantsRef st) (effects st) (db st) (extra st).

Definition with_roomRef (v : option jsstring) st : state X :=
  State (roomId st) (inRoom st) (messages st) (participants st) (localText st)
    (name st) (userIdRef st) v (messagesRef st)
    (participantsRef st) (effects st) (db st) (extra st).

Definition with_messagesRef (v : option jsstring) st : state X :=
  State (roomId st) (inRoom st) (messages st) (participants st) (localText st)
    (name st) (userIdRef st) (roomRef st) v
    (participantsRef st) (effects st) (db st) (extra st).

Definition with_participantsRef (v : option jsstring) st : state X :=
  State (roomId st) (inRoom st) (messages st) (participants st) (localText st)
    (name st) (userIdRef st) (roomRef st) (messagesRef st)
    v (effects st) (db st) (extra st).

Definition with_effects (v : list ui_effect) st : state X :=
  State (roomId st) (inRoom st) (messages st) (participants st) (localText st)
    (name st) (userIdRef st) (roomRef st) (messagesRef st)
    (participantsRef st) v (db st) (extra st).

Definition with_db (v : feed) st : state X :=
  State (roomId st) (inRoom st) (messages st) (participants st) (localText st)
    (name st) (userIdRef st) (roomRef st) (messagesRef st)
    (participantsRef st) (effects st) v (extra st).

Definition with_extra (v : X) st : state X :=
  State (roomId st) (inRoom st) (messages st) (participants st) (localText st)
    (name st) (userIdRef st) (roomRef st) (messagesRef st)
    (participantsRef st) (effects st) (db st) v.
End Updates.

(** ** Asynchronous functions

    An [async] function runs on the state and settles: it is fulfilled with a
    value or rejected with an error, and in both cases the state it reached
    stays.  An [await] on a rejected promise rejects the function, unless a
    [try] encloses it. *)
Inductive settled (A : Type) :=
  | Fulfilled (a : A)
  | Rejected (e : error).
Arguments Fulfilled {A} _.
Arguments Rejected {A} _.

Definition async (X A : Type) : Type := state X → settled A * state X.

Definition async_ret {X A} (a : A) : async X A := fun st => (Fulfilled a, st).

Definition async_bind {X A B} (f : A → async X B) (m : async X A) : async X B :=
  fun st =>
    match m st with
    | (Fulfilled a, st') => f a st'
    | (Rejected e, st') => (Rejected e, st')
    end.

#[global] Instance async_mret {X} : MRet (async X) := @async_ret X.
#[global] Instance async_mbind {X} : MBind (async X) := @async_bind X.

(** [throw e] *)
Definition throw {X A} (e : error) : async X A := fun st => (Rejected e, st).

(** [try { m } catch {}] *)
Definition try_catch {X} (m : async X unit) : async X unit :=
  fun st =>
    match m st with
    | (Fulfilled _, st') => (Fulfilled tt, st')
    | (Rejected _, st') => (Fulfilled tt, st')
    end.

(** [try { m } catch (err) { h err }] *)
Definition try_catch_with {X} (m : async X unit) (h : error → async X unit)
  : async X unit :=
  fun st =>
    match m st with
    | (Fulfilled _, st') => (Fulfilled tt, st')
    | (Rejected e, st') => h e st'
    end.

(** A state change that cannot fail. *)
Definition update {X} (f : state X → state X) : async X unit :=
  fun st => (Fulfilled tt, f st).

(** The state a run ends in, and how it settles. *)
Definition final {X A} (r : settled A * state X) : state X := snd r.
Definition settles {X A} (r : settled A * state X) : settled A := fst r.

(** [xs.forEach(f)] *)
Fixpoint forEach {X A} (f : A → async X unit) (xs : list A) : async X unit :=
  match xs with
  | [] => mret tt
  | x :: xs' => f x ;; forEach f xs'
  end.

(** [f()] for an [async] function [f] whose promise is dropped: the call
    runs, and how it settles is not observed.  The state is the one reached
    once the call has settled too. *)
Definition detached {X A} (m : async X A) : async X unit :=
  fun st => (Fulfilled tt, final (m st)).

(** ** The SDK functions and the state setters, as steps of an [async] run *)

Section Steps.
Context {X : Type}.

Definition setRoomId (v : jsstring) : async X unit := update (with_roomId v).
Definition setInRoom (v : bool) : async X unit := update (with_inRoom v).
Definition setLocalText (v : jsstring) : async X unit :=
  update (with_localText v).
Definition setParticipants (v : gmap jsstring participant) : async X unit :=
  update (with_participants v).

Definition setMessages (v : list message) : async X unit :=
  update (with_messages v).

Definition set_roomRef (v : option jsstring) : async X unit :=
  update (with_roomRef v).
Definition set_messagesRef (v : option jsstring) : async X unit :=
  update (with_messagesRef v).
Definition set_participantsRef (v : option jsstring) : async X unit :=
  update (with_participantsRef v).

(** [alert(text)] *)
Definition alert (text : jsstring) : async X unit :=
  update (fun st => with_effects (effects st ++ [Alert text]) st).

(** [console.error(label, err)] *)
Definition console_error (label : jsstring) (e : error) : async X unit :=
  update (fun st => with_effects (effects st ++ [ConsoleError label e]) st).

Definition log_call (c : feed_call) (fd : feed) : feed :=
  {| calls := calls fd ++ [c]; listeners := listeners fd;
     next_handle := next_handle fd; faulty := faulty fd |}.

Definition settle (o : outcome) : async X unit :=
  match o with
  | Succeeds => mret tt
  | Fails e => throw e
  end.

(** [ref(db, path)]: the reference to the location, which the model
    identifies with its path, or a throw when the path is refused. *)
Definition fb_ref (path : jsstring) : async X jsstring :=
  fun st =>
    if isValidPathString path then (Fulfilled path, st)
    else (Rejected (invalid_path path), st).

(** [await set(r, v)] for a reference [r]: the call is issued, then the
    promise settles as the environment decides. *)
Definition fb_set (path : jsstring) (v : payload) (o : outcome)
  : async X unit :=
  update (fun st => with_db (log_call (CallSet path v) (db st)) st) ;;
  settle o.

(** [await remove(r)] *)
Definition fb_remove (path : jsstring) (o : outcome) : async X unit :=
  update (fun st => with_db (log_call (CallRemove path) (db st)) st) ;;
  settle o.

(** [onDisconnect(ref).remove()], not awaited: only a synchronous throw
    reaches the enclosing [try]; when it throws nothing was issued. *)
Definition fb_onDisconnect_remove (path : jsstring) (o : outcome)
  : async X unit :=
  match o with
  | Succeeds =>
      update (fun st =>
        with_db (log_call (CallOnDisconnectRemove path) (db st)) st)
  | Fails e => throw e
  end.

(** [push(r)]: a new child location under a key generated on the client;
    the result is the child's path. *)
Definition fb_push (path generated : jsstring) : async X jsstring :=
  update (fun st =>
    with_db (log_call (CallPush path generated) (db st)) st) ;;
  mret (path ++ lit "/" ++ generated).

Definition add_listener (l : listener) (fd : feed) : feed :=
  {| calls := calls fd; listeners := listeners fd ++ [l];
     next_handle := S (next_handle fd); faulty := faulty fd |}.

Definition subscribe (path : jsstring) (ev : event) (lim : option nat)
    (once : bool) (cb : callback) : async X unsub_value :=
  fun st =>
    let h := next_handle (db st) in
    (Fulfilled (UnsubFn h),
     with_db (add_listener
                {| l_handle := h; l_path := path; l_event := ev;
                   l_limitToLast := lim; l_onlyOnce := once;
                   l_callback := cb |} (db st)) st).

(** [onValue(ref, cb)] and [onValue(ref, cb, { onlyOnce: true })] *)
Definition fb_onValue (path : jsstring) (cb : callback) (once : bool)
  : async X unsub_value :=
  subscribe path ValueEvent None once cb.

(** [onChildAdded(query(ref, limitToLast(n)), cb)] *)
Definition fb_onChildAdded (path : jsstring) (n : nat) (cb : callback)
  : async X unsub_value :=
  subscribe path ChildAddedEvent (Some n) false cb.

Definition remove_listener (h : nat) (fd : feed) : feed :=
  {| calls := calls fd;
     listeners := filter (fun l => l_handle l ≠ h) (listeners fd);
     next_handle := next_handle fd; faulty := faulty fd |}.

(** Calling the unsubscribe function with handle [h]: the listener is
    detached (nothing happens when it already is), unless the function is
    faulty, in which case it throws and detaches nothing. *)
Definition fb_unsubscribe (h : nat) : async X unit :=
  fun st =>
    if bool_decide (h ∈ faulty (db st))
    then (Rejected (lit "unsubscribe failed"), st)
    else (Fulfilled tt, with_db (remove_listener h (db st)) st).

(** [unsub && typeof unsub === "function" && unsub()] *)
Definition call_unsub (u : unsub_value) : async X unit :=
  match u with
  | UnsubFn h => fb_unsubscribe h
  | UnsubUndefined => mret tt
  end.

(** ** Delivery of notifications by the client *)

Definition listens (path : jsstring) (ev : event) (cb : callback)
    (l : listener) : bool :=
  bool_decide (l_path l = path) && bool_decide (l_event l = ev)
  && bool_decide (l_callback l = cb).

(** A child-added event for the location [path]: every listener registered
    there for the event runs the messages callback, that is, calls
    [setMessages] with the function [messageAdded snap]. *)
Definition deliverChildAdded (path : jsstring)
    (snap : snapshot message_value) (st : state X) : state X :=
  fold_left
    (fun acc l =>
       if listens path ChildAddedEvent MessagesCallback l
       then with_messages (messageAdded snap (messages acc)) acc
       else acc)
    (listeners (db st)) st.

(** A value event for the location [path] carrying the participants
    collection: every listener registered there for the event runs the
    participants callback. *)
Definition deliverParticipants (path : jsstring)
    (snap : snapshot (gmap jsstring participant)) (st : state X) : state X :=
  fold_left
    (fun acc l =>
       if listens path ValueEvent ParticipantsCallback l
       then with_participants (participantsValue snap) acc
       else acc)
    (listeners (db st)) st.
End Steps.

(** The paths of the schema, as the template literals build them. *)
Definition room_path (id : jsstring) : jsstring := lit "rooms/" ++ id.
Definition messages_path (id : jsstring) : jsstring :=
  lit "rooms/" ++ id ++ lit "/messages".
Definition participants_path (id : jsstring) : jsstring :=
  lit "rooms/" ++ id ++ lit "/participants".
Definition participant_path (id uid : jsstring) : jsstring :=
  lit "rooms/" ++ id ++ lit "/participants/" ++ uid.

(** [userIdRef.current], [roomRef.current], [messagesRef.current] and
    [participantsRef.current] *)
Definition get_userId {X} : async X jsstring :=
  fun st => (Fulfilled (userIdRef st), st).
Definition get_roomRef {X} : async X (option jsstring) :=
  fun st => (Fulfilled (roomRef st), st).
Definition get_messagesRef {X} : async X (option jsstring) :=
  fun st => (Fulfilled (messagesRef st), st).
Definition get_participantsRef {X} : async X (option jsstring) :=
  fun st => (Fulfilled (participantsRef st), st).

(** An SDK function applied to the content of a ref cell: on [null] it
    throws. *)
Definition on_ref {X A} (ref : option jsstring) (f : jsstring → async X A)
  : async X A :=
  match ref with
  | Some path => f path
  | None => throw (lit "TypeError")
  end.

(** The three subscriptions of a join to room [id], with handles from [h]:
    participants, the last 200 messages and after, and the one-shot
    existence check of the room. *)
Definition room_listeners (id : jsstring) (h : nat) : list listener :=
  [ {| l_handle := h; l_path := participants_path id; l_event := ValueEvent;
       l_limitToLast := None; l_onlyOnce := false;
       l_callback := ParticipantsCallback |};
    {| l_handle := S h; l_path := messages_path id;
       l_event := ChildAddedEvent; l_limitToLast := Some 200;
       l_onlyOnce := false; l_callback := MessagesCallback |};
    {| l_handle := S (S h); l_path := room_path id; l_event := ValueEvent;
       l_limitToLast := None; l_onlyOnce := true;
       l_callback := EnsureRoomCallback |} ].

(** ** String and array built-ins the avatar initials use *)

(** [s.split(sep)] for a separator of one code unit: the pieces between
    the occurrences of [sep], empty pieces included; the empty string
    gives one empty piece. *)
Fixpoint js_split (sep : N) (s : jsstring) : list jsstring :=
  match s with
  | [] => [[]]
  | c :: s' =>
      if (c =? sep)%N then [] :: js_split sep s'
      else match js_split sep s' with
           | piece :: pieces => (c :: piece) :: pieces
           | [] => [[c]]
           end
  end.

(** [p[0]] for a string [p]: its first code unit, [undefined] when [p] is
    empty. *)
Definition first_unit (p : jsstring) : option N := head p.

(** [xs.join("")] for an array of one-unit strings and [undefined]s: an
    [undefined] element contributes nothing. *)
Definition join_units (xs : list (option N)) : jsstring :=
  omap (fun x => x) xs.

(** ** The stored identity

    [localStorage] as a map from keys to strings. *)

(** [localStorage.getItem("chat_user_id") || uuidv4()], the initial value of
    [userIdRef] (App.jsx 25, part_000 28, part_001 26); [uuid] is what
    [uuidv4()] gives. *)
Definition initialUserId (storage : gmap jsstring jsstring) (uuid : jsstring)
  : jsstring :=
  match storage !! lit "chat_user_id" with
  | Some stored => if is_empty stored then uuid else stored
  | None => uuid
  end.

(** The effect run once after mount (App.jsx 32-34):
    [localStorage.setItem("chat_user_id", userIdRef.current)]. *)
Definition persistUserId (uid : jsstring) (storage : gmap jsstring jsstring)
  : gmap jsstring jsstring :=
  <[lit "chat_user_id" := uid]> storage.

(** Mounting the component over a storage: the user id it works with, and
    the storage after the effect. *)
Definition mountIdentity (storage : gmap jsstring jsstring) (uuid : jsstring)
  : jsstring * gmap jsstring jsstring :=
  let uid := initialUserId storage uuid in
  (uid, persistUserId uid storage).

(** ** The controls of the page

    The [disabled] attributes of the four buttons, the same in the three
    variants (App.jsx 168, 176, 177, 210). *)
Definition createDisabled (r : render) : bool := r_inRoom r.
Definition joinDisabled (r : render) : bool :=
  r_inRoom r || is_empty (r_roomId r).
Definition leaveDisabled (r : render) : bool := negb (r_inRoom r).
Definition sendDisabled (r : render) : bool :=
  negb (r_inRoom r) || is_empty (trim (r_localText r)).

(** [const mine = m.fromId === userIdRef.current] of the message list. *)
Definition mine {X} (st : state X) (m : message) : bool :=
  str_eqb (msg_fromId m) (userIdRef st).

(** ** src/src/App.jsx *)

Module App.

(** [joinRoom(id)], lines 55-109.  [r] is the render the function closes
    over, [now] is [Date.now()], [presence] is how the awaited presence
    write settles and [disconnect] whether [onDisconnect(pRef).remove()]
    throws. *)
Definition joinRoom (r : render) (id : jsstring) (now : Z)
    (presence disconnect : outcome) : async unit unit :=
  if is_empty id then alert (lit "Enter room id")
  else
    setRoomId id ;;
    setInRoom true ;;
    room ← fb_ref (room_path id) ;
    set_roomRef (Some room) ;;
    msgs ← fb_ref (messages_path id) ;
    set_messagesRef (Some msgs) ;;
    parts ← fb_ref (participants_path id) ;
    set_participantsRef (Some parts) ;;
    uid ← get_userId ;
    pRef ← fb_ref (participant_path id uid) ;
    fb_set pRef
      (ParticipantValue {| p_id := uid; p_name := r_name r;
                           p_joinedAt := now |}) presence ;;
    try_catch (fb_onDisconnect_remove pRef disconnect) ;;
    participantsRef ← get_participantsRef ;
    _ ← on_ref participantsRef
          (fun path => fb_onValue path ParticipantsCallback false) ;
    messagesRef ← get_messagesRef ;
    _ ← on_ref messagesRef
          (fun path => fb_onChildAdded path 200 MessagesCallback) ;
    roomRef ← get_roomRef ;
    _ ← on_ref roomRef
          (fun path => fb_onValue path EnsureRoomCallback true) ;
    mret tt.

(** [leaveRoom()], lines 112-126.  [removal] is how the awaited removal of
    the presence record settles.  The [try] encloses the [ref] too. *)
Definition leaveRoom (r : render) (removal : outcome) : async unit unit :=
  if negb (r_inRoom r) || is_empty (r_roomId r) then mret tt
  else
    uid ← get_userId ;
    try_catch
      (pRef ← fb_ref (participant_path (r_roomId r) uid) ;
       fb_remove pRef removal) ;;
    setInRoom false ;;
    setMessages [] ;;
    setParticipants ∅ ;;
    set_roomRef None ;;
    set_messagesRef None ;;
    set_participantsRef None ;;
    setRoomId [].

(** [sendMessage()], lines 129-141.  [generated] is the key [push]
    generates and [write] how the awaited [set] settles. *)
Definition sendMessage (r : render) (generated : jsstring) (now : Z)
    (write : outcome) : async unit unit :=
  if negb (r_inRoom r) || is_empty (trim (r_localText r)) then mret tt
  else
    uid ← get_userId ;
    parent ← fb_ref (messages_path (r_roomId r)) ;
    mRef ← fb_push parent generated ;
    fb_set mRef
      (MessageValue {| v_fromId := uid; v_fromName := r_name r;
                       v_text := trim (r_localText r); v_at := now |})
      write ;;
    setLocalText [].

(** [createRoom()], lines 46-52.  [id] is what
    [Math.random().toString(36).slice(2, 9)] gives, [now] and [joined] are
    the two readings of the clock, [creation] is how the awaited write of
    the room record settles.  The generated id is made of digits and
    lower-case letters only, which [ref] accepts: the [ref] of the room
    record cannot throw.  The call of [joinRoom] is not awaited. *)
Definition createRoom (r : render) (id : jsstring) (now joined : Z)
    (creation presence disconnect : outcome) : async unit unit :=
  setRoomId id ;;
  fb_set (room_path id) (RoomValue {| createdAt := now |}) creation ;;
  detached (joinRoom r id joined presence disconnect).

(** What can happen to the component between two renders: one of its
    functions runs (from any render's closure, with any outcome of the
    calls it awaits), the client delivers a notification, or the user
    edits one of the three inputs ([onChange]). *)
Inductive step : state unit → state unit → Prop :=
  | step_createRoom r id now joined creation presence disconnect st :
      step st
        (final (createRoom r id now joined creation presence disconnect st))
  | step_joinRoom r id now presence disconnect st :
      step st (final (joinRoom r id now presence disconnect st))
  | step_leaveRoom r removal st :
      step st (final (leaveRoom r removal st))
  | step_sendMessage r generated now write st :
      step st (final (sendMessage r generated now write st))
  | step_childAdded path snap st :
      step st (deliverChildAdded path snap st)
  | step_participants path snap st :
      step st (deliverParticipants path snap st)
  | step_input_roomId v st : step st (with_roomId v st)
  | step_input_localText v st : step st (with_localText v st)
  | step_input_name v st : step st (with_name v st).

Inductive reachable : state unit → Prop :=
  | reachable_mount uid nm : reachable (mount uid nm tt)
  | reachable_step st st' : reachable st → step st st' → reachable st'.

End App.

(** ** src/unnamed/part_000 *)

Module Part000.

(** [cleanupRef.current] is the [extra] component of the state. *)

(** [pushCleanup(fn)], lines 48-50. *)
Definition pushCleanup (fn : cleanup_entry)
  : async (list cleanup_entry) unit :=
  update (fun st => with_extra (extra st ++ [fn]) st).

(** The body of the [forEach] of [runCleanup]:
    [try { if (typeof fn === "function") fn(); } catch {}]. *)
Definition run_entry (fn : cleanup_entry)
  : async (list cleanup_entry) unit :=
  try_catch
    match fn with
    | Closure u => call_unsub u
    | NotAFunction => mret tt
    end.

(** [runCleanup()], lines 51-58. *)
Definition runCleanup : async (list cleanup_entry) unit :=
  fun st =>
    (forEach run_entry (extra st) ;;
     update (with_extra [])) st.

(** [leaveRoom()], lines 141-160. *)
Definition leaveRoom (r : render) (removal : outcome)
  : async (list cleanup_entry) unit :=
  if negb (r_inRoom r) || is_empty (r_roomId r) then mret tt
  else
    uid ← get_userId ;
    try_catch
      (pRef ← fb_ref (participant_path (r_roomId r) uid) ;
       fb_remove pRef removal) ;;
    runCleanup ;;
    setInRoom false ;;
    setMessages [] ;;
    setParticipants ∅ ;;
    set_roomRef None ;;
    set_messagesRef None ;;
    set_participantsRef None ;;
    setRoomId [].

(** [joinRoom(id)], lines 69-138.  [removal] settles the presence removal
    of the [leaveRoom] it awaits when the closed-over [inRoom] is true. *)
Definition joinRoom (r : render) (id : jsstring) (now : Z)
    (removal presence disconnect : outcome)
  : async (list cleanup_entry) unit :=
  if is_empty id then alert (lit "Enter room id")
  else
    (if r_inRoom r then leaveRoom r removal else mret tt) ;;
    setRoomId id ;;
    setInRoom true ;;
    room ← fb_ref (room_path id) ;
    set_roomRef (Some room) ;;
    msgs ← fb_ref (messages_path id) ;
    set_messagesRef (Some msgs) ;;
    parts ← fb_ref (participants_path id) ;
    set_participantsRef (Some parts) ;;
    uid ← get_userId ;
    pRef ← fb_ref (participant_path id uid) ;
    fb_set pRef
      (ParticipantValue {| p_id := uid; p_name := r_name r;
                           p_joinedAt := now |}) presence ;;
    try_catch (fb_onDisconnect_remove pRef disconnect) ;;
    participantsRef ← get_participantsRef ;
    unsubParticipants ←
      on_ref participantsRef
        (fun path => fb_onValue path ParticipantsCallback false) ;
    pushCleanup (Closure unsubParticipants) ;;
    messagesRef ← get_messagesRef ;
    unsubMessages ←
      on_ref messagesRef
        (fun path => fb_onChildAdded path 200 MessagesCallback) ;
    pushCleanup (Closure unsubMessages) ;;
    roomRef ← get_roomRef ;
    unsubRoom ←
      on_ref roomRef (fun path => fb_onValue path EnsureRoomCallback true) ;
    pushCleanup (Closure unsubRoom).

(** [sendMessage()], lines 163-182.  The [push(ref(...))] of line 170
    stands before the [try]. *)
Definition sendMessage (r : render) (generated : jsstring) (now : Z)
    (write : outcome) : async (list cleanup_entry) unit :=
  if negb (r_inRoom r) then alert (lit "Join a room to send messages.")
  else if is_empty (trim (r_localText r)) then mret tt
  else
    uid ← get_userId ;
    parent ← fb_ref (messages_path (r_roomId r)) ;
    mRef ← fb_push parent generated ;
    try_catch_with
      (fb_set mRef
         (MessageValue {| v_fromId := uid; v_fromName := r_name r;
                          v_text := trim (r_localText r); v_at := now |})
         write ;;
       setLocalText [])
      (console_error (lit "sendMessage error:")).

(** [createRoom()], lines 61-66; as in App.jsx, the generated id is one
    [ref] accepts. *)
Definition createRoom (r : render) (id : jsstring) (now joined : Z)
    (creation removal presence disconnect : outcome)
  : async (list cleanup_entry) unit :=
  setRoomId id ;;
  fb_set (room_path id) (RoomValue {| createdAt := now |}) creation ;;
  detached (joinRoom r id joined removal presence disconnect).

Section Initials.
Variable toUpperCase : jsstring → jsstring.

(** [initialsFor(n)], lines 194-203; [toUpperCase] is
    [String.prototype.toUpperCase]. *)
Definition initialsFor (n : jsstring) : jsstring :=
  if is_empty n then lit "?"
  else toUpperCase
         (join_units (take 2 (first_unit <$> js_split 32 (trim n)))).
End Initials.

Inductive step
  : state (list cleanup_entry) → state (list cleanup_entry) → Prop :=
  | step_createRoom r id now joined creation removal presence disconnect st :
      step st
        (final (createRoom r id now joined creation removal presence
                  disconnect st))
  | step_joinRoom r id now removal presence disconnect st :
      step st (final (joinRoom r id now removal presence disconnect st))
  | step_leaveRoom r removal st :
      step st (final (leaveRoom r removal st))
  | step_sendMessage r generated now write st :
      step st (final (sendMessage r generated now write st))
  | step_childAdded path snap st :
      step st (deliverChildAdded path snap st)
  | step_participants path snap st :
      step st (deliverParticipants path snap st)
  | step_input_roomId v st : step st (with_roomId v st)
  | step_input_localText v st : step st (with_localText v st)
  | step_input_name v st : step st (with_name v st).

Inductive reachable : state (list cleanup_entry) → Prop :=
  | reachable_mount uid nm : reachable (mount uid nm [])
  | reachable_step st st' : reachable st → step st st' → reachable st'.

(** Every active listener has its unsubscribe closure in [cleanupRef]. *)
Definition all_registered (st : state (list cleanup_entry)) : Prop :=
  ∀ l, l ∈ listeners (db st) → Closure (UnsubFn (l_handle l)) ∈ extra st.

End Part000.

(** ** src/unnamed/part_001 *)

Module Part001.

(** The closure [cleanup] of [joinRoom] (lines 117-127), over the three
    values the subscriptions returned. *)
Record cleanup_closure := Cleanup {
  c_participants : unsub_value;
  c_messages : unsub_value;
  c_room : unsub_value
}.

(** The [extra] component of the state is the [_cleanup] property of the
    object held in [roomRef.current]: [None] when that object has no such
    property or the cell holds [null]. *)

(** [roomRef.current = v]: the cell gets another content, which has no
    [_cleanup] property of its own. *)
Definition assign_roomRef (v : option jsstring)
  : async (option cleanup_closure) unit :=
  update (fun st => with_extra None (with_roomRef v st)).

(** [roomRef.current._cleanup = cleanup], line 130. *)
Definition store_cleanup (c : cleanup_closure)
  : async (option cleanup_closure) unit :=
  fun st =>
    match roomRef st with
    | Some _ => (Fulfilled tt, with_extra (Some c) st)
    | None => (Rejected (lit "TypeError"), st)
    end.

(** Calling the closure: three guarded calls, each in its own [try]. *)
Definition run_cleanup (c : cleanup_closure)
  : async (option cleanup_closure) unit :=
  try_catch (call_unsub (c_participants c)) ;;
  try_catch (call_unsub (c_messages c)) ;;
  try_catch (call_unsub (c_room c)).

(** [joinRoom(id)], lines 54-131. *)
Definition joinRoom (r : render) (id : jsstring) (now : Z)
    (presence disconnect : outcome) : async (option cleanup_closure) unit :=
  if is_empty id then alert (lit "Enter room id")
  else
    setRoomId id ;;
    setInRoom true ;;
    room ← fb_ref (room_path id) ;
    assign_roomRef (Some room) ;;
    msgs ← fb_ref (messages_path id) ;
    set_messagesRef (Some msgs) ;;
    parts ← fb_ref (participants_path id) ;
    set_participantsRef (Some parts) ;;
    uid ← get_userId ;
    pRef ← fb_ref (participant_path id uid) ;
    fb_set pRef
      (ParticipantValue {| p_id := uid; p_name := r_name r;
                           p_joinedAt := now |}) presence ;;
    try_catch (fb_onDisconnect_remove pRef disconnect) ;;
    participantsRef ← get_participantsRef ;
    unsubParticipants ←
      on_ref participantsRef
        (fun path => fb_onValue path ParticipantsCallback false) ;
    messagesRef ← get_messagesRef ;
    unsubMessages ←
      on_ref messagesRef
        (fun path => fb_onChildAdded path 200 MessagesCallback) ;
    roomRef ← get_roomRef ;
    unsubRoom ←
      on_ref roomRef (fun path => fb_onValue path EnsureRoomCallback true) ;
    store_cleanup (Cleanup unsubParticipants unsubMessages unsubRoom).

(** [roomRef.current && roomRef.current._cleanup
     && roomRef.current._cleanup()], line 143. *)
Definition call_stored_cleanup : async (option cleanup_closure) unit :=
  fun st =>
    match roomRef st, extra st with
    | Some _, Some c => run_cleanup c st
    | _, _ => (Fulfilled tt, st)
    end.

(** [leaveRoom()], lines 134-153. *)
Definition leaveRoom (r : render) (removal : outcome)
  : async (option cleanup_closure) unit :=
  if negb (r_inRoom r) || is_empty (r_roomId r) then mret tt
  else
    uid ← get_userId ;
    try_catch
      (pRef ← fb_ref (participant_path (r_roomId r) uid) ;
       fb_remove pRef removal) ;;
    try_catch call_stored_cleanup ;;
    setInRoom false ;;
    setMessages [] ;;
    setParticipants ∅ ;;
    assign_roomRef None ;;
    set_messagesRef None ;;
    set_participantsRef None ;;
    setRoomId [].

(** [sendMessage()], lines 156-168. *)
Definition sendMessage (r : render) (generated : jsstring) (now : Z)
    (write : outcome) : async (option cleanup_closure) unit :=
  if negb (r_inRoom r) || is_empty (trim (r_localText r)) then mret tt
  else
    uid ← get_userId ;
    parent ← fb_ref (messages_path (r_roomId r)) ;
    mRef ← fb_push parent generated ;
    fb_set mRef
      (MessageValue {| v_fromId := uid; v_fromName := r_name r;
                       v_text := trim (r_localText r); v_at := now |})
      write ;;
    setLocalText [].

(** [createRoom()], lines 45-51; as in App.jsx, the generated id is one
    [ref] accepts. *)
Definition createRoom (r : render) (id : jsstring) (now joined : Z)
    (creation presence disconnect : outcome)
  : async (option cleanup_closure) unit :=
  setRoomId id ;;
  fb_set (room_path id) (RoomValue {| createdAt := now |}) creation ;;
  detached (joinRoom r id joined presence disconnect).

Section Initials.
Variable toUpperCase : jsstring → jsstring.

(** [initialsFor(n)], lines 176-184: as in part_000, without the [trim]. *)
Definition initialsFor (n : jsstring) : jsstring :=
  if is_empty n then lit "?"
  else toUpperCase (join_units (take 2 (first_unit <$> js_split 32 n))).
End Initials.

(** What the page lets happen, each function run to its settlement before
    the next event: the buttons act only when enabled, from the closures of
    the current render; the Enter key of the text input, which is disabled
    outside a room, calls [sendMessage]; notifications arrive; the inputs
    are edited. *)
Inductive page_step
  : state (option cleanup_closure) → state (option cleanup_closure) → Prop :=
  | page_create id now joined creation presence disconnect st :
      createDisabled (current st) = false →
      page_step st
        (final (createRoom (current st) id now joined creation presence
                  disconnect st))
  | page_join now presence disconnect st :
      joinDisabled (current st) = false →
      page_step st
        (final (joinRoom (current st) (roomId st) now presence disconnect st))
  | page_leave removal st :
      leaveDisabled (current st) = false →
      page_step st (final (leaveRoom (current st) removal st))
  | page_send generated now write st :
      inRoom st = true →
      page_step st (final (sendMessage (current st) generated now write st))
  | page_childAdded path snap st :
      page_step st (deliverChildAdded path snap st)
  | page_participants path snap st :
      page_step st (deliverParticipants path snap st)
  | page_input_roomId v st : page_step st (with_roomId v st)
  | page_input_localText v st :
      inRoom st = true → page_step st (with_localText v st)
  | page_input_name v st : page_step st (with_name v st).

Inductive page_reachable : state (option cleanup_closure) → Prop :=
  | page_mount uid nm : page_reachable (mount uid nm None)
  | page_next st st' :
      page_reachable st → page_step st st' → page_reachable st'.

(** Every active listener is one of the three the stored closure closes,
    and an idle session has none. *)
Definition covered (st : state (option cleanup_closure)) : Prop :=
  (inRoom st = false → listeners (db st) = [])
  ∧ (∀ l, l ∈ listeners (db st) →
       ∃ c, extra st = Some c ∧ is_Some (roomRef st)
            ∧ UnsubFn (l_handle l)
              ∈ [c_participants c; c_messages c; c_room c])
  ∧ faulty (db st) = [].

End Part001.

(** ** Vocabulary of the properties *)

(** The ids of a [messages] sequence, in order. *)
Definition ids (ms : list message) : list jsstring := msg_id <$> ms.

(** How many entries of [ms] carry the id [k]. *)
Definition occurrences (k : jsstring) (ms : list message) : nat :=
  length (filter (fun m => msg_id m = k) ms).

(** The entries a run of notifications carries: one per notification with
    a value, in delivery order. *)
Definition entries (snaps : list (snapshot message_value)) : list message :=
  omap (fun snap => message_of (key snap) <$> val snap) snaps.

(** [ms] is in ascending order of id. *)
Definition sorted_by_id (ms : list message) : Prop :=
  StronglySorted key_lt (ids ms).

(** The notifications arrive in increasing order of generated key. *)
Definition increasing_keys (snaps : list (snapshot message_value)) : Prop :=
  Sorted key_lt (key <$> snaps).

(** [n] notifications whose keys are the one-character strings U+0100,
    U+0101, ... in this order, all carrying the same value. *)
Definition burst (n : nat) : list (snapshot message_value) :=
  (fun i : nat =>
     Snapshot [(256 + N.of_nat i)%N]
       (Some {| v_fromId := lit "u1"; v_fromName := lit "ann";
                v_text := lit "hi"; v_at := 0 |})) <$> seq 0 n.

(** The cleanup entries [es] close the listener with handle [h]: its
    unsubscribe closure is among them and does not throw. *)
Definition closes (es : list cleanup_entry) (fd : feed) (h : nat) : Prop :=
  Closure (UnsubFn h) ∈ es ∧ h ∉ faulty fd.

(** The client once the closures of [es] have run. *)
Definition detach (es : list cleanup_entry) (fd : feed) : feed :=
  {| calls := calls fd;
     listeners := filter (fun l => ¬ closes es fd (l_handle l)) (listeners fd);
     next_handle := next_handle fd;
     faulty := faulty fd |}.

(** The listeners of [fd] on one of the three locations [joinRoom]
    subscribes to for the room [id]. *)
Definition listeners_of_room (id : jsstring) (fd : feed) : list listener :=
  filter (fun l => l_path l ∈ [participants_path id; messages_path id;
                               room_path id])
    (listeners fd).

(** A subscription for the participants of some room is active at [path]. *)
Definition participants_subscribed {X} (path : jsstring) (st : state X) : Prop :=
  ∃ l, l ∈ listeners (db st)
       ∧ listens path ValueEvent ParticipantsCallback l = true.

(** The client once the unsubscribe value [u] has been called through its
    guard, when it does not throw. *)
Definition unsub_detach (u : unsub_value) (fd : feed) : feed :=
  match u with
  | UnsubFn h => remove_listener h fd
  | UnsubUndefined => fd
  end.

(** The client once the stored closure of part_001 has run. *)
Definition closure_detach (c : Part001.cleanup_closure) (fd : feed) : feed :=
  unsub_detach (Part001.c_room c)
    (unsub_detach (Part001.c_messages c)
       (unsub_detach (Part001.c_participants c) fd)).


(** The ref cells go together and are assigned only while the joined flag
    is set: all three hold [null], or they hold the three locations of one
    room, which [ref] accepted, and [inRoom] is true. *)
Definition refs_consistent {X} (st : state X) : Prop :=
  (roomRef st = None ∧ messagesRef st = None ∧ participantsRef st = None)
  ∨ (inRoom st = true
     ∧ ∃ id, id ≠ [] ∧ isValidPathString (room_path id) = true
             ∧ roomRef st = Some (room_path id)
             ∧ messagesRef st = Some (messages_path id)
             ∧ participantsRef st = Some (participants_path id)).

(** A subscription for added messages is active at [path]. *)
Definition messages_subscribed {X} (path : jsstring) (st : state X) : Prop :=
  ∃ l, l ∈ listeners (db st)
       ∧ listens path ChildAddedEvent MessagesCallback l = true.

(** [toUpperCase] on the strings whose letters are ASCII: [a]..[z] move to
    [A]..[Z], everything else stays. *)
Definition ascii_toUpperCase (s : jsstring) : jsstring :=
  (fun c : N => if ((97 <=? c) && (c <=? 122))%N then (c - 32)%N else c) <$> s.

(** ** Sample states *)

(** A freshly mounted component, and the same after a successful
    [joinRoom("r1")] from the page, in both variants. *)
Definition sample_mount : state unit := mount (lit "u1") (lit "ann") tt.

Definition sample_joined : state unit :=
  final (App.joinRoom (current sample_mount) (lit "r1") 1000
           Succeeds Succeeds sample_mount).

Definition sample_mount000 : state (list cleanup_entry) :=
  mount (lit "u1") (lit "ann") [].

Definition sample_joined000 : state (list cleanup_entry) :=
  final (Part000.joinRoom (current sample_mount000) (lit "r1") 1000
           Succeeds Succeeds Succeeds sample_mount000).

(** The joined part_000 component over a client in which the unsubscribe
    function of the messages subscription (handle 1) throws. *)
Definition sample_faulty000 : state (list cleanup_entry) :=
  with_db
    {| calls := calls (db sample_joined000);
       listeners := listeners (db sample_joined000);
       next_handle := next_handle (db sample_joined000);
       faulty := [1] |}
    sample_joined000.

Definition sample_mount001 : state (option Part001.cleanup_closure) :=
  mount (lit "u1") (lit "ann") None.

Definition sample_joined001 : state (option Part001.cleanup_closure) :=
  final (Part001.joinRoom (current sample_mount001) (lit "r1") 1000
           Succeeds Succeeds sample_mount001).

Definition sample_value : message_value :=
  {| v_fromId := lit "u2"; v_fromName := lit "bob"; v_text := lit "hello";
     v_at := 1001 |}.

Definition sample_ann : participant :=
  {| p_id := lit "u1"; p_name := lit "ann"; p_joinedAt := 1000 |}.

Definition sample_bob : participant :=
  {| p_id := lit "u2"; p_name := lit "bob"; p_joinedAt := 1001 |}.

(** Three snapshots of [rooms/r1/participants]: both users, then only the
    first, then nothing stored. *)
Definition sample_first : snapshot (gmap jsstring participant) :=
  Snapshot (lit "participants")
    (Some (<[lit "u1" := sample_ann]> {[ lit "u2" := sample_bob ]})).

Definition sample_second : snapshot (gmap jsstring participant) :=
  Snapshot (lit "participants") (Some {[ lit "u1" := sample_ann ]}).

Definition sample_null : snapshot (gmap jsstring participant) :=
  Snapshot (lit "participants") None.

(** ** Tactics for the runs of the functions *)

(** Runs the steps of an [async] function on the state at hand. *)
Ltac async_run :=
  cbv beta iota zeta delta
    [mbind mret async_mbind async_mret async_bind async_ret throw update
     try_catch try_catch_with settle detached final settles fst snd
     setRoomId setInRoom setLocalText setParticipants setMessages
     set_roomRef set_messagesRef set_participantsRef alert console_error
     fb_ref fb_set fb_remove fb_onDisconnect_remove fb_push subscribe
     fb_onValue fb_onChildAdded get_userId get_roomRef get_messagesRef
     get_participantsRef on_ref Part000.pushCleanup Part001.assign_roomRef
     Part001.store_cleanup];
  cbn [negb orb andb is_empty roomId inRoom messages participants localText
       name userIdRef roomRef messagesRef participantsRef effects db extra
       with_roomId with_inRoom with_messages with_participants with_localText
       with_name with_roomRef with_messagesRef with_participantsRef
       with_effects with_db with_extra
       calls listeners next_handle faulty log_call add_listener].

(** Goes on with what is known of the paths [ref] is given, or splits on
    it. *)
Ltac refs_known :=
  repeat match goal with
  | H : isValidPathString ?p = _ |- context [isValidPathString ?p] =>
      rewrite H; async_run
  end.

Ltac refs_split :=
  repeat match goal with
  | |- context [isValidPathString ?p] =>
      destruct (isValidPathString p) eqn:?; async_run
  end.

(** * Properties *)

(** ** MessageStream: the [onChildAdded] handler *)

Section MessageStream.
Implicit Types (snap : snapshot message_value) (prev : list message).
Implicit Types (k : jsstring).

Lemma some_id_spec k prev :
  existsb (fun m => str_eqb (msg_id m) k) prev = true ↔ k ∈ ids prev.
Proof.
  unfold ids, str_eqb. induction prev as [|m prev IH]; simpl.
  - split; [discriminate | intros H; inversion H].
  - rewrite orb_true_iff, IH, bool_decide_eq_true, elem_of_cons.
    split; intros [H|H]; auto.
Qed.

Lemma messageAdded_null snap prev :
  val snap = None → messageAdded snap prev = prev.
Proof. intros H. unfold messageAdded. by rewrite H. Qed.

Lemma messageAdded_present snap prev :
  key snap ∈ ids prev → messageAdded snap prev = prev.
Proof.
  intros H. unfold messageAdded. destruct (val snap) as [v|]; [|done].
  simpl. apply some_id_spec in H. by rewrite H.
Qed.

Lemma messageAdded_fresh snap v prev :
  val snap = Some v → key snap ∉ ids prev →
  messageAdded snap prev = prev ++ [message_of (key snap) v].
Proof.
  intros Hv H. unfold messageAdded. rewrite Hv. simpl.
  destruct (existsb _ prev) eqn:E; [|done].
  apply some_id_spec in E. contradiction.
Qed.

(** The three cases of a notification. *)
Lemma messageAdded_cases snap prev :
  messageAdded snap prev = prev
  ∨ (∃ v, val snap = Some v ∧ (key snap ∉ ids prev)
          ∧ messageAdded snap prev = prev ++ [message_of (key snap) v]).
Proof.
  destruct (val snap) as [v|] eqn:Hv.
  - destruct (decide (key snap ∈ ids prev)) as [Hin|Hout].
    + left. by apply messageAdded_present.
    + right. exists v. eauto using messageAdded_fresh.
  - left. by apply messageAdded_null.
Qed.

Lemma messageAdded_twice snap prev :
  messageAdded snap (messageAdded snap prev) = messageAdded snap prev.
Proof.
  destruct (messageAdded_cases snap prev) as [E|(v & Hv & Hout & E)].
  - by rewrite !E.
  - rewrite E. apply messageAdded_present.
    unfold ids. rewrite fmap_app. apply elem_of_app. right.
    simpl. apply list_elem_of_singleton. reflexivity.
Qed.

Lemma messageAdded_prefix snap prev :
  prev `prefix_of` messageAdded snap prev.
Proof.
  destruct (messageAdded_cases snap prev) as [E|(v & _ & _ & E)]; rewrite E.
  - done.
  - by apply prefix_app_r.
Qed.

Lemma messagesAdded_prefix snaps prev :
  prev `prefix_of` messagesAdded snaps prev.
Proof.
  unfold messagesAdded. revert prev.
  induction snaps as [|snap snaps IH]; intros prev; simpl; [done|].
  etrans; [apply (messageAdded_prefix snap)|apply IH].
Qed.

Lemma messageAdded_NoDup snap prev :
  NoDup (ids prev) → NoDup (ids (messageAdded snap prev)).
Proof.
  intros Hnd.
  destruct (messageAdded_cases snap prev) as [E|(v & _ & Hout & E)];
    rewrite E; [done|].
  unfold ids in *. rewrite fmap_app. apply NoDup_app.
  split; [done|]. split.
  - intros x Hx Hx'. simpl in Hx'. apply list_elem_of_singleton in Hx'.
    subst x. contradiction.
  - simpl. apply NoDup_singleton.
Qed.

Lemma messagesAdded_NoDup snaps prev :
  NoDup (ids prev) → NoDup (ids (messagesAdded snaps prev)).
Proof.
  unfold messagesAdded. revert prev.
  induction snaps as [|snap snaps IH]; intros prev Hnd; simpl; [done|].
  by apply IH, messageAdded_NoDup.
Qed.

Lemma occurrences_absent k prev : k ∉ ids prev → occurrences k prev = 0.
Proof.
  unfold occurrences, ids. induction prev as [|m prev IH]; intros H.
  - reflexivity.
  - rewrite fmap_cons, not_elem_of_cons in H. destruct H as [Hne Hout].
    rewrite filter_cons_False by congruence. by apply IH.
Qed.

Lemma occurrences_NoDup k prev :
  NoDup (ids prev) → k ∈ ids prev → occurrences k prev = 1.
Proof.
  unfold occurrences, ids. induction prev as [|m prev IH]; intros Hnd Hin.
  - inversion Hin.
  - rewrite fmap_cons in Hnd, Hin. apply NoDup_cons in Hnd as [Hm Hnd].
    destruct (decide (msg_id m = k)) as [E|Hne].
    + rewrite filter_cons_True by done. subst k. simpl.
      f_equal. by apply (occurrences_absent (msg_id m) prev).
    + rewrite filter_cons_False by done. apply IH; [done|].
      apply elem_of_cons in Hin as [E|Hin]; [congruence|done].
Qed.

Lemma key_added snap v prev :
  val snap = Some v → key snap ∈ ids (messageAdded snap prev).
Proof.
  intros Hv. destruct (decide (key snap ∈ ids prev)) as [Hin|Hout].
  - by rewrite messageAdded_present.
  - rewrite (messageAdded_fresh snap v) by done.
    unfold ids. rewrite fmap_app. apply elem_of_app. right.
    apply list_elem_of_singleton. reflexivity.
Qed.

End MessageStream.

(** ** The order of the generated keys *)

Lemma key_ltb_trans (a b c : jsstring) :
  key_ltb a b = true → key_ltb b c = true → key_ltb a c = true.
Proof.
  revert b c. induction a as [|x a IH]; intros [|y b] [|z c]; simpl;
    try done.
  destruct (N.ltb_spec x y), (N.ltb_spec y x), (N.ltb_spec y z),
    (N.ltb_spec z y), (N.ltb_spec x z), (N.ltb_spec z x);
    try done; try lia.
  apply IH.
Qed.

Lemma key_ltb_irrefl (a : jsstring) : key_ltb a a = false.
Proof.
  induction a as [|x a IH]; simpl; [done|].
  by rewrite N.ltb_irrefl.
Qed.

#[global] Instance key_lt_trans : Transitive key_lt.
Proof. intros a b c. apply key_ltb_trans. Qed.

#[global] Instance key_lt_irrefl : Irreflexive key_lt.
Proof. intros a H. red in H. by rewrite key_ltb_irrefl in H. Qed.

Lemma sorted_keys_NoDup (ks : list jsstring) :
  StronglySorted key_lt ks → NoDup ks.
Proof.
  induction 1 as [|k ks _ IH Hk]; constructor; [|done].
  intros Hin. rewrite Forall_forall in Hk.
  apply (irreflexivity key_lt k). by apply Hk.
Qed.

Section Ordering.
Implicit Types (snap : snapshot message_value) (prev : list message).

Lemma ids_messageAdded snap prev i :
  i ∈ ids (messageAdded snap prev) → i ∈ ids prev ∨ i = key snap.
Proof.
  destruct (messageAdded_cases snap prev) as [E|(v & _ & _ & E)];
    rewrite E; [auto|].
  unfold ids. rewrite fmap_app, elem_of_app. simpl.
  rewrite list_elem_of_singleton. tauto.
Qed.

(** A notification whose key is above every id held keeps the order. *)
Lemma messageAdded_sorted snap prev :
  sorted_by_id prev →
  Forall (fun i => key_lt i (key snap)) (ids prev) →
  sorted_by_id (messageAdded snap prev).
Proof.
  intros Hs Hlt.
  destruct (messageAdded_cases snap prev) as [E|(v & _ & _ & E)];
    rewrite E; [done|].
  unfold sorted_by_id, ids in *. rewrite fmap_app. simpl.
  apply StronglySorted_app. split; [|split; [done|]].
  - intros x1 x2 H1 H2. apply list_elem_of_singleton in H2. subst x2.
    rewrite Forall_forall in Hlt. by apply Hlt.
  - repeat constructor.
Qed.

Lemma messagesAdded_sorted snaps prev :
  StronglySorted key_lt (key <$> snaps) →
  sorted_by_id prev →
  Forall (fun i => Forall (key_lt i) (key <$> snaps)) (ids prev) →
  sorted_by_id (messagesAdded snaps prev).
Proof.
  unfold messagesAdded. revert prev.
  induction snaps as [|snap snaps IH]; intros prev Hk Hs Hlt; simpl;
    [done|].
  rewrite fmap_cons in Hk. apply StronglySorted_cons in Hk as [Hhd Hk].
  apply IH; [done| |].
  - apply messageAdded_sorted; [done|].
    eapply Forall_impl; [exact Hlt|]. simpl. intros i Hi.
    by apply Forall_cons in Hi as [Hi _].
  - apply Forall_forall. intros i Hi.
    apply ids_messageAdded in Hi as [Hi| ->]; [|done].
    rewrite Forall_forall in Hlt. specialize (Hlt i Hi).
    rewrite fmap_cons in Hlt. by apply Forall_cons in Hlt as [_ Hlt].
Qed.

End Ordering.

(** ** MessageStream: runs of notifications *)

Section Runs.
Implicit Types (snaps : list (snapshot message_value)).
Implicit Types (prev : list message).

Lemma messagesAdded_cons snap snaps prev :
  messagesAdded (snap :: snaps) prev
  = messagesAdded snaps (messageAdded snap prev).
Proof. reflexivity. Qed.

(** Notifications with values and pairwise distinct keys, none of them
    held yet, are all appended, in order. *)
Lemma messagesAdded_all_fresh snaps prev :
  NoDup (key <$> snaps) →
  Forall (fun snap => is_Some (val snap)) snaps →
  Forall (fun snap => key snap ∉ ids prev) snaps →
  messagesAdded snaps prev = prev ++ entries snaps.
Proof.
  revert prev. induction snaps as [|snap snaps IH];
    intros prev Hnd Hv Hout.
  - unfold entries. simpl. by rewrite app_nil_r.
  - rewrite fmap_cons in Hnd. apply NoDup_cons in Hnd as [Hhd Hnd].
    apply Forall_cons in Hv as [[v Hv] Hvs].
    apply Forall_cons in Hout as [Hout Houts].
    rewrite messagesAdded_cons, (messageAdded_fresh snap v) by done.
    rewrite IH; [| done | done |].
    + unfold entries. simpl. rewrite Hv. simpl.
      by rewrite <- app_assoc.
    + rewrite Forall_forall in Houts. apply Forall_forall.
      intros s Hs. unfold ids. rewrite fmap_app, elem_of_app.
      intros [H|H]; [by apply (Houts s Hs)|].
      simpl in H. apply list_elem_of_singleton in H.
      apply Hhd. rewrite <- H. apply list_elem_of_fmap. eauto.
Qed.

(** Notifications with pairwise distinct keys, none of them held yet, are
    appended in order, those without a value left out. *)
Lemma messagesAdded_distinct snaps prev :
  NoDup (key <$> snaps) →
  Forall (fun snap => key snap ∉ ids prev) snaps →
  messagesAdded snaps prev = prev ++ entries snaps.
Proof.
  revert prev. induction snaps as [|snap snaps IH]; intros prev Hnd Hout.
  - unfold entries. simpl. by rewrite app_nil_r.
  - rewrite fmap_cons in Hnd. apply NoDup_cons in Hnd as [Hhd Hnd].
    apply Forall_cons in Hout as [Hout Houts].
    rewrite messagesAdded_cons.
    destruct (val snap) as [v|] eqn:Hv.
    + rewrite (messageAdded_fresh snap v) by done.
      rewrite IH; [| done |].
      * unfold entries. simpl. rewrite Hv. simpl.
        by rewrite <- app_assoc.
      * rewrite Forall_forall in Houts. apply Forall_forall.
        intros s Hs. unfold ids. rewrite fmap_app, elem_of_app.
        intros [H|H]; [by apply (Houts s Hs)|].
        simpl in H. apply list_elem_of_singleton in H.
        apply Hhd. rewrite <- H. apply list_elem_of_fmap. eauto.
    + rewrite messageAdded_null by done.
      rewrite IH by done. unfold entries. simpl. by rewrite Hv.
Qed.

Lemma entries_snoc snaps snap v :
  val snap = Some v →
  entries (snaps ++ [snap]) = entries snaps ++ [message_of (key snap) v].
Proof.
  intros Hv. unfold entries. rewrite omap_app. simpl. by rewrite Hv.
Qed.

Lemma length_entries snaps :
  Forall (fun snap => is_Some (val snap)) snaps →
  length (entries snaps) = length snaps.
Proof.
  unfold entries. induction 1 as [|snap snaps [v Hv] _ IH]; simpl; [done|].
  rewrite Hv. simpl. f_equal. exact IH.
Qed.

End Runs.

(** ** Delivery of notifications *)

Lemma fold_left_when {A B} (c : B → bool) (g : A → A) (ls : list B) (acc : A) :
  (∀ a, g (g a) = g a) →
  fold_left (fun a l => if c l then g a else a) ls acc
  = if existsb c ls then g acc else acc.
Proof.
  intros Hg. revert acc. induction ls as [|l ls IH]; intros acc; simpl;
    [done|].
  rewrite IH. destruct (c l); simpl; [|done].
  destruct (existsb c ls); [apply Hg|done].
Qed.

Section Delivery.
Context {X : Type}.
Implicit Type st : state X.

Lemma deliverChildAdded_eq path snap st :
  deliverChildAdded path snap st
  = if existsb (listens path ChildAddedEvent MessagesCallback)
         (listeners (db st))
    then with_messages (messageAdded snap (messages st)) st
    else st.
Proof.
  unfold deliverChildAdded.
  apply (fold_left_when _
           (fun acc => with_messages (messageAdded snap (messages acc)) acc)).
  intros a. unfold with_messages at 1 2. simpl.
  by rewrite messageAdded_twice.
Qed.

Lemma deliverParticipants_eq path snap st :
  deliverParticipants path snap st
  = if existsb (listens path ValueEvent ParticipantsCallback)
         (listeners (db st))
    then with_participants (participantsValue snap) st
    else st.
Proof.
  unfold deliverParticipants.
  by apply (fold_left_when _ (with_participants (participantsValue snap))).
Qed.

Lemma participants_subscribed_spec path st :
  participants_subscribed path st ↔
  existsb (listens path ValueEvent ParticipantsCallback) (listeners (db st))
  = true.
Proof.
  unfold participants_subscribed. rewrite existsb_exists.
  split; intros (l & H1 & H2); exists l; split; try done;
    by apply list_elem_of_In.
Qed.

Lemma deliverChildAdded_messages path snap st :
  messages (deliverChildAdded path snap st) = messages st
  ∨ messages (deliverChildAdded path snap st)
    = messageAdded snap (messages st).
Proof.
  rewrite deliverChildAdded_eq. destruct (existsb _ _); auto.
Qed.

Lemma deliverParticipants_messages path snap st :
  messages (deliverParticipants path snap st) = messages st.
Proof. rewrite deliverParticipants_eq. by destruct (existsb _ _). Qed.

Lemma deliverChildAdded_db path snap st :
  db (deliverChildAdded path snap st) = db st.
Proof. rewrite deliverChildAdded_eq. by destruct (existsb _ _). Qed.

Lemma deliverParticipants_db path snap st :
  db (deliverParticipants path snap st) = db st.
Proof. rewrite deliverParticipants_eq. by destruct (existsb _ _). Qed.

Lemma deliverChildAdded_extra path snap st :
  extra (deliverChildAdded path snap st) = extra st.
Proof. rewrite deliverChildAdded_eq. by destruct (existsb _ _). Qed.

Lemma deliverParticipants_extra path snap st :
  extra (deliverParticipants path snap st) = extra st.
Proof. rewrite deliverParticipants_eq. by destruct (existsb _ _). Qed.

End Delivery.

(** ** [String.prototype.trim] *)

Lemma trimStart_white_space (s : jsstring) :
  trimStart s = [] ↔ Forall (fun c => is_white_space c = true) s.
Proof.
  induction s as [|c s IH]; simpl.
  - split; [constructor|done].
  - destruct (is_white_space c) eqn:E.
    + rewrite IH. split; [by constructor|by inversion 1].
    + split; [done|]. inversion 1; congruence.
Qed.

Lemma trimStart_head (s : jsstring) (c : N) (t : jsstring) :
  trimStart s = c :: t → is_white_space c = false.
Proof.
  induction s as [|d s IH]; simpl; [done|].
  destruct (is_white_space d) eqn:E; [done|]. congruence.
Qed.

(** The guard [!localText.trim()] holds exactly for the texts made of white
    space only, the empty text among them. *)
Lemma trim_empty_iff (s : jsstring) :
  is_empty (trim s) = true ↔ Forall (fun c => is_white_space c = true) s.
Proof.
  unfold trim, trimEnd. split.
  - intros H. destruct (rev (trimStart (rev (trimStart s)))) as [|x xs] eqn:E;
      [clear H|done].
    apply (f_equal (@rev N)) in E. rewrite rev_involutive in E. simpl in E.
    apply trimStart_white_space in E.
    apply trimStart_white_space.
    destruct (trimStart s) as [|c t] eqn:Et; [done|].
    apply trimStart_head in Et.
    apply Forall_rev in E. rewrite rev_involutive in E.
    inversion E; congruence.
  - intros H. apply trimStart_white_space in H. by rewrite H.
Qed.

(** ** [ref] and the paths of the schema *)

Lemma isValidPathString_room (id : jsstring) :
  isValidPathString (room_path id)
  = forallb (fun c => negb (is_invalid_path_unit c)) id.
Proof.
  unfold isValidPathString, room_path. rewrite forallb_app. reflexivity.
Qed.

Lemma isValidPathString_messages (id : jsstring) :
  isValidPathString (messages_path id)
  = forallb (fun c => negb (is_invalid_path_unit c)) id.
Proof.
  unfold isValidPathString, messages_path. rewrite !forallb_app.
  change (forallb _ (lit "/messages")) with true.
  rewrite andb_true_r. reflexivity.
Qed.

Lemma isValidPathString_participants (id : jsstring) :
  isValidPathString (participants_path id)
  = forallb (fun c => negb (is_invalid_path_unit c)) id.
Proof.
  unfold isValidPathString, participants_path. rewrite !forallb_app.
  change (forallb _ (lit "/participants")) with true.
  rewrite andb_true_r. reflexivity.
Qed.

Lemma isValidPathString_participant (id uid : jsstring) :
  isValidPathString (participant_path id uid)
  = forallb (fun c => negb (is_invalid_path_unit c)) id
    && forallb (fun c => negb (is_invalid_path_unit c)) uid.
Proof.
  unfold isValidPathString, participant_path. rewrite !forallb_app.
  change (forallb _ (lit "/participants/")) with true.
  reflexivity.
Qed.

(** The three locations of a room are accepted together or refused
    together. *)
Lemma room_paths_alike (id : jsstring) :
  isValidPathString (messages_path id) = isValidPathString (room_path id)
  ∧ isValidPathString (participants_path id)
    = isValidPathString (room_path id).
Proof.
  by rewrite isValidPathString_room, isValidPathString_messages,
    isValidPathString_participants.
Qed.

(** When [ref] accepts the path of the presence record, it accepts the
    three locations of the room. *)
Lemma valid_join_paths (id uid : jsstring) :
  isValidPathString (participant_path id uid) = true →
  isValidPathString (room_path id) = true
  ∧ isValidPathString (messages_path id) = true
  ∧ isValidPathString (participants_path id) = true.
Proof.
  rewrite isValidPathString_participant, isValidPathString_room,
    isValidPathString_messages, isValidPathString_participants.
  intros [H _]%andb_true_iff. done.
Qed.

(** A call that is issued only when [ref] accepts its path leaves the
    listener table as it is either way. *)
Lemma listeners_if_issued (path : jsstring) (call : feed_call) (fd : feed) :
  listeners (if isValidPathString path then log_call call fd else fd)
  = listeners fd.
Proof. by destruct (isValidPathString path). Qed.

Lemma faulty_if_issued (path : jsstring) (call : feed_call) (fd : feed) :
  faulty (if isValidPathString path then log_call call fd else fd)
  = faulty fd.
Proof. by destruct (isValidPathString path). Qed.

(** ** The functions of src/src/App.jsx *)

Section AppFunctions.
Implicit Type st : state unit.

Lemma App_joinRoom_empty_id r now presence disconnect st :
  App.joinRoom r [] now presence disconnect st
  = (Fulfilled tt,
     with_effects (effects st ++ [Alert (lit "Enter room id")]) st).
Proof. reflexivity. Qed.

(** A join of a room whose path [ref] refuses stops at line 61, once
    [roomId] and [inRoom] are set: the ref cells are as they were. *)
Lemma App_joinRoom_refused r id now presence disconnect st :
  id ≠ [] → isValidPathString (room_path id) = false →
  App.joinRoom r id now presence disconnect st
  = (Rejected (invalid_path (room_path id)),
     with_inRoom true (with_roomId id st)).
Proof.
  intros H Hv. destruct id as [|c id]; [done|].
  unfold App.joinRoom. async_run. refs_known. reflexivity.
Qed.

(** A join with a user id that makes [ref] refuse the path of the presence
    record stops at line 66, with the three ref cells assigned. *)
Lemma App_joinRoom_user_refused r id now presence disconnect st :
  id ≠ [] → isValidPathString (room_path id) = true →
  isValidPathString (participant_path id (userIdRef st)) = false →
  App.joinRoom r id now presence disconnect st
  = (Rejected (invalid_path (participant_path id (userIdRef st))),
     State id true (messages st) (participants st) (localText st) (name st)
       (userIdRef st) (Some (room_path id)) (Some (messages_path id))
       (Some (participants_path id)) (effects st) (db st) (extra st)).
Proof.
  intros H Hr Hv. destruct (room_paths_alike id) as [Hm Hp].
  rewrite Hr in Hm, Hp.
  destruct id as [|c id]; [done|].
  unfold App.joinRoom. async_run. refs_known. reflexivity.
Qed.

(** The state a join reaches before the presence write settles. *)
Lemma App_joinRoom_rejected r id now e disconnect st :
  id ≠ [] →
  isValidPathString (participant_path id (userIdRef st)) = true →
  App.joinRoom r id now (Fails e) disconnect st
  = (Rejected e,
     State id true (messages st) (participants st) (localText st) (name st)
       (userIdRef st) (Some (room_path id)) (Some (messages_path id))
       (Some (participants_path id)) (effects st)
       (log_call
          (CallSet (participant_path id (userIdRef st))
             (ParticipantValue
                {| p_id := userIdRef st; p_name := r_name r;
                   p_joinedAt := now |}))
          (db st))
       (extra st)).
Proof.
  intros H Hv. destruct (valid_join_paths _ _ Hv) as (Hr & Hm & Hp).
  destruct id as [|c id]; [done|].
  unfold App.joinRoom. async_run. refs_known. reflexivity.
Qed.

(** What a join whose presence write succeeds reaches. *)
Lemma App_joinRoom_joined r id now disconnect st :
  id ≠ [] →
  isValidPathString (participant_path id (userIdRef st)) = true →
  let out := App.joinRoom r id now Succeeds disconnect st in
  settles out = Fulfilled tt
  ∧ listeners (db (final out))
    = listeners (db st) ++ room_listeners id (next_handle (db st))
  ∧ inRoom (final out) = true
  ∧ roomId (final out) = id
  ∧ roomRef (final out) = Some (room_path id)
  ∧ messagesRef (final out) = Some (messages_path id)
  ∧ participantsRef (final out) = Some (participants_path id)
  ∧ messages (final out) = messages st.
Proof.
  intros H Hv. destruct (valid_join_paths _ _ Hv) as (Hr & Hm & Hp).
  destruct id as [|c id]; [done|].
  unfold App.joinRoom. async_run. refs_known.
  destruct disconnect; async_run; rewrite <- !app_assoc; done.
Qed.

Lemma App_joinRoom_listeners r id now disconnect st :
  id ≠ [] →
  isValidPathString (participant_path id (userIdRef st)) = true →
  listeners (db (final (App.joinRoom r id now Succeeds disconnect st)))
  = listeners (db st) ++ room_listeners id (next_handle (db st)).
Proof.
  intros H Hv.
  by destruct (App_joinRoom_joined r id now disconnect st H Hv) as (_ & ? & _).
Qed.

(** The four ways a join of a non-empty id ends. *)
Lemma App_joinRoom_cases r id now presence disconnect st :
  id ≠ [] →
  let out := App.joinRoom r id now presence disconnect st in
  (isValidPathString (room_path id) = false
   ∧ out = (Rejected (invalid_path (room_path id)),
            with_inRoom true (with_roomId id st)))
  ∨ (isValidPathString (room_path id) = true
     ∧ isValidPathString (participant_path id (userIdRef st)) = false
     ∧ out = (Rejected (invalid_path (participant_path id (userIdRef st))),
              State id true (messages st) (participants st) (localText st)
                (name st) (userIdRef st) (Some (room_path id))
                (Some (messages_path id)) (Some (participants_path id))
                (effects st) (db st) (extra st)))
  ∨ (isValidPathString (participant_path id (userIdRef st)) = true
     ∧ ∃ e, presence = Fails e
            ∧ out = (Rejected e,
                     State id true (messages st) (participants st)
                       (localText st) (name st) (userIdRef st)
                       (Some (room_path id)) (Some (messages_path id))
                       (Some (participants_path id)) (effects st)
                       (log_call
                          (CallSet (participant_path id (userIdRef st))
                             (ParticipantValue
                                {| p_id := userIdRef st; p_name := r_name r;
                                   p_joinedAt := now |}))
                          (db st))
                       (extra st)))
  ∨ (isValidPathString (participant_path id (userIdRef st)) = true
     ∧ presence = Succeeds
     ∧ settles out = Fulfilled tt
     ∧ listeners (db (final out))
       = listeners (db st) ++ room_listeners id (next_handle (db st))
     ∧ inRoom (final out) = true
     ∧ roomId (final out) = id
     ∧ roomRef (final out) = Some (room_path id)
     ∧ messagesRef (final out) = Some (messages_path id)
     ∧ participantsRef (final out) = Some (participants_path id)
     ∧ messages (final out) = messages st).
Proof.
  intros H out. subst out.
  destruct (isValidPathString (room_path id)) eqn:Hr.
  - destruct (isValidPathString (participant_path id (userIdRef st))) eqn:Hv.
    + destruct presence as [|e].
      * do 3 right. split; [done|]. split; [done|].
        by apply App_joinRoom_joined.
      * right. right. left. split; [done|]. exists e. split; [done|].
        by apply App_joinRoom_rejected.
    + right. left. split; [done|]. split; [done|].
      by apply App_joinRoom_user_refused.
  - left. split; [done|]. by apply App_joinRoom_refused.
Qed.

(** Whatever becomes of a join of a non-empty id, [inRoom] is true and
    [roomId] is the id afterwards, [messages] is untouched, and the
    listeners registered before are still there. *)
Lemma App_joinRoom_frame r id now presence disconnect st :
  id ≠ [] →
  let st' := final (App.joinRoom r id now presence disconnect st) in
  inRoom st' = true ∧ roomId st' = id ∧ messages st' = messages st
  ∧ listeners (db st) `prefix_of` listeners (db st').
Proof.
  intros H st'. subst st'.
  destruct (App_joinRoom_cases r id now presence disconnect st H)
    as [[_ E]|[(_ & _ & E)|[(_ & e & _ & E)
        |(_ & _ & _ & Hl & Hin & Hid & _ & _ & _ & Hm)]]];
    try (rewrite E; done).
  rewrite Hl. split; [done|]. split; [done|]. split; [done|].
  by apply prefix_app_r.
Qed.

(** A join that is rejected registers no listener. *)
Lemma App_joinRoom_rejected_listeners r id now e disconnect st :
  let out := App.joinRoom r id now (Fails e) disconnect st in
  (id ≠ [] → ∃ e', settles out = Rejected e')
  ∧ listeners (db (final out)) = listeners (db st).
Proof.
  intros out. subst out. destruct id as [|c id]; [split; done|].
  destruct (App_joinRoom_cases r (c :: id) now (Fails e) disconnect st)
    as [[_ E]|[(_ & _ & E)|[(_ & e' & _ & E)|(_ & [=] & _)]]];
    try done; rewrite E; split; eauto.
Qed.

Lemma App_joinRoom_messages r id now presence disconnect st :
  messages (final (App.joinRoom r id now presence disconnect st))
  = messages st.
Proof.
  destruct id as [|c id]; [reflexivity|].
  by destruct (App_joinRoom_frame r (c :: id) now presence disconnect st)
    as (_ & _ & ? & _).
Qed.

Lemma App_leaveRoom_noop r removal st :
  negb (r_inRoom r) || is_empty (r_roomId r) = true →
  App.leaveRoom r removal st = (Fulfilled tt, st).
Proof. intros H. unfold App.leaveRoom. by rewrite H. Qed.

(** A leave that passes its guard: the removal is issued when [ref]
    accepts the path of the presence record, and the session is reset
    either way. *)
Lemma App_leaveRoom_leaves r removal st :
  r_inRoom r = true → r_roomId r ≠ [] →
  App.leaveRoom r removal st
  = (Fulfilled tt,
     State [] false [] ∅ (localText st) (name st) (userIdRef st)
       None None None (effects st)
       (if isValidPathString (participant_path (r_roomId r) (userIdRef st))
        then log_call
               (CallRemove (participant_path (r_roomId r) (userIdRef st)))
               (db st)
        else db st)
       (extra st)).
Proof.
  intros H1 H2. unfold App.leaveRoom. rewrite H1.
  destruct (r_roomId r) as [|c s]; [done|]. async_run.
  destruct (isValidPathString _); destruct removal; reflexivity.
Qed.

(** [leaveRoom] never touches the listener table. *)
Lemma App_leaveRoom_listeners r removal st :
  listeners (db (final (App.leaveRoom r removal st))) = listeners (db st).
Proof.
  destruct (negb (r_inRoom r) || is_empty (r_roomId r)) eqn:E.
  - by rewrite App_leaveRoom_noop.
  - apply orb_false_iff in E as [E1 E2]. apply negb_false_iff in E1.
    rewrite App_leaveRoom_leaves; [|done|by destruct (r_roomId r)].
    cbn [final snd db]. by destruct (isValidPathString _).
Qed.

Lemma App_leaveRoom_messages r removal st :
  messages (final (App.leaveRoom r removal st)) = messages st
  ∨ messages (final (App.leaveRoom r removal st)) = [].
Proof.
  destruct (negb (r_inRoom r) || is_empty (r_roomId r)) eqn:E.
  - rewrite App_leaveRoom_noop by done. by left.
  - apply orb_false_iff in E as [E1 E2]. apply negb_false_iff in E1.
    rewrite App_leaveRoom_leaves; [|done|by destruct (r_roomId r)].
    by right.
Qed.

Lemma App_sendMessage_rejected r generated now write st :
  negb (r_inRoom r) || is_empty (trim (r_localText r)) = true →
  App.sendMessage r generated now write st = (Fulfilled tt, st).
Proof. intros H. unfold App.sendMessage. by rewrite H. Qed.

(** A send that passes the guard with a room id [ref] refuses stops at
    line 132, before the [push]: nothing is issued. *)
Lemma App_sendMessage_refused r generated now write st :
  negb (r_inRoom r) || is_empty (trim (r_localText r)) = false →
  isValidPathString (messages_path (r_roomId r)) = false →
  App.sendMessage r generated now write st
  = (Rejected (invalid_path (messages_path (r_roomId r))), st).
Proof.
  intros H Hv. unfold App.sendMessage. rewrite H. async_run.
  refs_known. reflexivity.
Qed.

(** What a send that passes the guard does, once [ref] has accepted the
    path: one [push], one [set], and on success the input is cleared. *)
Lemma App_sendMessage_issued r generated now write st :
  negb (r_inRoom r) || is_empty (trim (r_localText r)) = false →
  isValidPathString (messages_path (r_roomId r)) = true →
  App.sendMessage r generated now write st
  = (match write with
     | Succeeds => Fulfilled tt
     | Fails e => Rejected e
     end,
     match write with
     | Succeeds => with_localText []
     | Fails _ => fun s => s
     end
       (with_db
          (log_call
             (CallSet
                (messages_path (r_roomId r) ++ lit "/" ++ generated)
                (MessageValue
                   {| v_fromId := userIdRef st; v_fromName := r_name r;
                      v_text := trim (r_localText r); v_at := now |}))
             (log_call
                (CallPush (messages_path (r_roomId r)) generated)
                (db st)))
          st)).
Proof.
  intros H Hv. unfold App.sendMessage. rewrite H. async_run.
  refs_known. destruct write; reflexivity.
Qed.

Lemma App_sendMessage_sent r generated now st :
  r_inRoom r = true → is_empty (trim (r_localText r)) = false →
  isValidPathString (messages_path (r_roomId r)) = true →
  App.sendMessage r generated now Succeeds st
  = (Fulfilled tt,
     with_localText []
       (with_db
          (log_call
             (CallSet
                (messages_path (r_roomId r) ++ lit "/" ++ generated)
                (MessageValue
                   {| v_fromId := userIdRef st; v_fromName := r_name r;
                      v_text := trim (r_localText r); v_at := now |}))
             (log_call
                (CallPush (messages_path (r_roomId r)) generated)
                (db st)))
          st)).
Proof.
  intros H1 H2 Hv. rewrite App_sendMessage_issued; [done| |done].
  by rewrite H1, H2.
Qed.

(** The three ways a send ends. *)
Lemma App_sendMessage_cases r generated now write st :
  App.sendMessage r generated now write st = (Fulfilled tt, st)
  ∨ App.sendMessage r generated now write st
    = (Rejected (invalid_path (messages_path (r_roomId r))), st)
  ∨ (negb (r_inRoom r) || is_empty (trim (r_localText r)) = false
     ∧ isValidPathString (messages_path (r_roomId r)) = true
     ∧ ∃ fd s, calls fd
               = calls (db st)
                 ++ [CallPush (messages_path (r_roomId r)) generated;
                     CallSet
                       (messages_path (r_roomId r) ++ lit "/" ++ generated)
                       (MessageValue
                          {| v_fromId := userIdRef st; v_fromName := r_name r;
                             v_text := trim (r_localText r); v_at := now |})]
               ∧ listeners fd = listeners (db st)
               ∧ next_handle fd = next_handle (db st)
               ∧ faulty fd = faulty (db st)
               ∧ (s = localText st ∨ s = [])
               ∧ final (App.sendMessage r generated now write st)
                 = with_localText s (with_db fd st)).
Proof.
  destruct (negb (r_inRoom r) || is_empty (trim (r_localText r))) eqn:E.
  - left. by apply App_sendMessage_rejected.
  - destruct (isValidPathString (messages_path (r_roomId r))) eqn:Hv.
    + right. right. split; [done|]. split; [done|].
      rewrite App_sendMessage_issued by done.
      eexists _, (match write with Succeeds => [] | Fails _ => localText st end).
      split; [|split; [|split; [|split; [|split]]]]; cycle 5.
      * destruct write; cbn [final snd]; [reflexivity|].
        by destruct st.
      * cbn [calls log_call]. by rewrite <- app_assoc.
      * reflexivity.
      * reflexivity.
      * reflexivity.
      * destruct write; auto.
    + right. left. by apply App_sendMessage_refused.
Qed.

Lemma App_sendMessage_messages r generated now write st :
  messages (final (App.sendMessage r generated now write st))
  = messages st.
Proof.
  destruct (App_sendMessage_cases r generated now write st)
    as [E|[E|(_ & _ & fd & s & _ & _ & _ & _ & _ & E)]]; by rewrite E.
Qed.

Lemma App_createRoom_rejected r id now joined e presence disconnect st :
  App.createRoom r id now joined (Fails e) presence disconnect st
  = (Rejected e,
     with_db
       (log_call (CallSet (room_path id) (RoomValue {| createdAt := now |}))
          (db st))
       (with_roomId id st)).
Proof. reflexivity. Qed.

Lemma App_createRoom_created r id now joined presence disconnect st :
  App.createRoom r id now joined Succeeds presence disconnect st
  = (Fulfilled tt,
     final (App.joinRoom r id joined presence disconnect
              (with_db
                 (log_call
                    (CallSet (room_path id) (RoomValue {| createdAt := now |}))
                    (db st))
                 (with_roomId id st)))).
Proof. reflexivity. Qed.

Lemma App_createRoom_messages r id now joined creation presence disconnect
    st :
  messages (final (App.createRoom r id now joined creation presence
                     disconnect st)) = messages st.
Proof.
  destruct creation as [|e].
  - rewrite App_createRoom_created. cbn [final snd].
    by rewrite App_joinRoom_messages.
  - by rewrite App_createRoom_rejected.
Qed.

(** I1 along every run of the component. *)
Lemma App_reachable_NoDup st : App.reachable st → NoDup (ids (messages st)).
Proof.
  induction 1 as [uid nm|st st' _ IH Hstep].
  - simpl. constructor.
  - destruct Hstep.
    + by rewrite App_createRoom_messages.
    + by rewrite App_joinRoom_messages.
    + destruct (App_leaveRoom_messages r removal st) as [E|E];
        rewrite E; [done|constructor].
    + by rewrite App_sendMessage_messages.
    + destruct (deliverChildAdded_messages path snap st) as [E|E];
        rewrite E; [done|by apply messageAdded_NoDup].
    + by rewrite deliverParticipants_messages.
    + done.
    + done.
    + done.
Qed.

End AppFunctions.
(** ** ListenerRegistry: [pushCleanup] and [runCleanup] of part_000 *)

Lemma filter_all {A} (P : A → Prop) `{!∀ x, Decision (P x)} (l : list A) :
  (∀ x, x ∈ l → P x) → filter P l = l.
Proof.
  induction l as [|x l IH]; intros Hall; [done|].
  rewrite filter_cons_True by (apply Hall; left).
  f_equal. apply IH. intros y Hy. apply Hall. by right.
Qed.

Lemma filter_none {A} (P : A → Prop) `{!∀ x, Decision (P x)} (l : list A) :
  (∀ x, x ∈ l → ¬ P x) → filter P l = [].
Proof.
  induction l as [|x l IH]; intros Hall; [done|].
  rewrite filter_cons_False by (apply Hall; left).
  apply IH. intros y Hy. apply Hall. by right.
Qed.

Section Registry.
Implicit Type st : state (list cleanup_entry).
Implicit Type es : list cleanup_entry.

Lemma detach_nil fd : detach [] fd = fd.
Proof.
  destruct fd as [cs ls n f]. unfold detach. simpl. f_equal.
  apply filter_all. intros l _ [H _]. inversion H.
Qed.

Lemma with_db_same st : with_db (db st) st = st.
Proof. by destruct st. Qed.

Lemma detach_skip e es fd :
  (∀ h, e = Closure (UnsubFn h) → h ∈ faulty fd) →
  detach (e :: es) fd = detach es fd.
Proof.
  intros He. unfold detach. f_equal. apply list_filter_iff.
  intros l. unfold closes. rewrite elem_of_cons.
  split.
  - intros H [Hin Hf]. apply H. split; [by right|done].
  - intros H [[E|Hin] Hf].
    + apply Hf, He. by rewrite E.
    + apply H. by split.
Qed.

Lemma detach_cons h es fd :
  h ∉ faulty fd →
  detach (Closure (UnsubFn h) :: es) fd = detach es (remove_listener h fd).
Proof.
  intros Hh. unfold detach, remove_listener. simpl. f_equal.
  rewrite list_filter_filter. apply list_filter_iff.
  intros l. unfold closes. simpl. rewrite elem_of_cons. split.
  - intros H. split.
    + intros [Hin Hf]. apply H. split; [by right|done].
    + intros E. apply H. split; [left; by rewrite E|by rewrite E].
  - intros [H1 H2] [[E|Hin] Hf].
    + apply H2. congruence.
    + apply H1. by split.
Qed.

(** The loop of [runCleanup]: every entry is tried, none stops the loop. *)
Lemma forEach_run_entry es st :
  forEach Part000.run_entry es st
  = (Fulfilled tt, with_db (detach es (db st)) st).
Proof.
  revert st. induction es as [|e es IH]; intros st.
  - simpl. by rewrite detach_nil, with_db_same.
  - change (forEach Part000.run_entry (e :: es) st)
      with (match Part000.run_entry e st with
            | (Fulfilled _, st') => forEach Part000.run_entry es st'
            | (Rejected x, st') => (Rejected x, st')
            end).
    destruct e as [[h|]|].
    + unfold Part000.run_entry, try_catch, call_unsub, fb_unsubscribe.
      case_bool_decide as Hf.
      * rewrite IH. rewrite detach_skip; [done|]. by intros ? [= <-].
      * rewrite IH. simpl. by rewrite (detach_cons h es (db st)).
    + unfold Part000.run_entry, try_catch, call_unsub. simpl.
      rewrite IH. rewrite detach_skip; [done|]. by intros ? [=].
    + unfold Part000.run_entry, try_catch. simpl.
      rewrite IH. rewrite detach_skip; [done|]. by intros ? [=].
Qed.

Lemma runCleanup_eq st :
  Part000.runCleanup st
  = (Fulfilled tt, with_extra [] (with_db (detach (extra st) (db st)) st)).
Proof.
  unfold Part000.runCleanup.
  change ((forEach Part000.run_entry (extra st) ;; update (with_extra [])) st)
    with (match forEach Part000.run_entry (extra st) st with
          | (Fulfilled _, st') => update (with_extra []) st'
          | (Rejected x, st') => (Rejected x, st')
          end).
  by rewrite forEach_run_entry.
Qed.

(** Safe with nothing registered. *)
Lemma runCleanup_nothing_registered st :
  extra st = [] → Part000.runCleanup st = (Fulfilled tt, st).
Proof.
  intros H. rewrite runCleanup_eq, H, detach_nil.
  f_equal. destruct st; simpl in *. by subst.
Qed.

(** Idempotent: a second release in a row changes nothing. *)
Lemma runCleanup_idempotent st :
  Part000.runCleanup (final (Part000.runCleanup st))
  = (Fulfilled tt, final (Part000.runCleanup st)).
Proof.
  apply runCleanup_nothing_registered. by rewrite runCleanup_eq.
Qed.

(** Each registered closure that does not throw has detached its
    listener, whatever the other entries did. *)
Lemma runCleanup_closes st l :
  l ∈ listeners (db (final (Part000.runCleanup st))) ↔
  l ∈ listeners (db st) ∧ ¬ closes (extra st) (db st) (l_handle l).
Proof.
  rewrite runCleanup_eq. simpl. rewrite list_elem_of_filter. tauto.
Qed.

(** With every listener registered and no faulty closure, nothing
    survives. *)
Lemma runCleanup_releases_all st :
  Part000.all_registered st → faulty (db st) = [] →
  listeners (db (final (Part000.runCleanup st))) = [].
Proof.
  intros Hreg Hf. rewrite runCleanup_eq. simpl.
  apply filter_none. intros l Hl H. apply H. split; [by apply Hreg|].
  rewrite Hf. inversion 1.
Qed.

End Registry.

(** ** The functions of src/unnamed/part_000 *)

Section Part000Functions.
Implicit Type st : state (list cleanup_entry).

Lemma Part000_leaveRoom_noop r removal st :
  negb (r_inRoom r) || is_empty (r_roomId r) = true →
  Part000.leaveRoom r removal st = (Fulfilled tt, st).
Proof. intros H. unfold Part000.leaveRoom. by rewrite H. Qed.

Lemma Part000_leaveRoom_leaves r removal st :
  r_inRoom r = true → r_roomId r ≠ [] →
  Part000.leaveRoom r removal st
  = (Fulfilled tt,
     State [] false [] ∅ (localText st) (name st) (userIdRef st)
       None None None (effects st)
       (detach (extra st)
          (if isValidPathString
                (participant_path (r_roomId r) (userIdRef st))
           then log_call
                  (CallRemove (participant_path (r_roomId r) (userIdRef st)))
                  (db st)
           else db st))
       []).
Proof.
  intros H1 H2. unfold Part000.leaveRoom. rewrite H1.
  destruct (r_roomId r) as [|c s]; [done|]. async_run.
  destruct (isValidPathString _); destruct removal; async_run;
    rewrite runCleanup_eq; reflexivity.
Qed.

Lemma Part000_leaveRoom_fulfilled r removal st :
  settles (Part000.leaveRoom r removal st) = Fulfilled tt.
Proof.
  destruct (negb (r_inRoom r) || is_empty (r_roomId r)) eqn:E.
  - by rewrite Part000_leaveRoom_noop.
  - apply orb_false_iff in E as [E1 E2]. apply negb_false_iff in E1.
    rewrite Part000_leaveRoom_leaves; [done|done|].
    by destruct (r_roomId r).
Qed.

(** The closure a join leaves behind when the room was active: the same
    render with [inRoom] false. *)
Lemma Part000_joinRoom_leaves_first r id now removal presence disconnect st :
  r_inRoom r = true →
  Part000.joinRoom r id now removal presence disconnect st
  = Part000.joinRoom (Render (r_roomId r) false (r_localText r) (r_name r))
      id now removal presence disconnect
      (if is_empty id then st
       else final (Part000.leaveRoom r removal st)).
Proof.
  intros H. destruct id as [|c id]; [reflexivity|].
  unfold Part000.joinRoom. rewrite H. simpl.
  pose proof (Part000_leaveRoom_fulfilled r removal st) as Hl.
  unfold mbind, async_mbind, async_bind at 1.
  destruct (Part000.leaveRoom r removal st) as [[[]|e] st']; [|done].
  reflexivity.
Qed.

(** A join from a closure with [inRoom] false: where it stops when [ref]
    refuses a path, what it reaches when the presence write fails, and what
    it adds when the write succeeds. *)
Lemma Part000_joinRoom_refused r id now removal presence disconnect st :
  id ≠ [] → r_inRoom r = false →
  isValidPathString (room_path id) = false →
  Part000.joinRoom r id now removal presence disconnect st
  = (Rejected (invalid_path (room_path id)),
     with_inRoom true (with_roomId id st)).
Proof.
  intros H1 H2 Hv. destruct id as [|c id]; [done|].
  unfold Part000.joinRoom. rewrite H2. async_run. refs_known. reflexivity.
Qed.

Lemma Part000_joinRoom_user_refused r id now removal presence disconnect st :
  id ≠ [] → r_inRoom r = false →
  isValidPathString (room_path id) = true →
  isValidPathString (participant_path id (userIdRef st)) = false →
  Part000.joinRoom r id now removal presence disconnect st
  = (Rejected (invalid_path (participant_path id (userIdRef st))),
     State id true (messages st) (participants st) (localText st) (name st)
       (userIdRef st) (Some (room_path id)) (Some (messages_path id))
       (Some (participants_path id)) (effects st) (db st) (extra st)).
Proof.
  intros H1 H2 Hr Hv. destruct (room_paths_alike id) as [Hm Hp].
  rewrite Hr in Hm, Hp.
  destruct id as [|c id]; [done|].
  unfold Part000.joinRoom. rewrite H2. async_run. refs_known. reflexivity.
Qed.

Lemma Part000_joinRoom_rejected r id now removal e disconnect st :
  id ≠ [] → r_inRoom r = false →
  isValidPathString (participant_path id (userIdRef st)) = true →
  Part000.joinRoom r id now removal (Fails e) disconnect st
  = (Rejected e,
     State id true (messages st) (participants st) (localText st) (name st)
       (userIdRef st) (Some (room_path id)) (Some (messages_path id))
       (Some (participants_path id)) (effects st)
       (log_call
          (CallSet (participant_path id (userIdRef st))
             (ParticipantValue
                {| p_id := userIdRef st; p_name := r_name r;
                   p_joinedAt := now |}))
          (db st))
       (extra st)).
Proof.
  intros H1 H2 Hv. destruct (valid_join_paths _ _ Hv) as (Hr & Hm & Hp).
  destruct id as [|c id]; [done|].
  unfold Part000.joinRoom. rewrite H2. async_run. refs_known. reflexivity.
Qed.

Lemma Part000_joinRoom_subscribes r id now removal disconnect st :
  id ≠ [] → r_inRoom r = false →
  isValidPathString (participant_path id (userIdRef st)) = true →
  let out := Part000.joinRoom r id now removal Succeeds disconnect st in
  let h := next_handle (db st) in
  settles out = Fulfilled tt
  ∧ listeners (db (final out)) = listeners (db st) ++ room_listeners id h
  ∧ extra (final out)
    = extra st ++ [Closure (UnsubFn h); Closure (UnsubFn (S h));
                   Closure (UnsubFn (S (S h)))]
  ∧ faulty (db (final out)) = faulty (db st)
  ∧ inRoom (final out) = true
  ∧ roomId (final out) = id.
Proof.
  intros H1 H2 Hv. destruct (valid_join_paths _ _ Hv) as (Hr & Hm & Hp).
  destruct id as [|c id]; [done|].
  unfold Part000.joinRoom. rewrite H2. async_run. refs_known.
  destruct disconnect; async_run; rewrite <- !app_assoc; done.
Qed.

(** Whatever becomes of a join of a non-empty id from a closure with
    [inRoom] false: [inRoom] is true and [roomId] is the id afterwards, the
    name, the typed text and the user id are untouched, and either nothing
    was subscribed or the three listeners were, with their closures. *)
Lemma Part000_joinRoom_cold r id now removal presence disconnect st :
  id ≠ [] → r_inRoom r = false →
  let out := Part000.joinRoom r id now removal presence disconnect st in
  let h := next_handle (db st) in
  inRoom (final out) = true ∧ roomId (final out) = id
  ∧ name (final out) = name st ∧ localText (final out) = localText st
  ∧ userIdRef (final out) = userIdRef st
  ∧ faulty (db (final out)) = faulty (db st)
  ∧ (((∃ e, settles out = Rejected e)
      ∧ listeners (db (final out)) = listeners (db st)
      ∧ extra (final out) = extra st)
     ∨ (isValidPathString (participant_path id (userIdRef st)) = true
        ∧ presence = Succeeds
        ∧ settles out = Fulfilled tt
        ∧ listeners (db (final out))
          = listeners (db st) ++ room_listeners id h
        ∧ extra (final out)
          = extra st ++ [Closure (UnsubFn h); Closure (UnsubFn (S h));
                         Closure (UnsubFn (S (S h)))])).
Proof.
  intros H1 H2 out h. subst out h.
  destruct (isValidPathString (room_path id)) eqn:Hr.
  - destruct (isValidPathString (participant_path id (userIdRef st))) eqn:Hv.
    + destruct presence as [|e].
      * destruct (Part000_joinRoom_subscribes r id now removal disconnect st
                    H1 H2 Hv) as (Hs & Hl & He & Hf & Hin & Hid).
        repeat (split; [done|]).
        assert (∀ s, s = Part000.joinRoom r id now removal Succeeds
                           disconnect st →
                  name (final s) = name st
                  ∧ localText (final s) = localText st
                  ∧ userIdRef (final s) = userIdRef st) as Hframe.
        { intros s ->. destruct (valid_join_paths _ _ Hv) as (? & Hm & Hp).
          destruct id as [|c id]; [done|].
          unfold Part000.joinRoom. rewrite H2. async_run. refs_known.
          destruct disconnect; done. }
        destruct (Hframe _ eq_refl) as (Hn & Ht & Hu).
        repeat (split; [done|]). right. done.
      * rewrite Part000_joinRoom_rejected by done.
        repeat (split; [done|]). left. eauto.
    + rewrite Part000_joinRoom_user_refused by done.
      repeat (split; [done|]). left. eauto.
  - rewrite Part000_joinRoom_refused by done.
    repeat (split; [done|]). left. eauto.
Qed.

Lemma Part000_sendMessage_frame r generated now write st :
  listeners (db (final (Part000.sendMessage r generated now write st)))
  = listeners (db st)
  ∧ faulty (db (final (Part000.sendMessage r generated now write st)))
    = faulty (db st)
  ∧ extra (final (Part000.sendMessage r generated now write st)) = extra st
  ∧ messages (final (Part000.sendMessage r generated now write st))
    = messages st.
Proof.
  unfold Part000.sendMessage.
  destruct (r_inRoom r); cbn [negb]; [|done].
  destruct (is_empty (trim (r_localText r))); [done|].
  async_run. refs_split; [|done]. destruct write; done.
Qed.

Lemma detach_listeners_issued es path fd :
  listeners
    (detach es (if isValidPathString path
                then log_call (CallRemove path) fd else fd))
  = listeners (detach es fd).
Proof. by destruct (isValidPathString path). Qed.

(** A leave that passes its guard, from a state where every listener is
    registered and no closure is faulty, ends with no listener at all. *)
Lemma Part000_leaveRoom_releases r removal st :
  r_inRoom r = true → r_roomId r ≠ [] →
  Part000.all_registered st → faulty (db st) = [] →
  listeners (db (final (Part000.leaveRoom r removal st))) = []
  ∧ extra (final (Part000.leaveRoom r removal st)) = [].
Proof.
  intros H1 H2 Hreg Hf. rewrite Part000_leaveRoom_leaves by done.
  split; [|done]. cbn [final snd db]. rewrite detach_listeners_issued.
  cbn [detach listeners].
  apply filter_none. intros l Hl H. apply H.
  split; [by apply Hreg|]. rewrite Hf. inversion 1.
Qed.

Lemma Part000_leaveRoom_invariant r removal st :
  Part000.all_registered st ∧ faulty (db st) = [] →
  Part000.all_registered (final (Part000.leaveRoom r removal st))
  ∧ faulty (db (final (Part000.leaveRoom r removal st))) = [].
Proof.
  intros [Hreg Hf].
  destruct (negb (r_inRoom r) || is_empty (r_roomId r)) eqn:E.
  - by rewrite Part000_leaveRoom_noop.
  - apply orb_false_iff in E as [E1 E2]. apply negb_false_iff in E1.
    assert (r_roomId r ≠ []) as E3 by (by destruct (r_roomId r)).
    destruct (Part000_leaveRoom_releases r removal st) as [Hl He];
      try done.
    split.
    + intros l Hl'. rewrite Hl in Hl'. inversion Hl'.
    + rewrite Part000_leaveRoom_leaves by done. cbn [final snd db].
      by destruct (isValidPathString _).
Qed.

Lemma Part000_joinRoom_invariant r id now removal presence disconnect st :
  Part000.all_registered st ∧ faulty (db st) = [] →
  let st' :=
    final (Part000.joinRoom r id now removal presence disconnect st) in
  Part000.all_registered st' ∧ faulty (db st') = [].
Proof.
  assert (Hcold : ∀ r st, r_inRoom r = false →
    Part000.all_registered st ∧ faulty (db st) = [] →
    let st' :=
      final (Part000.joinRoom r id now removal presence disconnect st) in
    Part000.all_registered st' ∧ faulty (db st') = []).
  { clear r st. intros r st Hr [Hreg Hf]. simpl.
    destruct id as [|c id]; [done|].
    destruct (Part000_joinRoom_cold r (c :: id) now removal presence
                disconnect st) as (_ & _ & _ & _ & _ & Hf' & Hcases);
      try done.
    split; [|by rewrite Hf'].
    destruct Hcases as [(_ & Hl & He)|(_ & _ & _ & Hl & He)];
      intros l; rewrite Hl, He; [apply Hreg|].
    rewrite !elem_of_app. intros [Hin|Hin].
    + left. by apply Hreg.
    + right. unfold room_listeners in Hin.
      rewrite !elem_of_cons in Hin. rewrite !elem_of_cons.
      destruct Hin as [->|[->|[->|Hin]]]; simpl; auto.
      inversion Hin. }
  intros Hinv. destruct (r_inRoom r) eqn:Hr.
  - rewrite Part000_joinRoom_leaves_first by done.
    apply Hcold; [done|].
    destruct (is_empty id); [done|].
    by apply Part000_leaveRoom_invariant.
  - by apply Hcold.
Qed.

Lemma Part000_createRoom_rejected r id now joined e removal presence
    disconnect st :
  Part000.createRoom r id now joined (Fails e) removal presence disconnect st
  = (Rejected e,
     with_db
       (log_call (CallSet (room_path id) (RoomValue {| createdAt := now |}))
          (db st))
       (with_roomId id st)).
Proof. reflexivity. Qed.

Lemma Part000_createRoom_created r id now joined removal presence disconnect
    st :
  Part000.createRoom r id now joined Succeeds removal presence disconnect st
  = (Fulfilled tt,
     final (Part000.joinRoom r id joined removal presence disconnect
              (with_db
                 (log_call
                    (CallSet (room_path id) (RoomValue {| createdAt := now |}))
                    (db st))
                 (with_roomId id st)))).
Proof. reflexivity. Qed.

Lemma Part000_createRoom_invariant r id now joined creation removal presence
    disconnect st :
  Part000.all_registered st ∧ faulty (db st) = [] →
  let st' :=
    final (Part000.createRoom r id now joined creation removal presence
             disconnect st) in
  Part000.all_registered st' ∧ faulty (db st') = [].
Proof.
  intros Hinv. destruct creation as [|e].
  - rewrite Part000_createRoom_created. cbn [final snd].
    by apply Part000_joinRoom_invariant.
  - by rewrite Part000_createRoom_rejected.
Qed.

(** Along every run of the part_000 component, each active listener has
    its closure in [cleanupRef], and no closure is faulty. *)
Lemma Part000_reachable_registered st :
  Part000.reachable st →
  Part000.all_registered st ∧ faulty (db st) = [].
Proof.
  induction 1 as [uid nm|st st' _ IH Hstep].
  - split; [|done]. intros l Hl. inversion Hl.
  - destruct Hstep.
    + by apply Part000_createRoom_invariant.
    + by apply Part000_joinRoom_invariant.
    + by apply Part000_leaveRoom_invariant.
    + destruct (Part000_sendMessage_frame r generated now write st)
        as (Hl & Hf & He & _).
      unfold Part000.all_registered. by rewrite Hl, Hf, He.
    + unfold Part000.all_registered.
      by rewrite deliverChildAdded_db, deliverChildAdded_extra.
    + unfold Part000.all_registered.
      by rewrite deliverParticipants_db, deliverParticipants_extra.
    + done.
    + done.
    + done.
Qed.

End Part000Functions.
(** * The claims *)

(** ** MessageStream *)

(** C1, as the code has it.  The handler never evicts: the sequence held
    before a run of item-added notifications is a prefix of the sequence
    after it, and notifications that carry a value and pairwise distinct
    ids, none of them held yet, are all appended in delivery order, so the
    length grows by their number.  No cap of 200 applies to the local
    sequence; 200 is only the [limitToLast] bound of the subscription. *)
Theorem messages_never_evicted
    (snaps : list (snapshot message_value)) (prev : list message) :
  prev `prefix_of` messagesAdded snaps prev
  ∧ (NoDup (key <$> snaps) →
     Forall (fun snap => is_Some (val snap)) snaps →
     Forall (fun snap => key snap ∉ ids prev) snaps →
     messagesAdded snaps prev = prev ++ entries snaps
     ∧ length (messagesAdded snaps prev) = length prev + length snaps).
Proof.
  split; [apply messagesAdded_prefix|].
  intros Hnd Hv Hout.
  rewrite messagesAdded_all_fresh by done.
  split; [done|]. by rewrite length_app, length_entries.
Qed.

Lemma burst_keys_NoDup (n : nat) : NoDup (key <$> burst n).
Proof.
  unfold burst. rewrite <- list_fmap_compose.
  apply NoDup_fmap_2; [|apply NoDup_seq].
  intros i j H. simpl in H. injection H as H. lia.
Qed.

Lemma burst_values (n : nat) :
  Forall (fun snap => is_Some (val snap)) (burst n).
Proof. unfold burst. apply Forall_fmap, Forall_forall. intros i _. by eexists. Qed.

Lemma messages_never_evicted_witness :
  NoDup (key <$> burst 201)
  ∧ Forall (fun snap => is_Some (val snap)) (burst 201)
  ∧ messagesAdded (burst 201) [] = [] ++ entries (burst 201)
  ∧ length (messagesAdded (burst 201) []) = 0 + 201.
Proof.
  split; [apply burst_keys_NoDup|]. split; [apply burst_values|].
  destruct (messages_never_evicted (burst 201) []) as [_ H].
  destruct H as [H1 H2].
  - apply burst_keys_NoDup.
  - apply burst_values.
  - apply Forall_forall. intros snap _ Hin. inversion Hin.
  - split; [exact H1|]. rewrite H2. unfold burst.
    by rewrite length_fmap, length_seq.
Defined.

(** C1, as stated, fails: 201 notifications with distinct ids delivered to
    an empty sequence leave 201 entries, more than the cap of 200. *)
Lemma retention_cap_exceeded :
  length (messagesAdded (burst 201) []) = 201
  ∧ ¬ (length (messagesAdded (burst 201) []) ≤ 200).
Proof.
  assert (length (messagesAdded (burst 201) []) = 201) as H
    by (vm_compute; reflexivity).
  split; [done|]. rewrite H. lia.
Qed.

(** C5.  A notification whose id is already held is discarded: the handler
    returns the sequence unchanged, and so does its delivery to the state.
    Ids stay pairwise distinct under every notification; delivering the same
    notification (with a value) twice leaves exactly one entry for its id;
    and no state the component of App.jsx can reach holds two entries with
    the same id. *)
Theorem duplicate_notification_discarded
    (snap : snapshot message_value) (prev : list message) :
  (key snap ∈ ids prev → messageAdded snap prev = prev)
  ∧ (NoDup (ids prev) →
     NoDup (ids (messageAdded snap prev))
     ∧ (is_Some (val snap) →
        occurrences (key snap) (messageAdded snap (messageAdded snap prev))
        = 1))
  ∧ (∀ (path : jsstring) (st : state unit),
       key snap ∈ ids (messages st) → deliverChildAdded path snap st = st)
  ∧ (∀ st : state unit, App.reachable st → NoDup (ids (messages st))).
Proof.
  split; [apply messageAdded_present|]. split; [|split].
  - intros Hnd. split; [by apply messageAdded_NoDup|].
    intros [v Hv]. rewrite messageAdded_twice.
    apply occurrences_NoDup; [by apply messageAdded_NoDup|].
    by apply (key_added snap v).
  - intros path st Hin. rewrite deliverChildAdded_eq.
    destruct (existsb _ _); [|done].
    rewrite messageAdded_present by done. by destruct st.
  - apply App_reachable_NoDup.
Qed.

Lemma duplicate_notification_discarded_witness :
  let snap := Snapshot (lit "m1") (Some sample_value) in
  let m1 := message_of (lit "m1") sample_value in
  messageAdded snap [m1] = [m1]
  ∧ occurrences (lit "m1") (messageAdded snap (messageAdded snap [])) = 1
  ∧ deliverChildAdded (messages_path (lit "r1")) snap
      (with_messages [m1] sample_joined)
    = with_messages [m1] sample_joined
  ∧ NoDup (ids (messages sample_joined)).
Proof.
  intros snap m1.
  destruct (duplicate_notification_discarded snap [m1]) as (H1 & _ & H3 & H4).
  destruct (duplicate_notification_discarded snap []) as (_ & H2 & _).
  split; [|split; [|split]].
  - apply H1. vm_compute. by left.
  - apply H2; [constructor|by eexists].
  - apply H3. vm_compute. by left.
  - apply H4. unfold sample_joined, sample_mount.
    eapply App.reachable_step; [apply App.reachable_mount|].
    apply App.step_joinRoom.
Defined.

(** C6.  When the item-added notifications arrive in increasing order of
    feed-generated id, and every id already held is below all of them (in
    particular when the sequence starts empty, as after a join), then after
    each notification, that is after every prefix of the run, the
    [messages] sequence is in ascending order of id, and it is the sequence
    held at the start followed by the entries of the notifications applied
    so far, in delivery order: each arrival that carries a value is appended
    at the end of what is held, nothing is moved or re-sorted. *)
Theorem ordered_delivery_keeps_messages_sorted
    (snaps : list (snapshot message_value)) (prev : list message) :
  increasing_keys snaps →
  sorted_by_id prev →
  Forall (fun i => Forall (key_lt i) (key <$> snaps)) (ids prev) →
  ∀ n : nat,
    sorted_by_id (messagesAdded (take n snaps) prev)
    ∧ messagesAdded (take n snaps) prev = prev ++ entries (take n snaps)
    ∧ (∀ snap v, snaps !! n = Some snap → val snap = Some v →
         messagesAdded (take (S n) snaps) prev
         = messagesAdded (take n snaps) prev ++ [message_of (key snap) v]).
Proof.
  intros Hk Hs Hlt. unfold increasing_keys in Hk.
  apply Sorted_StronglySorted in Hk; [|apply _].
  assert (∀ n, messagesAdded (take n snaps) prev
               = prev ++ entries (take n snaps)) as Happ.
  { intros n. apply messagesAdded_distinct.
    - rewrite <- (take_drop n snaps), fmap_app in Hk.
      apply StronglySorted_app_1_l in Hk. by apply sorted_keys_NoDup.
    - apply Forall_forall. intros snap Hsnap Hheld.
      rewrite Forall_forall in Hlt. specialize (Hlt _ Hheld).
      rewrite Forall_forall in Hlt.
      apply (irreflexivity key_lt (key snap)). apply Hlt.
      apply list_elem_of_fmap. exists snap. split; [done|].
      by apply (subseteq_take n). }
  intros n. split; [|split; [apply Happ|]].
  - rewrite <- (take_drop n snaps), fmap_app in Hk.
    apply StronglySorted_app_1_l in Hk.
    apply messagesAdded_sorted; [done|done|].
    eapply Forall_impl; [exact Hlt|]. simpl. intros i Hi.
    rewrite <- (take_drop n snaps), fmap_app in Hi.
    by apply Forall_app in Hi as [Hi _].
  - intros snap v Hn Hv.
    rewrite (Happ (S n)), (Happ n), (take_S_r _ _ _ Hn).
    rewrite (entries_snoc _ _ v) by done. by rewrite app_assoc.
Qed.

Lemma burst_increasing (n : nat) : increasing_keys (burst n).
Proof.
  unfold increasing_keys, burst. rewrite <- list_fmap_compose.
  generalize 0 as a. induction n as [|n IH]; intros a.
  - constructor.
  - cbn [seq fmap list_fmap]. constructor; [apply IH|].
    destruct n; cbn [seq fmap list_fmap]; constructor.
    unfold key_lt. cbn [compose key key_ltb].
    destruct (N.ltb_spec (256 + N.of_nat a) (256 + N.of_nat (S a)));
      [done|lia].
Qed.

Lemma ordered_delivery_keeps_messages_sorted_witness :
  increasing_keys (burst 5)
  ∧ sorted_by_id (messagesAdded (take 3 (burst 5)) [])
  ∧ ids (messagesAdded (take 3 (burst 5)) []) = [[256]; [257]; [258]]%N
  ∧ ids (messagesAdded (take 4 (burst 5)) [])
    = [[256]; [257]; [258]; [259]]%N.
Proof.
  split; [apply burst_increasing|].
  assert (sorted_by_id []) as Hs by constructor.
  assert (Forall (fun i => Forall (key_lt i) (key <$> burst 5)) (ids []))
    as Hlt by constructor.
  destruct (ordered_delivery_keeps_messages_sorted (burst 5) []
              (burst_increasing 5) Hs Hlt 3) as (H1 & H2 & H3).
  split; [exact H1|]. split.
  - rewrite H2. vm_compute. reflexivity.
  - erewrite H3; [|vm_compute; reflexivity|vm_compute; reflexivity].
    rewrite H2. vm_compute. reflexivity.
Defined.

(** ** PresenceTracker *)

(** C7.  A participants snapshot delivered through the subscription
    replaces the local map, whatever it held: afterwards the map is the
    snapshot's contents and nothing else, so an id the snapshot does not
    contain is absent from the local view even when the previous view had
    it. *)
Theorem participants_snapshot_replaces {X : Type}
    (path : jsstring) (snap : snapshot (gmap jsstring participant))
    (st : state X) :
  participants_subscribed path st →
  let st' := deliverParticipants path snap st in
  participants st' = participantsValue snap
  ∧ (∀ m, val snap = Some m → participants st' = m)
  ∧ (∀ uid, participantsValue snap !! uid = None →
            participants st' !! uid = None).
Proof.
  intros Hsub. apply participants_subscribed_spec in Hsub. simpl.
  rewrite deliverParticipants_eq, Hsub. simpl.
  split; [done|]. split; [|done].
  intros m Hm. unfold participantsValue. by rewrite Hm.
Qed.

Lemma sample_joined_subscribed :
  participants_subscribed (participants_path (lit "r1")) sample_joined.
Proof.
  exists (Build_listener 0 (participants_path (lit "r1")) ValueEvent None
            false ParticipantsCallback).
  split; [vm_compute; left|vm_compute; reflexivity].
Qed.

Lemma participants_snapshot_replaces_witness :
  let path := participants_path (lit "r1") in
  let st1 := deliverParticipants path sample_first sample_joined in
  let st2 := deliverParticipants path sample_second st1 in
  participants_subscribed path st1
  ∧ participants st1 !! lit "u2" = Some sample_bob
  ∧ participants st2 = {[ lit "u1" := sample_ann ]}
  ∧ participants st2 !! lit "u2" = None.
Proof.
  intros path st1 st2.
  assert (participants_subscribed path st1) as Hsub.
  { unfold participants_subscribed, st1.
    rewrite deliverParticipants_db. apply sample_joined_subscribed. }
  destruct (participants_snapshot_replaces path sample_first sample_joined
              sample_joined_subscribed) as (_ & H1 & _).
  destruct (participants_snapshot_replaces path sample_second st1 Hsub)
    as (_ & H2 & H3).
  split; [done|]. split; [|split].
  - fold st1 in H1. rewrite (H1 _ eq_refl). vm_compute. reflexivity.
  - apply H2. reflexivity.
  - apply H3. vm_compute. reflexivity.
Defined.

(** C10.  A participants snapshot whose value is null (nothing is stored at
    the location, as when the last participant record has been removed)
    sets the local view to the empty map: the handler passes [{}] to
    [setParticipants], it neither fails, nor keeps the previous contents,
    nor stores a null. *)
Theorem null_participants_snapshot_gives_empty_map {X : Type}
    (path : jsstring) (snap : snapshot (gmap jsstring participant))
    (st : state X) :
  participants_subscribed path st →
  val snap = None →
  participantsValue snap = ∅
  ∧ participants (deliverParticipants path snap st) = ∅.
Proof.
  intros Hsub Hnull.
  assert (participantsValue snap = ∅) as E
    by (unfold participantsValue; by rewrite Hnull).
  split; [done|].
  apply participants_subscribed_spec in Hsub.
  by rewrite deliverParticipants_eq, Hsub.
Qed.

Lemma null_participants_snapshot_gives_empty_map_witness :
  let path := participants_path (lit "r1") in
  let st1 := deliverParticipants path sample_first sample_joined in
  participants_subscribed path st1
  ∧ participants st1 !! lit "u1" = Some sample_ann
  ∧ participants (deliverParticipants path sample_null st1) = ∅.
Proof.
  intros path st1.
  assert (participants_subscribed path st1) as Hsub.
  { unfold participants_subscribed, st1.
    rewrite deliverParticipants_db. apply sample_joined_subscribed. }
  split; [done|]. split.
  - vm_compute. reflexivity.
  - apply (null_participants_snapshot_gives_empty_map path sample_null st1
             Hsub eq_refl).
Defined.
(** ** RoomSession: [sendMessage] and [leaveRoom] of App.jsx *)

(** C8.  A send from a render that is not in a room, or whose text is empty
    or made of white space only, is a no-op: the promise is fulfilled
    (nothing is thrown), no call reaches the feed and the state is
    unchanged.  No send, successful or not, touches the [messages]
    sequence: a send that passes the guard, once [ref] has accepted the
    path of the room in the room id input, issues one [push] and one [set]
    to the feed and on success clears the input; the message enters
    [messages] only when the subscription delivers it.  When [ref] refuses
    that path the send is rejected before anything is issued, the state
    unchanged. *)
Theorem sendMessage_guard_and_no_local_append
    (r : render) (generated : jsstring) (now : Z) (write : outcome)
    (st : state unit) :
  (r_inRoom r = false
   ∨ Forall (fun c => is_white_space c = true) (r_localText r) →
   App.sendMessage r generated now write st = (Fulfilled tt, st))
  ∧ messages (final (App.sendMessage r generated now write st)) = messages st
  ∧ (r_inRoom r = true →
     ¬ Forall (fun c => is_white_space c = true) (r_localText r) →
     isValidPathString (messages_path (r_roomId r)) = true →
     let st' := final (App.sendMessage r generated now Succeeds st) in
     settles (App.sendMessage r generated now Succeeds st) = Fulfilled tt
     ∧ messages st' = messages st
     ∧ localText st' = []
     ∧ calls (db st')
       = calls (db st)
         ++ [CallPush (messages_path (r_roomId r)) generated;
             CallSet (messages_path (r_roomId r) ++ lit "/" ++ generated)
               (MessageValue
                  {| v_fromId := userIdRef st; v_fromName := r_name r;
                     v_text := trim (r_localText r); v_at := now |})])
  ∧ (r_inRoom r = true →
     ¬ Forall (fun c => is_white_space c = true) (r_localText r) →
     isValidPathString (messages_path (r_roomId r)) = false →
     App.sendMessage r generated now write st
     = (Rejected (invalid_path (messages_path (r_roomId r))), st)).
Proof.
  assert (r_inRoom r = true →
          ¬ Forall (fun c => is_white_space c = true) (r_localText r) →
          is_empty (trim (r_localText r)) = false) as Hguard.
  { intros _ H2. destruct (is_empty (trim (r_localText r))) eqn:E; [|done].
    apply trim_empty_iff in E. contradiction. }
  split; [|split; [|split]].
  - intros H. apply App_sendMessage_rejected. apply orb_true_iff.
    destruct H as [H|H]; [left; by rewrite H|right].
    by apply trim_empty_iff.
  - apply App_sendMessage_messages.
  - intros H1 H2 Hv. pose proof (Hguard H1 H2) as H3.
    rewrite App_sendMessage_sent by done. cbn [final settles fst snd].
    do 3 (split; [reflexivity|]).
    cbn [with_localText with_db db calls log_call].
    by rewrite <- app_assoc.
  - intros H1 H2 Hv. pose proof (Hguard H1 H2) as H3.
    apply App_sendMessage_refused; [|done]. by rewrite H1, H3.
Qed.

Lemma sendMessage_guard_and_no_local_append_witness :
  let blank := with_localText (lit "  ") sample_joined in
  let typed := with_localText (lit " hi ") sample_joined in
  let astray := with_roomId (lit "a.b") typed in
  App.sendMessage (current sample_mount) (lit "k1") 1002 Succeeds sample_mount
  = (Fulfilled tt, sample_mount)
  ∧ App.sendMessage (current blank) (lit "k1") 1002 Succeeds blank
    = (Fulfilled tt, blank)
  ∧ messages (final (App.sendMessage (current typed) (lit "k1") 1002
                       Succeeds typed)) = messages typed
  ∧ localText (final (App.sendMessage (current typed) (lit "k1") 1002
                        Succeeds typed)) = []
  ∧ App.sendMessage (current astray) (lit "k1") 1002 Succeeds astray
    = (Rejected (invalid_path (lit "rooms/a.b/messages")), astray).
Proof.
  intros blank typed astray.
  destruct (sendMessage_guard_and_no_local_append (current sample_mount)
              (lit "k1") 1002 Succeeds sample_mount) as (H1 & _ & _).
  destruct (sendMessage_guard_and_no_local_append (current blank)
              (lit "k1") 1002 Succeeds blank) as (H2 & _ & _).
  destruct (sendMessage_guard_and_no_local_append (current typed)
              (lit "k1") 1002 Succeeds typed) as (_ & _ & H3 & _).
  destruct (sendMessage_guard_and_no_local_append (current astray)
              (lit "k1") 1002 Succeeds astray) as (_ & _ & _ & H6).
  assert (r_inRoom (current typed) = true) as Hin by reflexivity.
  assert (¬ Forall (fun c => is_white_space c = true)
              (r_localText (current typed))) as Htext.
  { intros H. apply trim_empty_iff in H. vm_compute in H. discriminate H. }
  assert (isValidPathString (messages_path (r_roomId (current typed))) = true)
    as Hv by (vm_compute; reflexivity).
  assert (r_inRoom (current astray) = true) as Hin'
    by (vm_compute; reflexivity).
  assert (¬ Forall (fun c => is_white_space c = true)
              (r_localText (current astray))) as Htext'.
  { intros H. apply trim_empty_iff in H. vm_compute in H. discriminate H. }
  assert (isValidPathString (messages_path (r_roomId (current astray)))
          = false) as Hv' by (vm_compute; reflexivity).
  destruct (H3 Hin Htext Hv) as (_ & H4 & H5 & _).
  split; [|split; [|split; [|split]]].
  - apply H1. left. reflexivity.
  - apply H2. right. apply trim_empty_iff. vm_compute. reflexivity.
  - exact H4.
  - exact H5.
  - etrans; [exact (H6 Hin' Htext' Hv')|]. vm_compute. reflexivity.
Defined.

(** C9.  [leaveRoom] on an idle session ([inRoom] false) is a no-op: the
    promise is fulfilled (nothing is thrown), no call reaches the feed, and
    [roomId], [inRoom], [participants], [messages] and the rest of the state
    are unchanged.  Hence leaving is idempotent: after any [leaveRoom], a
    second one from the page changes nothing. *)
Theorem leaveRoom_idle_noop (st : state unit) (removal again : outcome) :
  (inRoom st = false →
   App.leaveRoom (current st) removal st = (Fulfilled tt, st))
  ∧ (let st1 := final (App.leaveRoom (current st) removal st) in
     App.leaveRoom (current st1) again st1 = (Fulfilled tt, st1)).
Proof.
  split.
  - intros H. apply App_leaveRoom_noop. simpl. by rewrite H.
  - intros st1.
    destruct (negb (inRoom st) || is_empty (roomId st)) eqn:E.
    + assert (App.leaveRoom (current st) removal st = (Fulfilled tt, st))
        as E0 by (apply App_leaveRoom_noop; exact E).
      subst st1. rewrite E0. cbn [final snd].
      apply App_leaveRoom_noop. exact E.
    + apply orb_false_iff in E as [E1 E2]. apply negb_false_iff in E1.
      assert (roomId st ≠ []) as E3 by (by destruct (roomId st)).
      subst st1.
      rewrite (App_leaveRoom_leaves (current st) removal st E1 E3).
      apply App_leaveRoom_noop. reflexivity.
Qed.

Lemma leaveRoom_idle_noop_witness :
  inRoom sample_mount = false
  ∧ App.leaveRoom (current sample_mount) Succeeds sample_mount
    = (Fulfilled tt, sample_mount)
  ∧ inRoom sample_joined = true
  ∧ (let st1 := final (App.leaveRoom (current sample_joined) Succeeds
                         sample_joined) in
     App.leaveRoom (current st1) Succeeds st1 = (Fulfilled tt, st1)).
Proof.
  destruct (leaveRoom_idle_noop sample_mount Succeeds Succeeds) as [H1 _].
  destruct (leaveRoom_idle_noop sample_joined Succeeds Succeeds) as [_ H2].
  split; [reflexivity|]. split; [apply H1; reflexivity|].
  split; [reflexivity|exact H2].
Defined.

(** ** RoomSession: [joinRoom] when the presence write fails *)

Lemma Part000_leaveRoom_userIdRef r removal
    (st : state (list cleanup_entry)) :
  userIdRef (final (Part000.leaveRoom r removal st)) = userIdRef st.
Proof.
  destruct (negb (r_inRoom r) || is_empty (r_roomId r)) eqn:E.
  - by rewrite Part000_leaveRoom_noop.
  - apply orb_false_iff in E as [E1 E2]. apply negb_false_iff in E1.
    rewrite Part000_leaveRoom_leaves; [done|done|].
    by destruct (r_roomId r).
Qed.

Lemma Part000_leaveRoom_subset r removal (st : state (list cleanup_entry)) :
  (∀ l, l ∈ listeners (db (final (Part000.leaveRoom r removal st))) →
        l ∈ listeners (db st))
  ∧ (∀ fn, fn ∈ extra (final (Part000.leaveRoom r removal st)) →
           fn ∈ extra st).
Proof.
  destruct (negb (r_inRoom r) || is_empty (r_roomId r)) eqn:E.
  - by rewrite Part000_leaveRoom_noop.
  - apply orb_false_iff in E as [E1 E2]. apply negb_false_iff in E1.
    rewrite Part000_leaveRoom_leaves; [|done|by destruct (r_roomId r)].
    cbn [final snd db extra]. rewrite detach_listeners_issued.
    cbn [detach listeners]. split.
    + intros l Hl. by apply list_elem_of_filter in Hl as [_ Hl].
    + intros fn Hfn. inversion Hfn.
Qed.

(** C2, as the code has it.  When the awaited presence write is rejected,
    that is, when [ref] has accepted the path of the presence record, the
    write was issued and its promise is rejected, [joinRoom] is rejected
    with the same error (no [try] encloses the write).  It stops there: no
    subscription is opened and, in part_000, no cleanup closure is
    registered.  The state set before the write stays as it is: [inRoom] is
    true and [roomId] is the room's id; nothing rolls the session back to
    idle.  All but the identity of the error also holds when [ref] refuses
    a path, in which case the join is rejected before the write. *)
Theorem joinRoom_presence_write_rejected
    (r : render) (id : jsstring) (now : Z) (e : error)
    (removal disconnect : outcome)
    (st : state unit) (st0 : state (list cleanup_entry)) :
  id ≠ [] →
  let out := App.joinRoom r id now (Fails e) disconnect st in
  let out0 := Part000.joinRoom r id now removal (Fails e) disconnect st0 in
  ((isValidPathString (participant_path id (userIdRef st)) = true →
    settles out = Rejected e)
   ∧ (∃ e', settles out = Rejected e')
   ∧ listeners (db (final out)) = listeners (db st)
   ∧ inRoom (final out) = true
   ∧ roomId (final out) = id)
  ∧ ((isValidPathString (participant_path id (userIdRef st0)) = true →
      settles out0 = Rejected e)
     ∧ (∃ e', settles out0 = Rejected e')
     ∧ (∀ l, l ∈ listeners (db (final out0)) → l ∈ listeners (db st0))
     ∧ (∀ fn, fn ∈ extra (final out0) → fn ∈ extra st0)
     ∧ inRoom (final out0) = true
     ∧ roomId (final out0) = id).
Proof.
  intros Hid out out0. split.
  - subst out.
    destruct (App_joinRoom_rejected_listeners r id now e disconnect st)
      as [He Hl].
    destruct (App_joinRoom_frame r id now (Fails e) disconnect st Hid)
      as (Hin & Hroom & _).
    split; [|by auto].
    intros Hv. by rewrite App_joinRoom_rejected.
  - subst out0.
    assert (∀ r (s : state (list cleanup_entry)), r_inRoom r = false →
      let o := Part000.joinRoom r id now removal (Fails e) disconnect s in
      (isValidPathString (participant_path id (userIdRef s)) = true →
       settles o = Rejected e)
      ∧ (∃ e', settles o = Rejected e')
      ∧ listeners (db (final o)) = listeners (db s)
      ∧ extra (final o) = extra s
      ∧ inRoom (final o) = true
      ∧ roomId (final o) = id) as Hcold.
    { intros r' s Hr'.
      destruct (Part000_joinRoom_cold r' id now removal (Fails e) disconnect
                  s Hid Hr') as (Hin & Hroom & _ & _ & _ & _ & Hcases).
      destruct Hcases as [(He & Hl & Hx)|(_ & [=] & _)].
      split; [|done].
      intros Hv. by rewrite Part000_joinRoom_rejected. }
    destruct (r_inRoom r) eqn:Hr.
    + rewrite Part000_joinRoom_leaves_first by done.
      destruct id as [|c id]; [done|]. cbn [is_empty].
      set (r' := Render (r_roomId r) false (r_localText r) (r_name r)).
      destruct (Hcold r' (final (Part000.leaveRoom r removal st0)) eq_refl)
        as (H1 & H2 & H3 & H4 & H5 & H6).
      rewrite Part000_leaveRoom_userIdRef in H1.
      destruct (Part000_leaveRoom_subset r removal st0) as [Hl Hx].
      split; [exact H1|]. split; [exact H2|].
      split; [by rewrite H3|]. split; [by rewrite H4|]. done.
    + destruct (Hcold r st0 Hr) as (H1 & H2 & H3 & H4 & H5 & H6).
      split; [exact H1|]. split; [exact H2|].
      split; [by rewrite H3|]. split; [by rewrite H4|]. done.
Qed.

Lemma joinRoom_presence_write_rejected_witness :
  let out := App.joinRoom (current sample_mount) (lit "r1") 1000
               (Fails (lit "PERMISSION_DENIED")) Succeeds sample_mount in
  let out0 := Part000.joinRoom (current sample_joined000) (lit "r2") 1000
                Succeeds (Fails (lit "PERMISSION_DENIED")) Succeeds
                sample_joined000 in
  settles out = Rejected (lit "PERMISSION_DENIED")
  ∧ listeners (db (final out)) = []
  ∧ roomId (final out) = lit "r1"
  ∧ settles out0 = Rejected (lit "PERMISSION_DENIED")
  ∧ inRoom (final out0) = true.
Proof.
  intros out out0.
  assert (lit "r1" ≠ []) as Hr1 by (vm_compute; discriminate).
  assert (lit "r2" ≠ []) as Hr2 by (vm_compute; discriminate).
  destruct (joinRoom_presence_write_rejected (current sample_mount)
              (lit "r1") 1000 (lit "PERMISSION_DENIED") Succeeds Succeeds
              sample_mount sample_mount000 Hr1)
    as [(H1 & _ & H2 & _ & H3) _].
  destruct (joinRoom_presence_write_rejected (current sample_joined000)
              (lit "r2") 1000 (lit "PERMISSION_DENIED") Succeeds Succeeds
              sample_mount sample_joined000 Hr2)
    as [_ (H4 & _ & _ & _ & H5 & _)].
  split; [apply H1; vm_compute; reflexivity|]. split; [exact H2|].
  split; [exact H3|].
  split; [apply H4; vm_compute; reflexivity|exact H5].
Defined.

(** C2, as stated, fails: after [joinRoom("r1")] on a freshly mounted
    component with the presence write rejected, the promise is rejected but
    the joined flag is true, not false: the session has not returned to
    idle. *)
Lemma failed_join_stays_joined :
  let out := App.joinRoom (current sample_mount) (lit "r1") 1000
               (Fails (lit "PERMISSION_DENIED")) Succeeds sample_mount in
  settles out = Rejected (lit "PERMISSION_DENIED")
  ∧ inRoom (final out) = true
  ∧ roomId (final out) = lit "r1"
  ∧ ¬ (inRoom (final out) = false).
Proof. vm_compute. repeat split; try reflexivity. discriminate. Qed.

(** ** ListenerRegistry and the leave transition *)

(** C3 does not hold of App.jsx.  There, [joinRoom("r1")] on a freshly
    mounted component followed by [leaveRoom()] from the page ends idle
    ([inRoom] false, [roomId] empty) with the three listeners the join
    registered still active, the participants and messages subscriptions
    among them: [leaveRoom] releases nothing. *)
Theorem App_leaveRoom_orphans_subscriptions :
  let left := final (App.leaveRoom (current sample_joined) Succeeds
                       sample_joined) in
  inRoom left = false
  ∧ roomId left = []
  ∧ listeners (db sample_joined) = room_listeners (lit "r1") 0
  ∧ listeners (db left) = room_listeners (lit "r1") 0
  ∧ listeners_of_room (lit "r1") (db left) = room_listeners (lit "r1") 0.
Proof. vm_compute. repeat split; reflexivity. Qed.

(** The part_000 variant does what C3 says.  Along every run, a
    [leaveRoom] from the page of a joined session closes every
    subscription: no listener is left and [cleanupRef] is empty. *)
Lemma Part000_leaveRoom_no_orphans
    (st : state (list cleanup_entry)) (removal : outcome) :
  Part000.reachable st → inRoom st = true → roomId st ≠ [] →
  let left := final (Part000.leaveRoom (current st) removal st) in
  listeners (db left) = [] ∧ extra left = [] ∧ inRoom left = false.
Proof.
  intros Hreach H1 H2 left.
  destruct (Part000_reachable_registered st Hreach) as [Hreg Hf].
  destruct (Part000_leaveRoom_releases (current st) removal st H1 H2 Hreg Hf)
    as [Hl He].
  split; [exact Hl|]. split; [exact He|].
  subst left. by rewrite Part000_leaveRoom_leaves.
Qed.

(** The release itself, from any state: it never throws, it empties
    [cleanupRef], each registered closure that does not throw has detached
    its listener whatever the other entries did, a second release in a row
    changes nothing, and so does a release with nothing registered. *)
Lemma Part000_runCleanup_tolerant (st : state (list cleanup_entry)) :
  settles (Part000.runCleanup st) = Fulfilled tt
  ∧ extra (final (Part000.runCleanup st)) = []
  ∧ (∀ l, l ∈ listeners (db st) →
          Closure (UnsubFn (l_handle l)) ∈ extra st →
          l_handle l ∉ faulty (db st) →
          l ∉ listeners (db (final (Part000.runCleanup st))))
  ∧ Part000.runCleanup (final (Part000.runCleanup st))
    = (Fulfilled tt, final (Part000.runCleanup st))
  ∧ (extra st = [] → Part000.runCleanup st = (Fulfilled tt, st)).
Proof.
  split; [by rewrite runCleanup_eq|]. split; [by rewrite runCleanup_eq|].
  split; [|split].
  - intros l Hl Hreg Hf Hin. apply runCleanup_closes in Hin as [_ Hin].
    apply Hin. by split.
  - apply runCleanup_idempotent.
  - apply runCleanup_nothing_registered.
Qed.

(** ** One active room *)

(** C4 does not hold of App.jsx.  There, [joinRoom("r1")] on a freshly
    mounted component followed by [joinRoom("r2")] performs no leave of
    "r1": no removal of the presence record is issued, and afterwards the
    three listeners of "r1" are still active next to the three of "r2", so
    that a message added to "r1" still enters [messages]. *)
Theorem App_rejoin_keeps_first_room_subscriptions :
  let second := final (App.joinRoom (current sample_joined) (lit "r2") 2000
                         Succeeds Succeeds sample_joined) in
  roomId second = lit "r2"
  ∧ listeners (db second)
    = room_listeners (lit "r1") 0 ++ room_listeners (lit "r2") 3
  ∧ listeners_of_room (lit "r1") (db second) = room_listeners (lit "r1") 0
  ∧ Forall (fun c => ∀ p, c ≠ CallRemove p) (calls (db second))
  ∧ messages
      (deliverChildAdded (messages_path (lit "r1"))
         (Snapshot (lit "m1") (Some sample_value)) second)
    = [message_of (lit "m1") sample_value].
Proof.
  vm_compute. repeat split; try reflexivity.
  repeat constructor; discriminate.
Qed.

Lemma sample_joined000_reachable : Part000.reachable sample_joined000.
Proof.
  eapply Part000.reachable_step; [apply Part000.reachable_mount|].
  apply Part000.step_joinRoom.
Qed.

(** part_000 has the leave-first step C4 asks for,
    [if (inRoom) { await leaveRoom(); }], and the [inRoom] it tests is the
    one of the closure [joinRoom] runs in.  Along every run, a successful
    [joinRoom(id)] from a closure that sees the session joined, with a room
    id input that is not empty, first leaves: every listener that was
    active is closed, so that the listeners are exactly the three of the
    room [id] when it completes, and the presence record it removes, when
    [ref] accepts the path, is the one under the room of that input.  The
    Create and Join buttons of such a render are disabled.  From a closure
    that sees [inRoom] false, as the closure of a render from before the
    join is, or one whose room id input is empty, nothing is left: the
    listeners that were active stay, next to the three of the room [id]. *)
Theorem Part000_joinRoom_leaves_first_by_closure
    (r : render) (st : state (list cleanup_entry)) (id : jsstring) (now : Z)
    (removal disconnect : outcome) :
  Part000.reachable st → id ≠ [] →
  isValidPathString (participant_path id (userIdRef st)) = true →
  let out := Part000.joinRoom r id now removal Succeeds disconnect st in
  settles out = Fulfilled tt
  ∧ roomId (final out) = id
  ∧ inRoom (final out) = true
  ∧ (r_inRoom r = true → r_roomId r ≠ [] →
     listeners (db (final out)) = room_listeners id (next_handle (db st))
     ∧ (isValidPathString (participant_path (r_roomId r) (userIdRef st))
        = true →
        CallRemove (participant_path (r_roomId r) (userIdRef st))
        ∈ calls (db (final out)))
     ∧ createDisabled r = true ∧ joinDisabled r = true)
  ∧ (r_inRoom r = false ∨ r_roomId r = [] →
     listeners (db (final out))
     = listeners (db st) ++ room_listeners id (next_handle (db st))).
Proof.
  intros Hreach Hid Hv out. subst out.
  destruct (Part000_reachable_registered st Hreach) as [Hreg Hf].
  assert (∀ r, r_inRoom r = false ∨ r_roomId r = [] →
    let out := Part000.joinRoom r id now removal Succeeds disconnect st in
    settles out = Fulfilled tt ∧ roomId (final out) = id
    ∧ inRoom (final out) = true
    ∧ listeners (db (final out))
      = listeners (db st) ++ room_listeners id (next_handle (db st)))
    as Hskip.
  { intros r' Hr'. destruct (r_inRoom r') eqn:Hin.
    - destruct Hr' as [[=]|Hroom].
      rewrite Part000_joinRoom_leaves_first by done.
      destruct id as [|c id]; [done|]. cbn [is_empty].
      rewrite Part000_leaveRoom_noop
        by (rewrite Hroom; apply orb_true_r).
      cbn [final snd].
      by destruct (Part000_joinRoom_subscribes
                     (Render (r_roomId r') false (r_localText r')
                        (r_name r'))
                     (c :: id) now removal disconnect st Hid eq_refl Hv)
        as (? & ? & _ & _ & ? & ?).
    - by destruct (Part000_joinRoom_subscribes r' id now removal disconnect
                     st Hid Hin Hv) as (? & ? & _ & _ & ? & ?). }
  destruct (r_inRoom r) eqn:Hin.
  - destruct (decide (r_roomId r = [])) as [Hroom|Hroom].
    + destruct (Hskip r (or_intror Hroom)) as (H1 & H2 & H3 & H4).
      split; [exact H1|]. split; [exact H2|]. split; [exact H3|].
      split; [by intros _ []|]. by intros _.
    + destruct (Part000_leaveRoom_releases r removal st Hin Hroom Hreg Hf)
        as [Hl _].
      rewrite Part000_joinRoom_leaves_first by done.
      destruct id as [|c id]; [done|]. cbn [is_empty].
      set (pre := final (Part000.leaveRoom r removal st)) in *.
      assert (userIdRef pre = userIdRef st) as Hu
        by apply Part000_leaveRoom_userIdRef.
      assert (next_handle (db pre) = next_handle (db st)
              ∧ (isValidPathString
                   (participant_path (r_roomId r) (userIdRef st)) = true →
                 CallRemove (participant_path (r_roomId r) (userIdRef st))
                 ∈ calls (db pre))) as [Hnext Hcall].
      { subst pre. rewrite Part000_leaveRoom_leaves by done.
        cbn [final snd db].
        destruct (isValidPathString
                    (participant_path (r_roomId r) (userIdRef st))).
        - split; [reflexivity|]. intros _.
          cbn [detach log_call calls]. apply elem_of_app. right. left.
        - split; [reflexivity|]. intros [=]. }
      set (r' := Render (r_roomId r) false (r_localText r) (r_name r)).
      assert (isValidPathString (participant_path (c :: id) (userIdRef pre))
              = true) as Hv' by (by rewrite Hu).
      destruct (Part000_joinRoom_subscribes r' (c :: id) now removal
                  disconnect pre Hid eq_refl Hv')
        as (Hs & Hls & _ & _ & Hjoined & Hroom').
      split; [exact Hs|]. split; [exact Hroom'|]. split; [exact Hjoined|].
      split; [|by intros [[=]|?]].
      intros _ _. split; [by rewrite Hls, Hl, Hnext|].
      split; [|split].
      * intros Hrm.
        assert (∀ c0, c0 ∈ calls (db pre) →
                  c0 ∈ calls (db (final (Part000.joinRoom r' (c :: id) now
                                           removal Succeeds disconnect pre))))
          as Hkeep.
        { intros c0 Hc0. destruct (valid_join_paths _ _ Hv') as (? & ? & ?).
          unfold Part000.joinRoom. subst r'. cbn [r_inRoom is_empty].
          async_run. refs_known.
          destruct disconnect; async_run; rewrite ?elem_of_app; auto. }
        apply Hkeep, Hcall, Hrm.
      * unfold createDisabled. exact Hin.
      * unfold joinDisabled. by rewrite Hin.
  - destruct (Hskip r (or_introl Hin)) as (H1 & H2 & H3 & H4).
    split; [exact H1|]. split; [exact H2|]. split; [exact H3|].
    split; [by intros [=]|]. by intros _.
Qed.

Lemma Part000_joinRoom_leaves_first_by_closure_witness :
  let rejoined := Part000.joinRoom (current sample_joined000) (lit "r2") 2000
                    Succeeds Succeeds Succeeds sample_joined000 in
  let stale := Part000.joinRoom (current sample_mount000) (lit "r2") 2000
                 Succeeds Succeeds Succeeds sample_joined000 in
  inRoom sample_joined000 = true
  ∧ listeners (db sample_joined000) = room_listeners (lit "r1") 0
  ∧ listeners (db (final rejoined)) = room_listeners (lit "r2") 3
  ∧ CallRemove (lit "rooms/r1/participants/u1") ∈ calls (db (final rejoined))
  ∧ listeners (db (final stale))
    = room_listeners (lit "r1") 0 ++ room_listeners (lit "r2") 3.
Proof.
  intros rejoined stale.
  assert (lit "r2" ≠ []) as Hid by (vm_compute; discriminate).
  assert (isValidPathString
            (participant_path (lit "r2") (userIdRef sample_joined000))
          = true) as Hv by (vm_compute; reflexivity).
  destruct (Part000_joinRoom_leaves_first_by_closure
              (current sample_joined000) sample_joined000 (lit "r2") 2000
              Succeeds Succeeds sample_joined000_reachable Hid Hv)
    as (_ & _ & _ & H1 & _).
  destruct (Part000_joinRoom_leaves_first_by_closure
              (current sample_mount000) sample_joined000 (lit "r2") 2000
              Succeeds Succeeds sample_joined000_reachable Hid Hv)
    as (_ & _ & _ & _ & H2).
  destruct H1 as (H1 & H1' & _); [reflexivity|vm_compute; discriminate|].
  split; [reflexivity|]. split; [vm_compute; reflexivity|].
  split; [exact H1|]. split; [apply H1'; vm_compute; reflexivity|].
  etrans; [apply H2; by left|]. vm_compute. reflexivity.
Defined.

(** * Further properties of the code *)

(** ** [trim], as the functions use it *)

Lemma trimStart_suffix (s : jsstring) : trimStart s `suffix_of` s.
Proof.
  induction s as [|d s IH]; simpl; [done|].
  destruct (is_white_space d); [by apply suffix_cons_r|done].
Qed.

Lemma trimStart_fixed (s : jsstring) :
  (∀ c t, s = c :: t → is_white_space c = false) → trimStart s = s.
Proof.
  destruct s as [|c t]; [done|]. intros H. simpl.
  by rewrite (H c t eq_refl).
Qed.

Lemma trimStart_idempotent (s : jsstring) :
  trimStart (trimStart s) = trimStart s.
Proof.
  apply trimStart_fixed. intros c t H. by apply trimStart_head in H.
Qed.

Lemma trimEnd_prefix (s : jsstring) : trimEnd s `prefix_of` s.
Proof.
  unfold trimEnd. destruct (trimStart_suffix (rev s)) as [k Hk].
  exists (rev k). apply (f_equal (@rev N)) in Hk.
  rewrite rev_involutive, rev_app_distr in Hk. exact Hk.
Qed.

(** The first and the last code unit of a trimmed string are not white
    space. *)
Lemma trim_head (s : jsstring) (c : N) (t : jsstring) :
  trim s = c :: t → is_white_space c = false.
Proof.
  unfold trim. intros H.
  destruct (trimEnd_prefix (trimStart s)) as [k Hk].
  rewrite H in Hk. simpl in Hk. by apply trimStart_head in Hk.
Qed.

Lemma trim_last (s : jsstring) (c : N) :
  last (trim s) = Some c → is_white_space c = false.
Proof.
  unfold trim, trimEnd. intros H.
  destruct (trimStart (rev (trimStart s))) as [|d t] eqn:E; [done|].
  apply trimStart_head in E.
  change (rev (d :: t)) with (rev t ++ [d]) in H.
  rewrite last_snoc in H. congruence.
Qed.

Lemma trimEnd_fixed (s : jsstring) :
  (∀ c, last s = Some c → is_white_space c = false) → trimEnd s = s.
Proof.
  intros H. unfold trimEnd. rewrite trimStart_fixed; [apply rev_involutive|].
  intros c t E. apply H. apply (f_equal (@rev N)) in E.
  rewrite rev_involutive in E. rewrite E.
  change (rev (c :: t)) with (rev t ++ [c]). apply last_snoc.
Qed.

Lemma trim_idempotent (s : jsstring) : trim (trim s) = trim s.
Proof.
  unfold trim at 1.
  rewrite (trimStart_fixed (trim s)) by apply trim_head.
  apply trimEnd_fixed, trim_last.
Qed.

Lemma trim_nonblank (s : jsstring) :
  is_empty (trim s) = false ↔ ¬ Forall (fun c => is_white_space c = true) s.
Proof.
  rewrite <- trim_empty_iff. by destruct (is_empty (trim s)).
Qed.

(** ** [sendMessage] of App.jsx *)

Lemma App_sendMessage_calls r generated now write (st : state unit) :
  sendDisabled r = false →
  isValidPathString (messages_path (r_roomId r)) = true →
  calls (db (final (App.sendMessage r generated now write st)))
  = calls (db st)
    ++ [CallPush (messages_path (r_roomId r)) generated;
        CallSet (messages_path (r_roomId r) ++ lit "/" ++ generated)
          (MessageValue
             {| v_fromId := userIdRef st; v_fromName := r_name r;
                v_text := trim (r_localText r); v_at := now |})].
Proof.
  unfold sendDisabled. intros H Hv.
  rewrite App_sendMessage_issued by done.
  destruct write; cbn [final snd with_localText with_db db calls log_call];
    by rewrite <- app_assoc.
Qed.

(** A send changes nothing but the typed text and the calls issued. *)
Lemma App_sendMessage_frame r generated now write (st : state unit) :
  let st' := final (App.sendMessage r generated now write st) in
  listeners (db st') = listeners (db st)
  ∧ inRoom st' = inRoom st
  ∧ roomRef st' = roomRef st
  ∧ messagesRef st' = messagesRef st
  ∧ participantsRef st' = participantsRef st
  ∧ userIdRef st' = userIdRef st.
Proof.
  destruct (App_sendMessage_cases r generated now write st)
    as [E|[E|(_ & _ & fd & s & _ & Hl & _ & _ & _ & E)]]; simpl;
    rewrite E; done.
Qed.

(** The Send button is enabled exactly when [sendMessage] from the same
    render passes its guard; whatever [sendMessage] then writes to the feed
    is a message under the room of the render, from the user of the
    component, whose text is not empty and has no white space at either
    end.  It writes nothing else but that message and its key. *)
Theorem App_sendMessage_writes_trimmed_text
    (r : render) (generated : jsstring) (now : Z) (write : outcome)
    (st : state unit) (c : feed_call) :
  c ∈ calls (db (final (App.sendMessage r generated now write st))) →
  c ∈ calls (db st)
  ∨ (sendDisabled r = false
     ∧ (c = CallPush (messages_path (r_roomId r)) generated
        ∨ ∃ v, c = CallSet (messages_path (r_roomId r) ++ lit "/" ++ generated)
                     (MessageValue v)
               ∧ v_fromId v = userIdRef st
               ∧ v_text v ≠ []
               ∧ trim (v_text v) = v_text v
               ∧ (∀ u t, v_text v = u :: t → is_white_space u = false)
               ∧ (∀ u, last (v_text v) = Some u → is_white_space u = false))).
Proof.
  destruct (sendDisabled r) eqn:E.
  - rewrite App_sendMessage_rejected by exact E. auto.
  - destruct (isValidPathString (messages_path (r_roomId r))) eqn:Hv;
      [|rewrite App_sendMessage_refused by done; auto].
    rewrite App_sendMessage_calls by done.
    rewrite elem_of_app, !elem_of_cons. intros [H|[H|[H|H]]]; [by left| | |].
    + right. split; [done|]. by left.
    + right. split; [done|]. right. eexists. split; [exact H|].
      cbn [v_fromId v_text]. split; [done|].
      apply orb_false_iff in E as [_ E].
      split; [by destruct (trim (r_localText r))|].
      split; [apply trim_idempotent|].
      split; [apply trim_head|apply trim_last].
    + inversion H.
Qed.

Lemma App_sendMessage_writes_trimmed_text_witness :
  let typed := with_localText (lit " hi ") sample_joined in
  let sent := final (App.sendMessage (current typed) (lit "k1") 1002
                       Succeeds typed) in
  let c := CallSet (lit "rooms/r1/messages/k1")
             (MessageValue {| v_fromId := lit "u1"; v_fromName := lit "ann";
                              v_text := lit "hi"; v_at := 1002 |}) in
  c ∈ calls (db sent) ∧ (c ∉ calls (db typed))
  ∧ sendDisabled (current typed) = false.
Proof.
  intros typed sent c.
  assert (c ∈ calls (db sent)) as Hin.
  { vm_compute. do 3 right. left. }
  assert (c ∉ calls (db typed)) as Hout.
  { vm_compute. intros H.
    repeat (apply elem_of_cons in H as [H|H]; [discriminate H|]).
    inversion H. }
  destruct (App_sendMessage_writes_trimmed_text (current typed) (lit "k1")
              1002 Succeeds typed c Hin) as [H|[H _]]; [contradiction|].
  split; [exact Hin|]. split; [exact Hout|exact H].
Defined.

(** When the awaited write of a message is rejected, that is, when [ref]
    has accepted the path of the room in the room id input, the [push] and
    the [set] were issued and the promise of the [set] is rejected,
    [sendMessage] of App.jsx is rejected with the same error.  When [ref]
    refuses the path, [sendMessage] is rejected before anything is issued.
    Either way the typed text stays in the input and [messages] is
    untouched. *)
Theorem App_sendMessage_write_rejected
    (r : render) (generated : jsstring) (now : Z) (e : error)
    (st : state unit) :
  sendDisabled r = false →
  let out := App.sendMessage r generated now (Fails e) st in
  (∃ e', settles out = Rejected e')
  ∧ localText (final out) = localText st
  ∧ messages (final out) = messages st
  ∧ (isValidPathString (messages_path (r_roomId r)) = true →
     settles out = Rejected e
     ∧ calls (db (final out))
       = calls (db st)
         ++ [CallPush (messages_path (r_roomId r)) generated;
             CallSet (messages_path (r_roomId r) ++ lit "/" ++ generated)
               (MessageValue
                  {| v_fromId := userIdRef st; v_fromName := r_name r;
                     v_text := trim (r_localText r); v_at := now |})])
  ∧ (isValidPathString (messages_path (r_roomId r)) = false →
     out = (Rejected (invalid_path (messages_path (r_roomId r))), st)).
Proof.
  intros H out. pose proof H as H'. unfold sendDisabled in H'.
  split; [|split; [|split; [apply App_sendMessage_messages|split]]].
  - subst out.
    destruct (isValidPathString (messages_path (r_roomId r))) eqn:Hv.
    + rewrite App_sendMessage_issued by done. eauto.
    + rewrite App_sendMessage_refused by done. eauto.
  - subst out.
    destruct (isValidPathString (messages_path (r_roomId r))) eqn:Hv.
    + by rewrite App_sendMessage_issued.
    + by rewrite App_sendMessage_refused.
  - intros Hv. subst out. split.
    + by rewrite App_sendMessage_issued.
    + by apply App_sendMessage_calls.
  - intros Hv. by apply App_sendMessage_refused.
Qed.

Lemma App_sendMessage_write_rejected_witness :
  let typed := with_localText (lit " hi ") sample_joined in
  let out := App.sendMessage (current typed) (lit "k1") 1002
               (Fails (lit "PERMISSION_DENIED")) typed in
  sendDisabled (current typed) = false
  ∧ settles out = Rejected (lit "PERMISSION_DENIED")
  ∧ localText (final out) = lit " hi ".
Proof.
  intros typed out.
  assert (sendDisabled (current typed) = false) as H
    by (vm_compute; reflexivity).
  destruct (App_sendMessage_write_rejected (current typed) (lit "k1") 1002
              (lit "PERMISSION_DENIED") typed H) as (_ & H2 & _ & H1 & _).
  split; [exact H|]. split; [|exact H2].
  apply H1. vm_compute. reflexivity.
Defined.

(** The way of a message, in App.jsx: a send from the page of a joined
    session whose messages subscription is on the room of the input leaves
    [messages] as it is; once [ref] has accepted the path of that room the
    last call issued is the write of the message under the generated key;
    when the client then reports the written value as a child added under
    that key, exactly one entry is appended, with that key as id and the
    trimmed text, and it counts as the user's own. *)
Theorem App_sent_message_comes_back
    (st : state unit) (generated : jsstring) (now : Z) :
  sendDisabled (current st) = false →
  messages_subscribed (messages_path (roomId st)) st →
  generated ∉ ids (messages st) →
  let v := {| v_fromId := userIdRef st; v_fromName := name st;
              v_text := trim (localText st); v_at := now |} in
  let sent := final (App.sendMessage (current st) generated now Succeeds st) in
  let back := deliverChildAdded (messages_path (roomId st))
                (Snapshot generated (Some v)) sent in
  (isValidPathString (messages_path (roomId st)) = true →
   last (calls (db sent))
   = Some (CallSet (messages_path (roomId st) ++ lit "/" ++ generated)
             (MessageValue v)))
  ∧ messages sent = messages st
  ∧ messages back = messages st ++ [message_of generated v]
  ∧ mine back (message_of generated v) = true.
Proof.
  intros Hen (l & Hl & Hls) Hfresh v sent back.
  assert (messages sent = messages st) as Hm
    by apply App_sendMessage_messages.
  destruct (App_sendMessage_frame (current st) generated now Succeeds st)
    as (Hlist & _ & _ & _ & _ & Hu).
  fold sent in Hlist, Hu.
  split; [|split; [exact Hm|]].
  - intros Hv.
    assert (calls (db sent)
            = calls (db st)
              ++ [CallPush (messages_path (roomId st)) generated;
                  CallSet (messages_path (roomId st) ++ lit "/" ++ generated)
                    (MessageValue v)]) as Hcalls
      by (subst sent; by rewrite App_sendMessage_calls).
    rewrite Hcalls.
    change [CallPush (messages_path (roomId st)) generated;
            CallSet (messages_path (roomId st) ++ lit "/" ++ generated)
              (MessageValue v)]
      with ([CallPush (messages_path (roomId st)) generated]
            ++ [CallSet (messages_path (roomId st) ++ lit "/" ++ generated)
                  (MessageValue v)]).
    rewrite app_assoc. apply last_snoc.
  - assert (existsb (listens (messages_path (roomId st)) ChildAddedEvent
                       MessagesCallback) (listeners (db sent)) = true) as Hex.
    { rewrite Hlist. apply existsb_exists. exists l.
      split; [by apply list_elem_of_In|exact Hls]. }
    subst back. rewrite deliverChildAdded_eq, Hex.
    cbn [messages with_messages userIdRef mine].
    rewrite Hm, (messageAdded_fresh _ v) by done.
    split; [reflexivity|].
    unfold mine, str_eqb. cbn [msg_fromId message_of v v_fromId userIdRef
      with_messages].
    rewrite Hu. by apply bool_decide_eq_true.
Qed.

Lemma App_sent_message_comes_back_witness :
  let typed := with_localText (lit " hi ") sample_joined in
  let v := {| v_fromId := lit "u1"; v_fromName := lit "ann";
              v_text := lit "hi"; v_at := 1002 |} in
  let sent := final (App.sendMessage (current typed) (lit "k1") 1002
                       Succeeds typed) in
  messages_subscribed (messages_path (roomId typed)) typed
  ∧ messages
      (deliverChildAdded (messages_path (roomId typed))
         (Snapshot (lit "k1") (Some v)) sent)
    = [message_of (lit "k1") v].
Proof.
  intros typed v sent.
  assert (messages_subscribed (messages_path (roomId typed)) typed) as Hsub.
  { exists (Build_listener 1 (messages_path (lit "r1")) ChildAddedEvent
              (Some 200) false MessagesCallback).
    split; [vm_compute; right; left|vm_compute; reflexivity]. }
  assert (sendDisabled (current typed) = false) as Hen
    by (vm_compute; reflexivity).
  assert (lit "k1" ∉ ids (messages typed)) as Hfresh
    by (vm_compute; inversion 1).
  destruct (App_sent_message_comes_back typed (lit "k1") 1002 Hen Hsub Hfresh)
    as (_ & _ & H & _).
  split; [exact Hsub|]. exact H.
Defined.

(** ** [createRoom] *)

(** When the awaited write of the room record is rejected, [createRoom] of
    App.jsx is rejected with the same error and [joinRoom] is never called:
    the generated id is in [roomId], but the session is not joined, nothing
    is subscribed and only that one write was issued. *)
Theorem App_createRoom_creation_rejected
    (r : render) (id : jsstring) (now joined : Z) (e : error)
    (presence disconnect : outcome) (st : state unit) :
  let out := App.createRoom r id now joined (Fails e) presence disconnect st in
  settles out = Rejected e
  ∧ roomId (final out) = id
  ∧ inRoom (final out) = inRoom st
  ∧ listeners (db (final out)) = listeners (db st)
  ∧ calls (db (final out))
    = calls (db st)
      ++ [CallSet (room_path id) (RoomValue {| createdAt := now |})].
Proof. repeat split; reflexivity. Qed.

(** Once the room record is written, [createRoom] of App.jsx is fulfilled
    whatever becomes of the [joinRoom] it starts without awaiting it.  When
    the presence write of that join is rejected, nobody is told: the
    session ends with [inRoom] true and no subscription.  When it succeeds,
    [ref] having accepted the path of the presence record, the three
    subscriptions of the new room are added.  When the generated id is
    empty, the join only alerts. *)
Theorem App_createRoom_hides_join_outcome
    (r : render) (id : jsstring) (now joined : Z)
    (presence disconnect : outcome) (st : state unit) :
  let out := App.createRoom r id now joined Succeeds presence disconnect st in
  settles out = Fulfilled tt
  ∧ (id ≠ [] → (∃ e, presence = Fails e) →
     inRoom (final out) = true ∧ roomId (final out) = id
     ∧ listeners (db (final out)) = listeners (db st))
  ∧ (id ≠ [] → presence = Succeeds →
     isValidPathString (participant_path id (userIdRef st)) = true →
     inRoom (final out) = true ∧ roomId (final out) = id
     ∧ listeners (db (final out))
       = listeners (db st) ++ room_listeners id (next_handle (db st)))
  ∧ (id = [] →
     inRoom (final out) = inRoom st
     ∧ listeners (db (final out)) = listeners (db st)
     ∧ effects (final out) = effects st ++ [Alert (lit "Enter room id")]).
Proof.
  intros out. subst out. rewrite App_createRoom_created.
  split; [reflexivity|]. cbn [final snd].
  set (st1 := with_db _ (with_roomId id st)). split; [|split].
  - intros Hid [e ->].
    destruct (App_joinRoom_frame r id joined (Fails e) disconnect st1 Hid)
      as (H1 & H2 & _).
    destruct (App_joinRoom_rejected_listeners r id joined e disconnect st1)
      as [_ H3].
    split; [exact H1|]. split; [exact H2|]. by rewrite H3.
  - intros Hid -> Hv.
    destruct (App_joinRoom_joined r id joined disconnect st1 Hid Hv)
      as (_ & H1 & H2 & H3 & _).
    split; [exact H2|]. split; [exact H3|]. by rewrite H1.
  - intros ->. rewrite App_joinRoom_empty_id. done.
Qed.

Lemma App_createRoom_hides_join_outcome_witness :
  let out := App.createRoom (current sample_mount) (lit "k3x9p2q") 1000 1001
               Succeeds (Fails (lit "PERMISSION_DENIED")) Succeeds
               sample_mount in
  settles out = Fulfilled tt
  ∧ inRoom (final out) = true
  ∧ listeners (db (final out)) = [].
Proof.
  intros out.
  destruct (App_createRoom_hides_join_outcome (current sample_mount)
              (lit "k3x9p2q") 1000 1001 (Fails (lit "PERMISSION_DENIED"))
              Succeeds sample_mount) as (H1 & H2 & _).
  destruct H2 as (H2 & _ & H3).
  - vm_compute. discriminate.
  - by eexists.
  - split; [exact H1|]. split; [exact H2|exact H3].
Defined.

(** ** [joinRoom] and [leaveRoom]: the best-effort calls *)

(** [onDisconnect(pRef).remove()] is best effort in [joinRoom] of App.jsx:
    when it throws, the join ends with the same listeners and the same
    [inRoom] and [roomId] as when it does not; in a join that gets that far
    ([ref] has accepted the path of the presence record and the presence
    write succeeds) the join still completes, with the three subscriptions,
    and only the hook is missing from the calls issued. *)
Theorem App_joinRoom_disconnect_hook_best_effort
    (r : render) (id : jsstring) (now : Z) (e : error) (st : state unit) :
  id ≠ [] →
  let with_hook := App.joinRoom r id now Succeeds Succeeds st in
  let without := App.joinRoom r id now Succeeds (Fails e) st in
  listeners (db (final without)) = listeners (db (final with_hook))
  ∧ inRoom (final without) = true
  ∧ roomId (final without) = id
  ∧ (isValidPathString (participant_path id (userIdRef st)) = true →
     settles without = Fulfilled tt
     ∧ listeners (db (final without))
       = listeners (db st) ++ room_listeners id (next_handle (db st))
     ∧ calls (db (final with_hook))
       = calls (db (final without))
         ++ [CallOnDisconnectRemove (participant_path id (userIdRef st))]).
Proof.
  intros Hid with_hook without. subst with_hook without.
  destruct (App_joinRoom_frame r id now Succeeds (Fails e) st Hid)
    as (H1 & H2 & _).
  split; [|split; [exact H1|split; [exact H2|]]].
  - destruct (isValidPathString (participant_path id (userIdRef st))) eqn:Hv.
    + by rewrite !App_joinRoom_listeners.
    + destruct (isValidPathString (room_path id)) eqn:Hr.
      * by rewrite !App_joinRoom_user_refused.
      * by rewrite !App_joinRoom_refused.
  - intros Hv.
    destruct (App_joinRoom_joined r id now (Fails e) st Hid Hv)
      as (H3 & H4 & _).
    split; [exact H3|]. split; [exact H4|].
    destruct (valid_join_paths _ _ Hv) as (Hr & Hm & Hp).
    destruct id as [|c id]; [done|].
    unfold App.joinRoom. async_run. refs_known. async_run. reflexivity.
Qed.

Lemma App_joinRoom_disconnect_hook_best_effort_witness :
  let without := App.joinRoom (current sample_mount) (lit "r1") 1000 Succeeds
                   (Fails (lit "unsupported")) sample_mount in
  settles without = Fulfilled tt
  ∧ listeners (db (final without)) = listeners (db sample_joined).
Proof.
  intros without.
  destruct (App_joinRoom_disconnect_hook_best_effort (current sample_mount)
              (lit "r1") 1000 (lit "unsupported") sample_mount)
    as (H2 & _ & _ & H1).
  - vm_compute. discriminate.
  - destruct H1 as (H1 & _); [vm_compute; reflexivity|].
    split; [exact H1|exact H2].
Defined.

(** The removal of the presence record is best effort in [leaveRoom], in
    the three variants: when it is rejected, the leave is fulfilled all the
    same and ends in the very state it reaches when the removal succeeds. *)
Theorem leaveRoom_removal_failure_swallowed
    (r : render) (e : error) (st : state unit)
    (st0 : state (list cleanup_entry))
    (st1 : state (option Part001.cleanup_closure)) :
  App.leaveRoom r (Fails e) st = App.leaveRoom r Succeeds st
  ∧ Part000.leaveRoom r (Fails e) st0 = Part000.leaveRoom r Succeeds st0
  ∧ Part001.leaveRoom r (Fails e) st1 = Part001.leaveRoom r Succeeds st1
  ∧ settles (App.leaveRoom r (Fails e) st) = Fulfilled tt
  ∧ settles (Part000.leaveRoom r (Fails e) st0) = Fulfilled tt
  ∧ settles (Part001.leaveRoom r (Fails e) st1) = Fulfilled tt.
Proof.
  destruct (negb (r_inRoom r) || is_empty (r_roomId r)) eqn:E.
  - rewrite !App_leaveRoom_noop, !Part000_leaveRoom_noop by done.
    unfold Part001.leaveRoom. rewrite E. done.
  - apply orb_false_iff in E as [E1 E2]. apply negb_false_iff in E1.
    assert (r_roomId r ≠ []) as E3 by (by destruct (r_roomId r)).
    rewrite !App_leaveRoom_leaves, !Part000_leaveRoom_leaves by done.
    split; [done|]. split; [done|].
    assert (Part001.leaveRoom r (Fails e) st1
            = Part001.leaveRoom r Succeeds st1) as H1.
    { unfold Part001.leaveRoom. rewrite E1.
      destruct (r_roomId r) as [|c s]; [done|]. async_run.
      by destruct (isValidPathString _). }
    split; [exact H1|]. split; [done|]. split; [done|].
    unfold Part001.leaveRoom. rewrite E1.
    destruct (r_roomId r) as [|c s]; [done|]. async_run.
    destruct (isValidPathString _); async_run;
      by destruct (Part001.call_stored_cleanup _) as [[[]|] ?].
Qed.

(** ** The room id input and the functions that read [roomId] *)

(** [leaveRoom] and [sendMessage] address the room named by the [roomId]
    state, which the room id input edits at any time, also while a room is
    joined.  In App.jsx, once the input of a joined session holds [v]: with
    [v] empty the Leave button is enabled but [leaveRoom] does nothing, so
    the session stays joined; with [v] not empty [leaveRoom] resets the
    session and, when [ref] accepts the path, removes the presence record
    under the room [v], whatever room was joined, while it removes nothing
    when [ref] refuses the path; [sendMessage] pushes under the room [v]
    when [ref] accepts the path and is rejected, with nothing issued, when
    it does not. *)
Theorem App_roomId_input_redirects
    (st : state unit) (v generated : jsstring) (now : Z)
    (removal write : outcome) :
  inRoom st = true →
  let edited := with_roomId v st in
  let left := final (App.leaveRoom (current edited) removal edited) in
  leaveDisabled (current edited) = false
  ∧ (v = [] →
     App.leaveRoom (current edited) removal edited = (Fulfilled tt, edited))
  ∧ (v ≠ [] →
     inRoom left = false ∧ roomId left = []
     ∧ (isValidPathString (participant_path v (userIdRef st)) = true →
        calls (db left)
        = calls (db st) ++ [CallRemove (participant_path v (userIdRef st))])
     ∧ (isValidPathString (participant_path v (userIdRef st)) = false →
        calls (db left) = calls (db st)))
  ∧ (sendDisabled (current edited) = false →
     (isValidPathString (messages_path v) = true →
      ∃ c, calls (db (final (App.sendMessage (current edited) generated now
                               write edited)))
           = calls (db st) ++ [CallPush (messages_path v) generated; c])
     ∧ (isValidPathString (messages_path v) = false →
        App.sendMessage (current edited) generated now write edited
        = (Rejected (invalid_path (messages_path v)), edited))).
Proof.
  intros Hin edited left. split; [|split; [|split]].
  - unfold leaveDisabled. cbn. by rewrite Hin.
  - intros ->. apply App_leaveRoom_noop. cbn. apply orb_true_r.
  - intros Hv. subst left.
    rewrite (App_leaveRoom_leaves (current edited) removal edited Hin Hv).
    cbn [final snd inRoom roomId db current r_roomId edited with_roomId
         userIdRef].
    split; [done|]. split; [done|]. split; by intros ->.
  - intros Hs. split; intros Hv.
    + eexists. rewrite App_sendMessage_calls by done. reflexivity.
    + by apply App_sendMessage_refused.
Qed.

Lemma App_roomId_input_redirects_witness :
  let edited := with_roomId (lit "zz") sample_joined in
  let astray := with_roomId (lit "a.b") sample_joined in
  inRoom sample_joined = true
  ∧ roomId sample_joined = lit "r1"
  ∧ calls (db (final (App.leaveRoom (current edited) Succeeds edited)))
    = calls (db sample_joined)
      ++ [CallRemove (lit "rooms/zz/participants/u1")]
  ∧ calls (db (final (App.leaveRoom (current astray) Succeeds astray)))
    = calls (db sample_joined)
  ∧ inRoom (final (App.leaveRoom (current astray) Succeeds astray)) = false.
Proof.
  intros edited astray.
  assert (inRoom sample_joined = true) as Hin by reflexivity.
  destruct (App_roomId_input_redirects sample_joined (lit "zz") (lit "k1")
              1002 Succeeds Succeeds Hin) as (_ & _ & H & _).
  destruct (App_roomId_input_redirects sample_joined (lit "a.b") (lit "k1")
              1002 Succeeds Succeeds Hin) as (_ & _ & H' & _).
  destruct H as (_ & _ & H & _); [vm_compute; discriminate|].
  destruct H' as (H1 & _ & _ & H2); [vm_compute; discriminate|].
  split; [exact Hin|]. split; [vm_compute; reflexivity|].
  split; [apply H; vm_compute; reflexivity|].
  split; [apply H2; vm_compute; reflexivity|exact H1].
Defined.

(** ** Invariants of App.jsx *)

Lemma App_createRoom_listeners r id now joined creation presence disconnect
    (st : state unit) :
  listeners (db st)
  `prefix_of` listeners (db (final (App.createRoom r id now joined creation
                                      presence disconnect st))).
Proof.
  destruct creation as [|e].
  - rewrite App_createRoom_created. cbn [final snd].
    destruct id as [|c id]; [by rewrite App_joinRoom_empty_id|].
    by destruct (App_joinRoom_frame r (c :: id) joined presence disconnect
                   (with_db
                      (log_call
                         (CallSet (room_path (c :: id))
                            (RoomValue {| createdAt := now |}))
                         (db st))
                      (with_roomId (c :: id) st))) as (_ & _ & _ & H).
  - by rewrite App_createRoom_rejected.
Qed.

(** Nothing in App.jsx ever unsubscribes: whichever of [createRoom],
    [joinRoom], [leaveRoom] and [sendMessage] runs, from whatever closure
    and with whatever outcome, whichever notification is handled or input
    edited, the listeners registered before are all still registered after,
    in the same order. *)
Theorem App_listeners_never_released (st st' : state unit) :
  App.step st st' → listeners (db st) `prefix_of` listeners (db st').
Proof.
  destruct 1.
  - apply App_createRoom_listeners.
  - destruct id as [|c id]; [done|].
    by destruct (App_joinRoom_frame r (c :: id) now presence disconnect st)
      as (_ & _ & _ & H).
  - by rewrite App_leaveRoom_listeners.
  - destruct (App_sendMessage_frame r generated now write st) as [H _].
    by rewrite H.
  - by rewrite deliverChildAdded_db.
  - by rewrite deliverParticipants_db.
  - done.
  - done.
  - done.
Qed.

Lemma App_listeners_never_released_witness :
  let left := final (App.leaveRoom (current sample_joined) Succeeds
                       sample_joined) in
  App.step sample_joined left
  ∧ listeners (db sample_joined) `prefix_of` listeners (db left).
Proof.
  intros left.
  assert (App.step sample_joined left) as H by apply App.step_leaveRoom.
  split; [exact H|]. exact (App_listeners_never_released _ _ H).
Defined.

Lemma refs_consistent_frame {X} (st st' : state X) :
  (inRoom st = true → inRoom st' = true) → roomRef st' = roomRef st →
  messagesRef st' = messagesRef st →
  participantsRef st' = participantsRef st →
  refs_consistent st → refs_consistent st'.
Proof.
  unfold refs_consistent. intros Hin -> -> -> [H|[H1 H2]]; [by left|].
  right. split; [by apply Hin|done].
Qed.

Lemma refs_consistent_joined {X} (st : state X) (id : jsstring) :
  id ≠ [] → isValidPathString (room_path id) = true → inRoom st = true →
  roomRef st = Some (room_path id) →
  messagesRef st = Some (messages_path id) →
  participantsRef st = Some (participants_path id) →
  refs_consistent st.
Proof. intros. right. split; [done|]. by exists id. Qed.

Lemma App_joinRoom_refs r id now presence disconnect (st : state unit) :
  refs_consistent st →
  refs_consistent (final (App.joinRoom r id now presence disconnect st)).
Proof.
  intros IH. destruct id as [|c id].
  { rewrite App_joinRoom_empty_id. by apply (refs_consistent_frame st). }
  destruct (App_joinRoom_cases r (c :: id) now presence disconnect st)
    as [[_ E]|[(Hr & _ & E)|[(Hv & e & _ & E)
        |(Hv & _ & _ & _ & Hin & _ & H1 & H2 & H3 & _)]]]; [done|..].
  - rewrite E. by apply (refs_consistent_frame st).
  - rewrite E. by apply (refs_consistent_joined _ (c :: id)).
  - rewrite E. destruct (valid_join_paths _ _ Hv) as (Hr & _).
    by apply (refs_consistent_joined _ (c :: id)).
  - destruct (valid_join_paths _ _ Hv) as (Hr & _).
    by apply (refs_consistent_joined _ (c :: id)).
Qed.

(** Along every run of App.jsx the three ref cells go together and are
    assigned only while the joined flag is set: they hold [null], all
    three, or the three locations of one and the same room, and then
    [inRoom] is true; so an idle session has [null] in the three cells.
    The converse does not hold: a [joinRoom] of a room whose path [ref]
    refuses ends with [inRoom] true and the cells as they were, [null] when
    the session was idle. *)
Theorem App_refs_set_only_while_joined (st : state unit) :
  App.reachable st →
  refs_consistent st
  ∧ (inRoom st = false →
     roomRef st = None ∧ messagesRef st = None ∧ participantsRef st = None)
  ∧ (∀ r id now presence disconnect,
       id ≠ [] → isValidPathString (room_path id) = false →
       let st' := final (App.joinRoom r id now presence disconnect st) in
       inRoom st' = true ∧ roomRef st' = roomRef st
       ∧ messagesRef st' = messagesRef st
       ∧ participantsRef st' = participantsRef st).
Proof.
  intros Hreach.
  assert (refs_consistent st) as Hrefs.
  { induction Hreach as [uid nm|st st' _ IH Hstep].
    - left. done.
    - destruct Hstep.
      + destruct creation as [|e].
        * rewrite App_createRoom_created. cbn [final snd].
          apply App_joinRoom_refs. by apply (refs_consistent_frame st).
        * rewrite App_createRoom_rejected.
          by apply (refs_consistent_frame st).
      + by apply App_joinRoom_refs.
      + destruct (negb (r_inRoom r) || is_empty (r_roomId r)) eqn:E.
        * by rewrite App_leaveRoom_noop.
        * apply orb_false_iff in E as [E1 E2]. apply negb_false_iff in E1.
          rewrite App_leaveRoom_leaves; [by left|done|].
          by destruct (r_roomId r).
      + destruct (App_sendMessage_frame r generated now write st)
          as (_ & H1 & H2 & H3 & H4 & _).
        apply (refs_consistent_frame st); try done. by rewrite H1.
      + rewrite deliverChildAdded_eq. by destruct (existsb _ _).
      + rewrite deliverParticipants_eq. by destruct (existsb _ _).
      + exact IH.
      + exact IH.
      + exact IH. }
  split; [exact Hrefs|]. split.
  - intros Hidle. destruct Hrefs as [H|[H _]]; [done|congruence].
  - intros r id now presence disconnect Hid Hv st'. subst st'.
    by rewrite App_joinRoom_refused.
Qed.

Lemma App_refs_set_only_while_joined_witness :
  let failed := final (App.joinRoom (current sample_mount) (lit "a.b") 1000
                         Succeeds Succeeds sample_mount) in
  App.reachable sample_joined ∧ refs_consistent sample_joined
  ∧ App.reachable sample_mount
  ∧ inRoom failed = true ∧ roomRef failed = None.
Proof.
  intros failed.
  assert (App.reachable sample_mount) as H0 by apply App.reachable_mount.
  assert (App.reachable sample_joined) as H.
  { eapply App.reachable_step; [exact H0|]. apply App.step_joinRoom. }
  destruct (App_refs_set_only_while_joined sample_joined H) as (H1 & _).
  destruct (App_refs_set_only_while_joined sample_mount H0) as (_ & _ & H2).
  destruct (H2 (current sample_mount) (lit "a.b") 1000%Z Succeeds Succeeds)
    as (H3 & H4 & _);
    [vm_compute; discriminate|vm_compute; reflexivity|].
  split; [exact H|]. split; [exact H1|]. split; [exact H0|].
  split; [exact H3|]. etrans; [exact H4|]. reflexivity.
Defined.

(** ** part_000: [sendMessage], and a join followed by a leave *)

(** [sendMessage] of part_000 swallows a rejected write, and only that.
    From a render outside a room it alerts and issues nothing; with a blank
    text it does nothing.  Past the guards, when [ref] accepts the path of
    the room in the room id input, it is fulfilled whatever becomes of the
    awaited write: when the write is rejected the error goes to the
    console and the typed text stays in the input.  The [push(ref(...))]
    stands before the [try]: when [ref] refuses the path, [sendMessage] is
    rejected, with nothing issued and nothing logged.  It never touches
    [messages]. *)
Theorem Part000_sendMessage_swallows_write_failure
    (r : render) (generated : jsstring) (now : Z) (write : outcome)
    (st : state (list cleanup_entry)) :
  let out := Part000.sendMessage r generated now write st in
  messages (final out) = messages st
  ∧ (r_inRoom r = false →
     out
     = (Fulfilled tt,
        with_effects
          (effects st ++ [Alert (lit "Join a room to send messages.")]) st))
  ∧ (r_inRoom r = true → is_empty (trim (r_localText r)) = true →
     out = (Fulfilled tt, st))
  ∧ (sendDisabled r = false →
     isValidPathString (messages_path (r_roomId r)) = true →
     settles out = Fulfilled tt
     ∧ calls (db (final out))
       = calls (db st)
         ++ [CallPush (messages_path (r_roomId r)) generated;
             CallSet (messages_path (r_roomId r) ++ lit "/" ++ generated)
               (MessageValue
                  {| v_fromId := userIdRef st; v_fromName := r_name r;
                     v_text := trim (r_localText r); v_at := now |})]
     ∧ (write = Succeeds →
        localText (final out) = [] ∧ effects (final out) = effects st)
     ∧ (∀ e, write = Fails e →
          localText (final out) = localText st
          ∧ effects (final out)
            = effects st ++ [ConsoleError (lit "sendMessage error:") e]))
  ∧ (sendDisabled r = false →
     isValidPathString (messages_path (r_roomId r)) = false →
     out = (Rejected (invalid_path (messages_path (r_roomId r))), st)).
Proof.
  intros out. subst out.
  split; [by destruct (Part000_sendMessage_frame r generated now write st)
            as (_ & _ & _ & ?)|].
  unfold Part000.sendMessage, sendDisabled.
  destruct (r_inRoom r); cbn [negb orb].
  - destruct (is_empty (trim (r_localText r))).
    + split; [done|]. split; [done|]. split; done.
    + split; [done|]. split; [done|]. split; intros _ Hv.
      * async_run. refs_known.
        destruct write as [|e]; async_run; rewrite <- app_assoc;
          (split; [done|]); (split; [done|]); split; try done.
        by intros e' [= <-].
      * async_run. refs_known. reflexivity.
  - split; [done|]. split; [done|]. split; done.
Qed.

Lemma Part000_sendMessage_swallows_write_failure_witness :
  let typed := with_localText (lit " hi ") sample_joined000 in
  let astray := with_roomId (lit "a.b") typed in
  let out := Part000.sendMessage (current typed) (lit "k1") 1002
               (Fails (lit "PERMISSION_DENIED")) typed in
  sendDisabled (current typed) = false
  ∧ settles out = Fulfilled tt
  ∧ localText (final out) = lit " hi "
  ∧ effects (final out)
    = [ConsoleError (lit "sendMessage error:") (lit "PERMISSION_DENIED")]
  ∧ settles (Part000.sendMessage (current astray) (lit "k1") 1002 Succeeds
               astray)
    = Rejected (invalid_path (lit "rooms/a.b/messages")).
Proof.
  intros typed astray out.
  assert (sendDisabled (current typed) = false) as H
    by (vm_compute; reflexivity).
  assert (sendDisabled (current astray) = false) as H'
    by (vm_compute; reflexivity).
  destruct (Part000_sendMessage_swallows_write_failure (current typed)
              (lit "k1") 1002 (Fails (lit "PERMISSION_DENIED")) typed)
    as (_ & _ & _ & H1 & _).
  destruct (Part000_sendMessage_swallows_write_failure (current astray)
              (lit "k1") 1002 Succeeds astray) as (_ & _ & _ & _ & H2).
  destruct H1 as (H1 & _ & _ & H3); [exact H|vm_compute; reflexivity|].
  destruct (H3 _ eq_refl) as [H4 H5].
  split; [exact H|]. split; [exact H1|]. split; [exact H4|].
  split; [exact H5|].
  rewrite H2; [|exact H'|vm_compute; reflexivity].
  vm_compute. reflexivity.
Defined.






(** In part_000, once a leave from the page of a joined session is done,
    late notifications change nothing: whatever location they are for, no
    listener is left to run a callback, so [messages] and [participants]
    stay empty. *)
Theorem Part000_after_leave_notifications_ignored
    (st : state (list cleanup_entry)) (removal : outcome)
    (path : jsstring) (snap : snapshot message_value)
    (psnap : snapshot (gmap jsstring participant)) :
  Part000.reachable st → inRoom st = true → roomId st ≠ [] →
  let left := final (Part000.leaveRoom (current st) removal st) in
  deliverChildAdded path snap left = left
  ∧ deliverParticipants path psnap left = left
  ∧ messages left = [] ∧ participants left = ∅.
Proof.
  intros Hreach Hin Hroom left.
  destruct (Part000_leaveRoom_no_orphans st removal Hreach Hin Hroom)
    as (Hl & _ & _).
  fold left in Hl.
  split; [|split].
  - rewrite deliverChildAdded_eq, Hl. done.
  - rewrite deliverParticipants_eq, Hl. done.
  - subst left. by rewrite Part000_leaveRoom_leaves.
Qed.

Lemma Part000_after_leave_notifications_ignored_witness :
  let left := final (Part000.leaveRoom (current sample_joined000) Succeeds
                       sample_joined000) in
  inRoom sample_joined000 = true
  ∧ deliverChildAdded (messages_path (lit "r1"))
      (Snapshot (lit "m1") (Some sample_value)) left = left.
Proof.
  intros left.
  assert (roomId sample_joined000 ≠ []) as Hroom
    by (vm_compute; discriminate).
  destruct (Part000_after_leave_notifications_ignored sample_joined000
              Succeeds (messages_path (lit "r1"))
              (Snapshot (lit "m1") (Some sample_value)) sample_null
              sample_joined000_reachable eq_refl Hroom) as [H _].
  split; [reflexivity|exact H].
Defined.

Lemma Part000_runCleanup_tolerant_witness :
  let l0 := {| l_handle := 0; l_path := participants_path (lit "r1");
               l_event := ValueEvent; l_limitToLast := None;
               l_onlyOnce := false; l_callback := ParticipantsCallback |} in
  l0 ∈ listeners (db sample_faulty000)
  ∧ faulty (db sample_faulty000) = [1]
  ∧ settles (Part000.runCleanup sample_faulty000) = Fulfilled tt
  ∧ (l0 ∉ listeners (db (final (Part000.runCleanup sample_faulty000)))).
Proof.
  intros l0.
  destruct (Part000_runCleanup_tolerant sample_faulty000) as (H1 & _ & H2 & _).
  assert (l0 ∈ listeners (db sample_faulty000)) as Hin
    by (vm_compute; left).
  split; [exact Hin|]. split; [reflexivity|]. split; [exact H1|].
  apply H2; [exact Hin|vm_compute; left|].
  vm_compute. intros H. apply elem_of_cons in H as [H|H]; [discriminate H|].
  inversion H.
Defined.

(** ** part_001: the stored cleanup closure *)

Section Part001Functions.
Implicit Type st : state (option Part001.cleanup_closure).

Lemma with_db_id {X} (s : state X) : with_db (db s) s = s.
Proof. by destruct s. Qed.

Lemma unsub_detach_faulty u fd : faulty (unsub_detach u fd) = faulty fd.
Proof. by destruct u. Qed.

Lemma elem_of_unsub_detach u fd l :
  l ∈ listeners (unsub_detach u fd) ↔
  l ∈ listeners fd ∧ UnsubFn (l_handle l) ≠ u.
Proof.
  destruct u as [h|]; simpl.
  - rewrite list_elem_of_filter. split; intros [H1 H2]; split; try done;
      congruence.
  - split; [by intros H|by intros [H _]].
Qed.

Lemma elem_of_closure_detach c fd l :
  l ∈ listeners (closure_detach c fd) ↔
  l ∈ listeners fd
  ∧ UnsubFn (l_handle l)
    ∉ [Part001.c_participants c; Part001.c_messages c; Part001.c_room c].
Proof.
  unfold closure_detach. rewrite !elem_of_unsub_detach.
  rewrite !not_elem_of_cons. split.
  - intros [[[H0 H1] H2] H3]. split; [done|]. split; [done|].
    split; [done|]. split; [done|apply not_elem_of_nil].
  - intros (H0 & H1 & H2 & H3 & _). done.
Qed.

(** One guarded call of an unsubscribe value, in its [try], over a client
    without faulty functions. *)
Lemma try_call_unsub_healthy {X} (u : unsub_value) (s : state X) :
  faulty (db s) = [] →
  try_catch (call_unsub u) s
  = (Fulfilled tt, with_db (unsub_detach u (db s)) s).
Proof.
  intros Hf. destruct u as [h|]; unfold try_catch, call_unsub.
  - unfold fb_unsubscribe. rewrite Hf. reflexivity.
  - simpl. by rewrite with_db_id.
Qed.

Lemma run_cleanup_healthy c st :
  faulty (db st) = [] →
  Part001.run_cleanup c st
  = (Fulfilled tt, with_db (closure_detach c (db st)) st).
Proof.
  intros Hf. unfold Part001.run_cleanup, closure_detach.
  unfold mbind, async_mbind, async_bind.
  rewrite try_call_unsub_healthy by done.
  rewrite try_call_unsub_healthy
    by (cbn [db with_db]; by rewrite unsub_detach_faulty).
  rewrite try_call_unsub_healthy
    by (cbn [db with_db]; by rewrite !unsub_detach_faulty).
  reflexivity.
Qed.

Lemma Part001_joinRoom_refused r id now presence disconnect st :
  id ≠ [] → isValidPathString (room_path id) = false →
  Part001.joinRoom r id now presence disconnect st
  = (Rejected (invalid_path (room_path id)),
     with_inRoom true (with_roomId id st)).
Proof.
  intros H Hv. destruct id as [|c id]; [done|].
  unfold Part001.joinRoom. async_run. refs_known. reflexivity.
Qed.

Lemma Part001_joinRoom_user_refused r id now presence disconnect st :
  id ≠ [] → isValidPathString (room_path id) = true →
  isValidPathString (participant_path id (userIdRef st)) = false →
  Part001.joinRoom r id now presence disconnect st
  = (Rejected (invalid_path (participant_path id (userIdRef st))),
     State id true (messages st) (participants st) (localText st) (name st)
       (userIdRef st) (Some (room_path id)) (Some (messages_path id))
       (Some (participants_path id)) (effects st) (db st) None).
Proof.
  intros H Hr Hv. destruct (room_paths_alike id) as [Hm Hp].
  rewrite Hr in Hm, Hp.
  destruct id as [|c id]; [done|].
  unfold Part001.joinRoom. async_run. refs_known. reflexivity.
Qed.

Lemma Part001_joinRoom_rejected r id now e disconnect st :
  id ≠ [] →
  isValidPathString (participant_path id (userIdRef st)) = true →
  Part001.joinRoom r id now (Fails e) disconnect st
  = (Rejected e,
     State id true (messages st) (participants st) (localText st) (name st)
       (userIdRef st) (Some (room_path id)) (Some (messages_path id))
       (Some (participants_path id)) (effects st)
       (log_call
          (CallSet (participant_path id (userIdRef st))
             (ParticipantValue
                {| p_id := userIdRef st; p_name := r_name r;
                   p_joinedAt := now |}))
          (db st))
       None).
Proof.
  intros H Hv. destruct (valid_join_paths _ _ Hv) as (Hr & Hm & Hp).
  destruct id as [|c id]; [done|].
  unfold Part001.joinRoom. async_run. refs_known. reflexivity.
Qed.

Lemma Part001_joinRoom_subscribes r id now disconnect st :
  id ≠ [] →
  isValidPathString (participant_path id (userIdRef st)) = true →
  let out := Part001.joinRoom r id now Succeeds disconnect st in
  let h := next_handle (db st) in
  settles out = Fulfilled tt
  ∧ listeners (db (final out)) = listeners (db st) ++ room_listeners id h
  ∧ extra (final out)
    = Some (Part001.Cleanup (UnsubFn h) (UnsubFn (S h)) (UnsubFn (S (S h))))
  ∧ roomRef (final out) = Some (room_path id)
  ∧ faulty (db (final out)) = faulty (db st)
  ∧ inRoom (final out) = true
  ∧ roomId (final out) = id.
Proof.
  intros H Hv. destruct (valid_join_paths _ _ Hv) as (Hr & Hm & Hp).
  destruct id as [|c id]; [done|].
  unfold Part001.joinRoom. async_run. refs_known.
  destruct disconnect; async_run; rewrite <- !app_assoc; done.
Qed.

(** Whatever becomes of a join of a non-empty id: [inRoom] is true and
    [roomId] is the id afterwards, and either nothing was subscribed, or
    the presence write succeeded and the three listeners were subscribed
    and their closure stored. *)
Lemma Part001_joinRoom_frame r id now presence disconnect st :
  id ≠ [] →
  let out := Part001.joinRoom r id now presence disconnect st in
  inRoom (final out) = true ∧ roomId (final out) = id
  ∧ faulty (db (final out)) = faulty (db st)
  ∧ (listeners (db (final out)) = listeners (db st)
     ∨ (isValidPathString (participant_path id (userIdRef st)) = true
        ∧ presence = Succeeds)).
Proof.
  intros H out. subst out.
  destruct (isValidPathString (room_path id)) eqn:Hr.
  - destruct (isValidPathString (participant_path id (userIdRef st))) eqn:Hv.
    + destruct presence as [|e].
      * destruct (Part001_joinRoom_subscribes r id now disconnect st H Hv)
          as (_ & _ & _ & _ & Hf & Hin & Hroom).
        repeat (split; [done|]). by right.
      * rewrite Part001_joinRoom_rejected by done.
        repeat (split; [done|]). by left.
    + rewrite Part001_joinRoom_user_refused by done.
      repeat (split; [done|]). by left.
  - rewrite Part001_joinRoom_refused by done.
    repeat (split; [done|]). by left.
Qed.

Lemma Part001_leaveRoom_noop r removal st :
  negb (r_inRoom r) || is_empty (r_roomId r) = true →
  Part001.leaveRoom r removal st = (Fulfilled tt, st).
Proof. intros H. unfold Part001.leaveRoom. by rewrite H. Qed.

Lemma Part001_leaveRoom_leaves r removal st :
  r_inRoom r = true → r_roomId r ≠ [] → faulty (db st) = [] →
  Part001.leaveRoom r removal st
  = (Fulfilled tt,
     State [] false [] ∅ (localText st) (name st) (userIdRef st)
       None None None (effects st)
       (match roomRef st, extra st with
        | Some _, Some c => closure_detach c
        | _, _ => fun fd => fd
        end
          (if isValidPathString
                (participant_path (r_roomId r) (userIdRef st))
           then log_call
                  (CallRemove (participant_path (r_roomId r) (userIdRef st)))
                  (db st)
           else db st))
       None).
Proof.
  intros H1 H2 Hf. unfold Part001.leaveRoom. rewrite H1.
  destruct (r_roomId r) as [|c s]; [done|]. cbn [negb orb is_empty].
  unfold mbind, async_mbind, async_bind, get_userId.
  assert (∀ s0 : state (option Part001.cleanup_closure),
            faulty (db s0) = [] →
            try_catch Part001.call_stored_cleanup s0
            = (Fulfilled tt,
               with_db
                 (match roomRef s0, extra s0 with
                  | Some _, Some c => closure_detach c
                  | _, _ => fun fd => fd
                  end (db s0)) s0)) as Hcall.
  { intros s0 Hf0. unfold try_catch, Part001.call_stored_cleanup.
    destruct (roomRef s0); [|by rewrite with_db_id].
    destruct (extra s0); [|by rewrite with_db_id].
    by rewrite run_cleanup_healthy. }
  assert (try_catch
            (fun st0 =>
               match fb_ref (participant_path (c :: s) (userIdRef st)) st0 with
               | (Fulfilled a, st') => fb_remove a removal st'
               | (Rejected e, st') => (Rejected e, st')
               end) st
          = (Fulfilled tt,
             with_db
               (if isValidPathString
                     (participant_path (c :: s) (userIdRef st))
                then log_call
                       (CallRemove (participant_path (c :: s) (userIdRef st)))
                       (db st)
                else db st) st)) as Hrm.
  { unfold try_catch, fb_ref.
    destruct (isValidPathString (participant_path (c :: s) (userIdRef st)));
      [destruct removal; reflexivity|by rewrite with_db_id]. }
  cbv beta. rewrite Hrm. rewrite Hcall.
  - reflexivity.
  - cbn [db with_db].
    by destruct (isValidPathString
                   (participant_path (c :: s) (userIdRef st))).
Qed.

End Part001Functions.

Section Part001Runs.
Implicit Type st : state (option Part001.cleanup_closure).


Lemma closure_detach_faulty c fd : faulty (closure_detach c fd) = faulty fd.
Proof. unfold closure_detach. by rewrite !unsub_detach_faulty. Qed.



Lemma covered_frame st st' :
  listeners (db st') = listeners (db st) → inRoom st' = inRoom st →
  extra st' = extra st → roomRef st' = roomRef st →
  faulty (db st') = faulty (db st) →
  Part001.covered st → Part001.covered st'.
Proof. unfold Part001.covered. intros -> -> -> -> ->. done. Qed.

Lemma Part001_sendMessage_frame r generated now write st :
  let st' := final (Part001.sendMessage r generated now write st) in
  listeners (db st') = listeners (db st) ∧ inRoom st' = inRoom st
  ∧ extra st' = extra st ∧ roomRef st' = roomRef st
  ∧ faulty (db st') = faulty (db st).
Proof.
  unfold Part001.sendMessage.
  destruct (negb (r_inRoom r) || is_empty (trim (r_localText r)));
    [done|].
  async_run. refs_split; [|done]. destruct write; done.
Qed.

Lemma Part001_joinRoom_covered r id now presence disconnect st :
  Part001.covered st → listeners (db st) = [] →
  Part001.covered
    (final (Part001.joinRoom r id now presence disconnect st)).
Proof.
  intros Hc Hnone. destruct id as [|u id]; [exact Hc|].
  destruct Hc as (_ & _ & Hf).
  destruct (Part001_joinRoom_frame r (u :: id) now presence disconnect st)
    as (Hin & _ & Hf' & [Hl|[Hv ->]]); [done|..].
  - split; [rewrite Hin; discriminate|]. split; [|by rewrite Hf'].
    intros l Hl'. rewrite Hl, Hnone in Hl'. inversion Hl'.
  - destruct (Part001_joinRoom_subscribes r (u :: id) now disconnect st)
      as (_ & Hls & Hex & Href & _); [done|done|].
    split; [rewrite Hin; discriminate|]. split; [|by rewrite Hf'].
    intros l Hl. rewrite Hls, Hnone in Hl. eexists.
    split; [exact Hex|]. split; [by rewrite Href|].
    cbn [app] in Hl. unfold room_listeners in Hl.
    rewrite !elem_of_cons in Hl. rewrite !elem_of_cons.
    cbn [Part001.c_participants Part001.c_messages Part001.c_room].
    destruct Hl as [->|[->|[->|Hl]]]; [auto|auto|auto|inversion Hl].
Qed.

Lemma Part001_leaveRoom_covered r removal st :
  Part001.covered st →
  Part001.covered (final (Part001.leaveRoom r removal st)).
Proof.
  intros Hc.
  destruct (negb (r_inRoom r) || is_empty (r_roomId r)) eqn:E.
  - by rewrite Part001_leaveRoom_noop.
  - apply orb_false_iff in E as [E1 E2]. apply negb_false_iff in E1.
    assert (r_roomId r ≠ []) as E3 by (by destruct (r_roomId r)).
    destruct Hc as (_ & Hcov & Hf).
    rewrite Part001_leaveRoom_leaves by done.
    cbn [final snd].
    set (fd := if isValidPathString
                    (participant_path (r_roomId r) (userIdRef st))
               then log_call
                      (CallRemove
                         (participant_path (r_roomId r) (userIdRef st)))
                      (db st)
               else db st).
    assert (listeners fd = listeners (db st) ∧ faulty fd = faulty (db st))
      as [Hfl Hff]
      by (subst fd; by rewrite listeners_if_issued, faulty_if_issued).
    assert (listeners
              (match roomRef st, extra st with
               | Some _, Some c => closure_detach c
               | _, _ => fun fd => fd
               end fd) = []) as Hnone.
    { apply elem_of_nil_inv. intros l Hl.
      destruct (roomRef st) as [p|] eqn:Href;
        [destruct (extra st) as [c|] eqn:Hex|].
      - apply elem_of_closure_detach in Hl as [Hl Hout].
        rewrite Hfl in Hl.
        destruct (Hcov l Hl) as (c' & [= <-] & _ & Hc'). contradiction.
      - rewrite Hfl in Hl. destruct (Hcov l Hl) as (c' & [=] & _).
      - rewrite Hfl in Hl. destruct (Hcov l Hl) as (c' & _ & [q [=]] & _). }
    split; [|split].
    + intros _. exact Hnone.
    + intros l Hl. cbn [db] in Hl. rewrite Hnone in Hl. inversion Hl.
    + cbn [db]. destruct (roomRef st); [destruct (extra st)|];
        rewrite ?closure_detach_faulty; by rewrite Hff.
Qed.

Lemma Part001_page_covered st :
  Part001.page_reachable st → Part001.covered st.
Proof.
  induction 1 as [uid nm|st st' _ IH Hstep].
  - split; [done|]. split; [|done]. intros l Hl. inversion Hl.
  - destruct Hstep as [id now joined creation presence disconnect st Hen
                      |now presence disconnect st Hen
                      |removal st Hen
                      |generated now write st Hin
                      |path snap st|path snap st|v st|v st Hin|v st].
    + unfold createDisabled in Hen. cbn [current r_inRoom] in Hen.
      destruct IH as (Hidle & Hcov & Hf).
      destruct creation as [|e].
      * apply Part001_joinRoom_covered.
        -- apply (covered_frame st); try done.
        -- exact (Hidle Hen).
      * apply (covered_frame st); done.
    + unfold joinDisabled in Hen. cbn [current r_inRoom r_roomId] in Hen.
      apply orb_false_iff in Hen as [Hen _].
      apply Part001_joinRoom_covered; [exact IH|].
      destruct IH as (Hidle & _). exact (Hidle Hen).
    + by apply Part001_leaveRoom_covered.
    + destruct (Part001_sendMessage_frame (current st) generated now write st)
        as (H1 & H2 & H3 & H4 & H5).
      by apply (covered_frame st).
    + apply (covered_frame st); try done;
        rewrite deliverChildAdded_eq; by destruct (existsb _ _).
    + apply (covered_frame st); try done;
        rewrite deliverParticipants_eq; by destruct (existsb _ _).
    + exact IH.
    + exact IH.
    + exact IH.
Qed.

(** In part_001, as long as the component is driven from the page with
    each function settled before the next event (the buttons act only when
    enabled), the stored closure covers every active listener: an idle
    session has no listener, and a leave from the page of a joined session
    whose room id input is not empty ends with no listener at all. *)
Theorem Part001_page_runs_leave_no_listener
    (st : state (option Part001.cleanup_closure)) (removal : outcome) :
  Part001.page_reachable st →
  (inRoom st = false → listeners (db st) = [])
  ∧ (inRoom st = true → roomId st ≠ [] →
     let left := final (Part001.leaveRoom (current st) removal st) in
     listeners (db left) = [] ∧ inRoom left = false ∧ extra left = None).
Proof.
  intros Hreach. pose proof (Part001_page_covered st Hreach) as Hc.
  split; [by destruct Hc|].
  intros Hin Hroom left.
  assert (Part001.page_reachable left) as Hleft.
  { eapply Part001.page_next; [exact Hreach|].
    apply Part001.page_leave. unfold leaveDisabled.
    cbn [current r_inRoom]. by rewrite Hin. }
  destruct (Part001_page_covered left Hleft) as (Hidle & _ & _).
  assert (faulty (db st) = []) as Hf by (by destruct Hc as (_ & _ & Hf)).
  assert (inRoom left = false ∧ extra left = None) as [H1 H2].
  { subst left. by rewrite Part001_leaveRoom_leaves. }
  split; [exact (Hidle H1)|]. done.
Qed.

Lemma sample_joined001_page_reachable :
  Part001.page_reachable sample_joined001.
Proof.
  assert (Part001.page_reachable (with_roomId (lit "r1") sample_mount001))
    as H.
  { eapply Part001.page_next; [apply Part001.page_mount|].
    apply Part001.page_input_roomId. }
  assert (sample_joined001
          = final (Part001.joinRoom
                     (current (with_roomId (lit "r1") sample_mount001))
                     (roomId (with_roomId (lit "r1") sample_mount001))
                     1000 Succeeds Succeeds
                     (with_roomId (lit "r1") sample_mount001))) as E
    by (vm_compute; reflexivity).
  rewrite E. eapply Part001.page_next; [exact H|].
  apply Part001.page_join. vm_compute. reflexivity.
Qed.

Lemma Part001_page_runs_leave_no_listener_witness :
  let left := final (Part001.leaveRoom (current sample_joined001) Succeeds
                       sample_joined001) in
  Part001.page_reachable sample_joined001
  ∧ listeners (db sample_joined001) = room_listeners (lit "r1") 0
  ∧ listeners (db left) = [].
Proof.
  intros left.
  destruct (Part001_page_runs_leave_no_listener sample_joined001 Succeeds
              sample_joined001_page_reachable) as [_ H].
  assert (roomId sample_joined001 ≠ []) as Hroom
    by (vm_compute; discriminate).
  destruct (H eq_refl Hroom) as (H1 & _).
  split; [exact sample_joined001_page_reachable|].
  split; [vm_compute; reflexivity|exact H1].
Defined.

End Part001Runs.

(** ** The stored identity *)

(** The user id survives a reload: when [uuidv4()] gives a non-empty
    string, the id the component works with is not empty, it is the stored
    one whenever a non-empty id was stored, and after the effect has
    persisted it every later mount over that storage starts with the same
    id, whatever [uuidv4()] gives then.  The other keys of the storage are
    untouched. *)
Theorem identity_survives_reload
    (storage : gmap (list N) (list N)) (uuid uuid' : jsstring) :
  uuid ≠ [] →
  let uid := fst (mountIdentity storage uuid) in
  let storage' := snd (mountIdentity storage uuid) in
  uid ≠ []
  ∧ (∀ stored, storage !! lit "chat_user_id" = Some stored → stored ≠ [] →
               uid = stored)
  ∧ initialUserId storage' uuid' = uid
  ∧ fst (mountIdentity storage' uuid') = uid
  ∧ (∀ k, k ≠ lit "chat_user_id" → storage' !! k = storage !! k).
Proof.
  intros Huuid uid storage'.
  change uid with (initialUserId storage uuid).
  change storage'
    with (persistUserId (initialUserId storage uuid) storage).
  clear uid storage'.
  assert (initialUserId storage uuid ≠ []) as Huid.
  { unfold initialUserId.
    destruct (storage !! lit "chat_user_id") as [s|]; [|done].
    by destruct s. }
  assert (initialUserId
            (persistUserId (initialUserId storage uuid) storage) uuid'
          = initialUserId storage uuid) as Hnext.
  { unfold initialUserId at 1, persistUserId.
    rewrite lookup_insert_eq.
    by destruct (initialUserId storage uuid). }
  split; [exact Huid|]. split; [|split; [exact Hnext|split; [exact Hnext|]]].
  - intros stored Hs Hne. unfold initialUserId.
    rewrite Hs. by destruct stored.
  - intros k Hk. unfold persistUserId. by rewrite lookup_insert_ne.
Qed.

Lemma identity_survives_reload_witness :
  let first := mountIdentity ∅ (lit "3f2b-uuid") in
  fst first = lit "3f2b-uuid"
  ∧ fst (mountIdentity (snd first) (lit "77aa-uuid")) = lit "3f2b-uuid".
Proof.
  intros first.
  assert (lit "3f2b-uuid" ≠ []) as H by (vm_compute; discriminate).
  destruct (identity_survives_reload ∅ (lit "3f2b-uuid") (lit "77aa-uuid") H)
    as (_ & _ & _ & H1 & _).
  split; [vm_compute; reflexivity|].
  etrans; [exact H1|]. vm_compute. reflexivity.
Defined.

(** ** The avatar initials *)

Lemma js_split_nonsep (sep c : N) (s : jsstring) :
  c ≠ sep → ∃ piece pieces, js_split sep (c :: s) = (c :: piece) :: pieces.
Proof.
  intros H. cbn [js_split].
  destruct (N.eqb_spec c sep); [done|].
  destruct (js_split sep s); eauto.
Qed.

Lemma length_join_units (xs : list (option N)) :
  length (join_units xs) ≤ length xs.
Proof.
  unfold join_units.
  induction xs as [|[x|] xs IH]; cbn [omap list_omap length] in *; lia.
Qed.

Lemma length_initial_units (pieces : list jsstring) :
  length (join_units (take 2 (first_unit <$> pieces))) ≤ 2.
Proof.
  etrans; [apply length_join_units|]. rewrite length_take. lia.
Qed.

(** [initialsFor] of part_000: ["?"] for the empty name only; otherwise the
    upper-cased string of at most two code units, which starts with the
    first code unit of the name that is not white space, and is the
    upper-cased empty string for a name of white space only. *)
Theorem Part000_initialsFor_spec
    (toUpperCase : jsstring → jsstring) (n : jsstring) :
  (n = [] → Part000.initialsFor toUpperCase n = lit "?")
  ∧ (n ≠ [] →
     ∃ t, Part000.initialsFor toUpperCase n = toUpperCase t
          ∧ length t ≤ 2
          ∧ (trim n = [] → t = [])
          ∧ (∀ c rest, trim n = c :: rest →
               is_white_space c = false ∧ ∃ t', t = c :: t')).
Proof.
  split; [by intros ->|].
  intros Hn. unfold Part000.initialsFor. destruct n as [|u n]; [done|].
  cbn [is_empty]. eexists. split; [reflexivity|].
  split; [apply length_initial_units|]. split.
  - intros ->. reflexivity.
  - intros c rest E. rewrite E.
    pose proof (trim_head _ _ _ E) as Hc. split; [exact Hc|].
    assert (c ≠ 32%N) as Hsp by (intros ->; discriminate Hc).
    destruct (js_split_nonsep 32 c rest Hsp) as (piece & pieces & ->).
    cbn [fmap list_fmap first_unit head take join_units omap].
    destruct pieces; cbn; eauto.
Qed.

Lemma Part000_initialsFor_spec_witness :
  Part000.initialsFor ascii_toUpperCase (lit "  ann bob lee ") = lit "AB"
  ∧ Part000.initialsFor ascii_toUpperCase (lit "   ") = [].
Proof.
  destruct (Part000_initialsFor_spec ascii_toUpperCase (lit "  ann bob lee "))
    as [_ H1].
  destruct (Part000_initialsFor_spec ascii_toUpperCase (lit "   "))
    as [_ H2].
  destruct H1 as (t1 & E1 & _); [vm_compute; discriminate|].
  destruct H2 as (t2 & E2 & _ & Hblank & _); [vm_compute; discriminate|].
  split.
  - vm_compute. reflexivity.
  - rewrite E2, Hblank; [reflexivity|]. vm_compute. reflexivity.
Defined.

(** [initialsFor] of part_001 does not trim: a name that begins with a
    space loses an initial, and a name that begins with two spaces has
    none; on the names without white space at either end the two variants
    give the same initials. *)
Theorem Part001_initialsFor_leading_spaces
    (toUpperCase : jsstring → jsstring) (n : jsstring) :
  (∃ t, Part001.initialsFor toUpperCase (32%N :: n) = toUpperCase t
        ∧ length t ≤ 1)
  ∧ Part001.initialsFor toUpperCase (32%N :: 32%N :: n) = toUpperCase []
  ∧ (trim n = n →
     Part001.initialsFor toUpperCase n = Part000.initialsFor toUpperCase n).
Proof.
  split; [|split].
  - exists (join_units (take 1 (first_unit <$> js_split 32 n))).
    split; [reflexivity|].
    etrans; [apply length_join_units|]. rewrite length_take. lia.
  - reflexivity.
  - intros H. unfold Part001.initialsFor, Part000.initialsFor.
    by rewrite H.
Qed.

Lemma Part001_initialsFor_leading_spaces_witness :
  trim (lit "ann bob") = lit "ann bob"
  ∧ Part001.initialsFor ascii_toUpperCase (lit "ann bob") = lit "AB"
  ∧ Part001.initialsFor ascii_toUpperCase (lit " ann bob") = lit "A"
  ∧ Part000.initialsFor ascii_toUpperCase (lit " ann bob") = lit "AB".
Proof.
  destruct (Part001_initialsFor_leading_spaces ascii_toUpperCase
              (lit "ann bob")) as (_ & _ & H).
  assert (trim (lit "ann bob") = lit "ann bob") as Ht
    by (vm_compute; reflexivity).
  split; [exact Ht|]. split; [|split]; [|vm_compute; reflexivity..].
  rewrite (H Ht). vm_compute. reflexivity.
Defined.

(** ** [createRoom] of part_000 *)

(** [createRoom] of part_000 keeps the registry in step with the client:
    from a state in which every active listener has its closure in
    [cleanupRef] and no closure is faulty it ends in such a state again,
    whatever the outcomes.  When the write of the room record is rejected
    it is rejected with that error and touches neither the listeners nor
    [cleanupRef]; otherwise it is fulfilled, whatever becomes of the join it
    starts. *)
Theorem Part000_createRoom_keeps_listeners_registered
    (r : render) (id : jsstring) (now joined : Z)
    (creation removal presence disconnect : outcome)
    (st : state (list cleanup_entry)) :
  Part000.all_registered st → faulty (db st) = [] →
  let out := Part000.createRoom r id now joined creation removal presence
               disconnect st in
  Part000.all_registered (final out)
  ∧ faulty (db (final out)) = []
  ∧ (creation = Succeeds → settles out = Fulfilled tt)
  ∧ (∀ e, creation = Fails e →
          settles out = Rejected e
          ∧ listeners (db (final out)) = listeners (db st)
          ∧ extra (final out) = extra st
          ∧ inRoom (final out) = inRoom st).
Proof.
  intros Hreg Hf out. subst out.
  destruct (Part000_createRoom_invariant r id now joined creation removal
              presence disconnect st) as [H1 H2]; [by split|].
  split; [exact H1|]. split; [exact H2|].
  destruct creation as [|e].
  - split; [done|]. intros e [=].
  - split; [intros [=]|]. intros e' [= <-]. done.
Qed.

Lemma Part000_createRoom_keeps_listeners_registered_witness :
  let out := Part000.createRoom (current sample_mount000) (lit "k3x9p2q")
               1000 1001 Succeeds Succeeds Succeeds Succeeds
               sample_mount000 in
  settles out = Fulfilled tt
  ∧ Part000.all_registered (final out)
  ∧ listeners (db (final out)) = room_listeners (lit "k3x9p2q") 0.
Proof.
  intros out.
  assert (Part000.all_registered sample_mount000) as Hreg
    by (intros l Hl; inversion Hl).
  destruct (Part000_createRoom_keeps_listeners_registered
              (current sample_mount000) (lit "k3x9p2q") 1000 1001
              Succeeds Succeeds Succeeds Succeeds sample_mount000 Hreg
              eq_refl) as (H1 & _ & H2 & _).
  split; [exact (H2 eq_refl)|]. split; [exact H1|].
  vm_compute. reflexivity.
Defined.
